(** * sqlparams: the [:name] placeholder scanner of go-sqlparams

  A shallow embedding of [ParseSQL] (the scan dispatcher), of the
  skippers and the placeholder recognizer of [parse_state.go], of the
  name validator [isValidName] and of the output rewriter, then of the
  parameter methods of [identifiers.go] and [query_token.go] and of the
  parsers of [cardinality.go] and [db_data_type.go], followed by the
  properties of the specification and further properties of the code.

  Conventions of the embedding.
  - A Go [string] is a [list ascii]: a sequence of bytes.  A Go [byte]
    is an [ascii]; its numeric value is [N_of_ascii].
  - Offsets ([int] in the source) are [nat].  Every offset the scan
    computes lies between [0] and [len(src) + 2], and a Go string is
    shorter than [2^63] bytes, so 64-bit wrap-around cannot happen.
  - A loop of the form [for s.i < s.n { ... s.src[s.i] ... }] whose body
    advances the cursor by one is a structural recursion over the bytes
    that remain, [drop i src]: that list is empty exactly when
    [s.i < s.n] fails and its head is [s.src[s.i]].
  - The map [indexOf] is a [gmap]; slices are lists. *)

From Stdlib Require Import NArith Ascii String List Sorted Lia.
From stdpp Require Import base option list gmap strings pretty.

Local Open Scope char_scope.
Local Open Scope nat_scope.

(** ** Bytes and strings *)

(** A Go string literal. *)
Definition bytes (s : string) : list ascii := list_ascii_of_string s.

(** [a <= b] on bytes. *)
Definition ble (a b : ascii) : bool := (N_of_ascii a <=? N_of_ascii b)%N.

(** [src[k]]; every use below is guarded by a bounds test, as in the
  source, where an index out of range would panic. *)
Definition byteAt (src : list ascii) (k : nat) : ascii :=
default "000" (src !! k).

(** [src[a:b]]. *)
Definition slice (src : list ascii) (a b : nat) : list ascii :=
take (b - a) (drop a src).

(** [strings.Index(s, sub)]: the offset of the first occurrence of [sub]
  in [s]; [None] stands for [-1]. *)
Fixpoint hasPrefix (s sub : list ascii) : bool :=
match sub, s with
| [], _ => true
| _ :: _, [] => false
| c :: sub', d :: s' => Ascii.eqb c d && hasPrefix s' sub'
end.

Fixpoint stringsIndex (s sub : list ascii) : option nat :=
if hasPrefix s sub then Some 0
else match s with
     | [] => None
     | _ :: s' => S <$> stringsIndex s' sub
     end.

(** ** Go's [unicode] predicates

  In the scanner they are applied to [rune(c)] for a byte [c], that is
  to a code point of Latin-1, where Go answers from a fixed table; that
  part is exact here.  Above Latin-1 the answer comes from Go's range
  tables, which are taken as parameters [wideLetter] and [wideDigit]. *)
Module unicode.

Definition inRange (lo hi r : N) : bool := ((lo <=? r) && (r <=? hi))%N.

Definition latin1Letter (r : N) : bool :=
  inRange 65 90 r || inRange 97 122 r
  || (r =? 170)%N || (r =? 181)%N || (r =? 186)%N
  || inRange 192 214 r || inRange 216 246 r || inRange 248 255 r.

Definition latin1Digit (r : N) : bool := inRange 48 57 r.

Definition IsLetter (wideLetter : N -> bool) (r : N) : bool :=
  if (r <=? 255)%N then latin1Letter r else wideLetter r.

Definition IsDigit (wideDigit : N -> bool) (r : N) : bool :=
  if (r <=? 255)%N then latin1Digit r else wideDigit r.

(** White space of Latin-1: tab, newline, vertical tab, form feed,
    carriage return, space, NEL (0x85) and NBSP (0xA0).  [IsSpace] is
    only ever applied to a byte. *)
Definition IsSpace (r : N) : bool :=
  inRange 9 13 r || (r =? 32)%N || (r =? 133)%N || (r =? 160)%N.

End unicode.

(** [rune(c)] for a byte [c]. *)
Definition rune (c : ascii) : N := N_of_ascii c.

(** ** UTF-8: the first rune of a string

  [decodeRune l] is the first element of [[]rune(l)] for a non-empty
  [l], with the number of bytes of its UTF-8 encoding.  An invalid or
  truncated sequence decodes to U+FFFD, whose encoding has 3 bytes. *)
Definition RuneError : N := 65533.

Definition isCont (lo hi : N) (c : ascii) : bool :=
unicode.inRange lo hi (N_of_ascii c).

Definition contBits (c : ascii) : N := N.land (N_of_ascii c) 63.

Definition decodeRune (l : list ascii) : N * nat :=
match l with
| [] => (RuneError, 3)
| b0 :: l1 =>
    let x := N_of_ascii b0 in
    if (x <? 128)%N then (x, 1)
    else if unicode.inRange 194 223 x then
      match l1 with
      | b1 :: _ =>
          if isCont 128 191 b1
          then (N.lor (N.shiftl (N.land x 31) 6) (contBits b1), 2)
          else (RuneError, 3)
      | _ => (RuneError, 3)
      end
    else if unicode.inRange 224 239 x then
      let lo := if (x =? 224)%N then 160%N else 128%N in
      let hi := if (x =? 237)%N then 159%N else 191%N in
      match l1 with
      | b1 :: b2 :: _ =>
          if isCont lo hi b1 && isCont 128 191 b2
          then (N.lor (N.shiftl (N.land x 15) 12)
                  (N.lor (N.shiftl (contBits b1) 6) (contBits b2)), 3)
          else (RuneError, 3)
      | _ => (RuneError, 3)
      end
    else if unicode.inRange 240 244 x then
      let lo := if (x =? 240)%N then 144%N else 128%N in
      let hi := if (x =? 244)%N then 143%N else 191%N in
      match l1 with
      | b1 :: b2 :: b3 :: _ =>
          if isCont lo hi b1 && isCont 128 191 b2 && isCont 128 191 b3
          then (N.lor (N.shiftl (N.land x 7) 18)
                  (N.lor (N.shiftl (contBits b1) 12)
                     (N.lor (N.shiftl (contBits b2) 6) (contBits b3))), 4)
          else (RuneError, 3)
      | _ => (RuneError, 3)
      end
    else (RuneError, 3)
end.

(** ** Identifier bytes (the scanner's character classes) *)

Definition isValidIdentifierStart (b : ascii) : bool :=
(ble "a" b && ble b "z") || (ble "A" b && ble b "Z") || Ascii.eqb b "_".

Definition isValidIdentifierChar (b : ascii) : bool :=
isValidIdentifierStart b
|| (ble "0" b && ble b "9")
|| Ascii.eqb b "."
|| Ascii.eqb b "[" || Ascii.eqb b "]".

(** ** The name validator *)

Section Sqlparams.

(** Go's Unicode range tables above Latin-1 (see [unicode]). *)
Variable wideLetter : N -> bool.
Variable wideDigit : N -> bool.

(** [utf8At(s, i)]: the rune at byte offset [i] and its width. *)
Definition utf8At (s : list ascii) (i : nat) : N * nat :=
  let b := byteAt s i in
  if (N_of_ascii b <? 128)%N then (rune b, 1)
  else decodeRune (drop i s).

Definition isLetterOrUnderscore (r : N) : bool :=
  if (r =? 95)%N then true
  else if unicode.IsLetter wideLetter r then true
  else false.

Definition isLetterDigitOrUnderscore (r : N) : bool :=
  if (r =? 95)%N then true
  else if unicode.IsLetter wideLetter r then true
  else if unicode.IsDigit wideDigit r then true
  else false.

(** The loop of [readIdent].  Every iteration that continues adds a
    width [w >= 1] to [i], so [length s - i] iterations are enough
    ([readIdentLoop_fuel] below). *)
Fixpoint readIdentLoop (fuel : nat) (s : list ascii) (i : nat) : nat :=
  match fuel with
  | 0 => i
  | S fuel =>
      if i <? length s then
        let '(r, w) := utf8At s i in
        if isLetterDigitOrUnderscore r then readIdentLoop fuel s (i + w)
        else i
      else i
  end.

(** [readIdent(s, &i)]: the result [ok] and the new value of [*i]. *)
Definition readIdent (s : list ascii) (i : nat) : bool * nat :=
  if length s <=? i then (false, i)
  else
    let '(r, w) := utf8At s i in
    if negb (isLetterOrUnderscore r) then (false, i)
    else (true, readIdentLoop (length s - (i + w)) s (i + w)).

Fixpoint readDigitsLoop (rest : list ascii) (i : nat) : nat :=
  match rest with
  | [] => i
  | c :: rest' =>
      if negb (ble "0" c) || negb (ble c "9") then i
      else readDigitsLoop rest' (S i)
  end.

(** [readDigits(s, &i)]. *)
Definition readDigits (s : list ascii) (i : nat) : bool * nat :=
  let start := i in
  if length s <=? i then (false, i)
  else
    let i := readDigitsLoop (drop i s) i in
    if i =? start then (false, i) else (true, i).

(** The loop of [isValidName]; every iteration that continues moves
    [i] forward, so [length s - i] iterations are enough
    ([nameLoop_fuel] below). *)
Fixpoint nameLoop (fuel : nat) (s : list ascii) (i : nat) : bool :=
  match fuel with
  | 0 => length s <=? i
  | S fuel =>
      if i <? length s then
        let c := byteAt s i in
        if Ascii.eqb c "." then
          let i := i + 1 in
          let '(ok, i) := readIdent s i in
          if negb ok then false else nameLoop fuel s i
        else if Ascii.eqb c "[" then
          let i := i + 1 in
          let '(ok, i) := readDigits s i in
          if negb ok then false
          else if (length s <=? i) || negb (Ascii.eqb (byteAt s i) "]")
          then false
          else nameLoop fuel s (i + 1)
        else false
      else true
  end.

Definition isValidName (s : list ascii) : bool :=
  match s with
  | [] => false
  | _ =>
      let '(ok, i) := readIdent s 0 in
      if negb ok then false else nameLoop (length s - i) s i
  end.

(** ** The scan state *)

Record editState := mkEdit {
  e_start : nat;
  e_end : nat;
  e_repl : list ascii
}.

(** [QueryToken]: one placeholder occurrence. *)
Record QueryToken := mkToken {
  Name : list ascii;
  Index : nat;
  Start : nat;
  End_ : nat;
  Raw : list ascii
}.

(** The source's [Parameter]. *)
Record Param := NewParameter {
  p_Name : list ascii;
  p_Index : nat
}.

Record parseState := mkState {
  st_src : list ascii;
  st_n : nat;
  st_i : nat;
  st_edits : list editState;
  st_order : list (list ascii);
  st_indexOf : gmap (list ascii) nat;
  st_tokens : list QueryToken
}.

Definition newParseState (sqlText : list ascii) : parseState :=
  {| st_src := sqlText; st_n := length sqlText; st_i := 0;
     st_edits := []; st_order := []; st_indexOf := ∅; st_tokens := [] |}.

(** [s.i = v]. *)
Definition set_i (s : parseState) (v : nat) : parseState :=
  {| st_src := st_src s; st_n := st_n s; st_i := v;
     st_edits := st_edits s; st_order := st_order s;
     st_indexOf := st_indexOf s; st_tokens := st_tokens s |}.

(** [getIndex(name)]: the index and the updated registry. *)
Definition getIndex (s : parseState) (name : list ascii) : nat * parseState :=
  match st_indexOf s !! name with
  | Some idx => (idx, s)
  | None =>
      let order := st_order s ++ [name] in
      let idx := length order in
      (idx,
       {| st_src := st_src s; st_n := st_n s; st_i := st_i s;
          st_edits := st_edits s; st_order := order;
          st_indexOf := <[name := idx]> (st_indexOf s);
          st_tokens := st_tokens s |})
  end.

(** [peek(k)]: the byte [k] places ahead, or the zero byte. *)
Definition peek (s : parseState) (k : nat) : ascii :=
  if st_i s + k <? st_n s then byteAt (st_src s) (st_i s + k) else "000".

(** ** Lexical span skippers

    Each loop takes the bytes from the cursor on ([rest], which is
    [drop i src]) and the cursor [i], and returns the cursor at which
    the source loop is left. *)

(** The branch after [if s.i <= s.n] is written as in the source; it
    reads [s.src[s.i]] and so needs [rest'] to be non-empty.  In a scan
    it is never reached ([singleQuotedLoop_closingLoop] below). *)
Fixpoint singleQuotedLoop (n : nat) (rest : list ascii) (i : nat) : nat :=
  match rest with
  | [] => i
  | c :: rest' =>
      let i := S i in
      if Ascii.eqb c "'" then
        if i <=? n then i
        else
          match rest' with
          | [] => i
          | c' :: rest'' =>
              if negb (Ascii.eqb c' "'") then i
              else singleQuotedLoop n rest'' (S i)
          end
      else singleQuotedLoop n rest' i
  end.

Definition consumeSingleQuoted (s : parseState) : parseState :=
  let i := S (st_i s) in
  set_i s (singleQuotedLoop (st_n s) (drop i (st_src s)) i).

(** The loop shared, up to the closing byte, by [consumeDoubleQuoted],
    [consumeBacktick] and [consumeBracketIdent]. *)
Fixpoint closingLoop (close : ascii) (rest : list ascii) (i : nat) : nat :=
  match rest with
  | [] => i
  | c :: rest' =>
      let i := S i in
      if Ascii.eqb c close then i else closingLoop close rest' i
  end.

Definition consumeDoubleQuoted (s : parseState) : parseState :=
  let i := S (st_i s) in
  set_i s (closingLoop "034" (drop i (st_src s)) i).

Definition consumeBacktick (s : parseState) : parseState :=
  let i := S (st_i s) in
  set_i s (closingLoop "`" (drop i (st_src s)) i).

Definition consumeBracketIdent (s : parseState) : parseState :=
  let i := S (st_i s) in
  set_i s (closingLoop "]" (drop i (st_src s)) i).

(** [for s.i < s.n && s.src[s.i] != '\n' { s.i++ }] *)
Fixpoint lineLoop (rest : list ascii) (i : nat) : nat :=
  match rest with
  | [] => i
  | c :: rest' =>
      if negb (Ascii.eqb c "010") then lineLoop rest' (S i) else i
  end.

Definition consumeDashDash (s : parseState) : parseState :=
  set_i s (lineLoop (drop (st_i s) (st_src s)) (st_i s)).

Definition consumeHashComment (s : parseState) : parseState :=
  let i := S (st_i s) in
  set_i s (lineLoop (drop i (st_src s)) i).

(** The first loop of [consumeBlockComment], [for s.i < s.n-1]: at
    least two bytes remain.  The result is the cursor and whether the
    loop was left through [goto end]. *)
Fixpoint blockLoop1 (rest : list ascii) (i : nat) : nat * bool :=
  match rest with
  | c :: ((c' :: _) as rest') =>
      if negb (Ascii.eqb c "*") then blockLoop1 rest' (S i)
      else if negb (Ascii.eqb c' "/") then blockLoop1 rest' (S i)
      else (i + 2, true)
  | _ => (i, false)
  end.

(** The second loop of [consumeBlockComment]. *)
Fixpoint blockLoop2 (rest : list ascii) (i : nat) : nat * bool :=
  match rest with
  | c :: ((c' :: _) as rest') =>
      if Ascii.eqb c "*" && Ascii.eqb c' "/" then (i + 2, true)
      else blockLoop2 rest' (S i)
  | _ => (i, false)
  end.

Definition consumeBlockComment (s : parseState) : parseState :=
  let i := st_i s + 2 in
  let '(i, found) := blockLoop1 (drop i (st_src s)) i in
  if found then set_i s i
  else
    let '(i, found) := blockLoop2 (drop i (st_src s)) i in
    if found then set_i s i
    else set_i s (st_n s).

(** The tag loop of [consumeDollarQuoted].  [None]: the byte after the
    [$] (or after the tag read so far) is no tag byte, the source sets
    [s.i = start + 1] and leaves.  [Some i]: the loop ended, through
    [break] or at end of input, with cursor [i]. *)
Fixpoint dollarTagLoop (rest : list ascii) (i : nat) : option nat :=
  match rest with
  | [] => Some i
  | c :: rest' =>
      if Ascii.eqb c "$" then Some (S i)
      else if negb (Ascii.eqb c "_")
              && negb (unicode.IsLetter wideLetter (rune c))
              && negb (unicode.IsDigit wideDigit (rune c))
      then None
      else dollarTagLoop rest' (S i)
  end.

Definition consumeDollarQuoted (s : parseState) : parseState :=
  let start := st_i s in
  let i := S start in
  match dollarTagLoop (drop i (st_src s)) i with
  | None => set_i s (start + 1)
  | Some i =>
      if st_n s <? i then set_i s (st_n s)
      else
        let tag := slice (st_src s) start i in
        match stringsIndex (drop i (st_src s)) tag with
        | None => set_i s (st_n s)
        | Some idx => set_i s (i + (idx + length tag))
        end
  end.

(** [for s.i < s.n && unicode.IsSpace(rune(s.src[s.i])) { s.i++ }] *)
Fixpoint spaceLoop (rest : list ascii) (i : nat) : nat :=
  match rest with
  | [] => i
  | c :: rest' =>
      if unicode.IsSpace (rune c) then spaceLoop rest' (S i) else i
  end.

(** The closing loop of [consumeOracleQ].  [Some i]: left through
    [goto end] just past the closing delimiter and quote.  [None]: the
    loop ended or was broken out of, and the source sets [s.i = s.n]. *)
Fixpoint oracleLoop (closeDelim : ascii) (rest : list ascii) (i : nat)
  : option nat :=
  match rest with
  | [] => None
  | c :: rest' =>
      if Ascii.eqb c closeDelim then
        match rest' with
        | [] => None
        | c' :: _ =>
            if negb (Ascii.eqb c' "'") then oracleLoop closeDelim rest' (S i)
            else Some (i + 2)
        end
      else oracleLoop closeDelim rest' (S i)
  end.

Definition closingDelimiter (delim : ascii) : ascii :=
  if Ascii.eqb delim "<" then ">"
  else if Ascii.eqb delim "(" then ")"
  else if Ascii.eqb delim "[" then "]"
  else if Ascii.eqb delim "{" then "}"
  else delim.

Definition consumeOracleQ (s : parseState) : parseState :=
  let src := st_src s in
  let n := st_n s in
  let start := st_i s in
  if n <=? start + 1 then set_i s (start + 1)
  else if negb (Ascii.eqb (byteAt src (start + 1)) "'")
          && negb (Ascii.eqb (byteAt src (start + 1)) " ")
  then set_i s (start + 1)
  else
    let i := start + 1 in
    let i := spaceLoop (drop i src) i in
    if (n <=? i) || negb (Ascii.eqb (byteAt src i) "'")
    then set_i s (start + 1)
    else
      let i := i + 1 in
      if n <=? i then set_i s n
      else
        let delim := byteAt src i in
        let closeDelim := closingDelimiter delim in
        let i := i + 1 in
        match oracleLoop closeDelim (drop i src) i with
        | Some i => set_i s i
        | None => set_i s n
        end.

(** ** The placeholder recognizer *)

(** [NewErr(ErrInvalidPlaceholderName, "name", rawName, "offset", start)]
    is the sentinel with the two values attached; [NewErr] itself is
    not part of the sources at hand. *)
Inductive error :=
| ErrFormatParamFuncRequired
| ErrInvalidPlaceholderName (name : list ascii) (offset : nat).

Definition FormatParamFunc := nat -> list ascii.

(** [for j < s.n && isValidIdentifierChar(s.src[j]) { j++ }] *)
Fixpoint identLoop (rest : list ascii) (j : nat) : nat :=
  match rest with
  | [] => j
  | c :: rest' => if isValidIdentifierChar c then identLoop rest' (S j) else j
  end.

Definition consumePlaceholder (formatFunc : FormatParamFunc) (s : parseState)
  : parseState * option error :=
  let start := st_i s in
  let s := set_i s (start + 1) in
  let j := st_i s in
  if (st_n s <=? j) || negb (isValidIdentifierStart (byteAt (st_src s) j))
  then (s, None)
  else
    let j := identLoop (drop j (st_src s)) j in
    let rawName := slice (st_src s) (st_i s) j in
    if negb (isValidName rawName)
    then (s, Some (ErrInvalidPlaceholderName rawName start))
    else
      let '(idx, s) := getIndex s rawName in
      let tok := {| Name := rawName; Index := idx; Start := start;
                    End_ := j; Raw := slice (st_src s) start j |} in
      let ed := {| e_start := start; e_end := j;
                   e_repl := formatFunc idx |} in
      ({| st_src := st_src s; st_n := st_n s; st_i := j;
          st_edits := st_edits s ++ [ed];
          st_order := st_order s; st_indexOf := st_indexOf s;
          st_tokens := st_tokens s ++ [tok] |}, None).

(** ** The output rewriter *)

(** The loop of [buildSQL]: the builder [b] and [last]. *)
Fixpoint buildEdits (src b : list ascii) (last : nat) (es : list editState)
  : list ascii * nat :=
  match es with
  | [] => (b, last)
  | e :: es =>
      let b := if last <? e_start e then b ++ slice src last (e_start e)
               else b in
      let b := b ++ e_repl e in
      buildEdits src b (e_end e) es
  end.

Definition buildSQL (s : parseState) : list ascii :=
  let '(b, last) := buildEdits (st_src s) [] 0 (st_edits s) in
  if last <? length (st_src s) then b ++ drop last (st_src s) else b.

Definition zeroToken : QueryToken :=
  {| Name := []; Index := 0; Start := 0; End_ := 0; Raw := [] |}.

Definition orderedTokens (s : parseState) : list QueryToken :=
  let ordered := replicate (length (st_order s)) zeroToken in
  fold_left
    (fun ordered p =>
       if Index p <? 1 then ordered
       else if length (st_order s) <? Index p then ordered
       else if negb (bool_decide
                       (default [] (st_order s !! (Index p - 1)) = Name p))
       then ordered
       else <[Index p - 1 := p]> ordered)
    (st_tokens s) ordered.

(** [sort.Slice(qts, func(i, j) { return qts[i].Index < qts[j].Index })]:
    an insertion sort; Go does not promise a stable sort, and where the
    indices are pairwise distinct every sort gives this result. *)
Fixpoint insertByIndex (t : QueryToken) (l : list QueryToken)
  : list QueryToken :=
  match l with
  | [] => [t]
  | u :: l' =>
      if Index u <? Index t then u :: insertByIndex t l' else t :: l
  end.

Definition sortSlice (l : list QueryToken) : list QueryToken :=
  fold_right insertByIndex [] l.

(** [QueryTokens.Parameters()].  The method sorts its receiver in
    place, so it leaves the backing array it shares with the caller's
    slice sorted: the result is the parameters and that array. *)
Definition Parameters (qts : list QueryToken)
  : list Param * list QueryToken :=
  let qts := sortSlice qts in
  (map (fun sp => NewParameter (Name sp) (Index sp)) qts, qts).

(** ** The parse operation *)

Record ParsedSQL := mkParsedSQL {
  SQL : list ascii;
  parameters : list Param;
  occurrences : list QueryToken
}.

Definition NewParsedSQLWithOccurrences (sql : list ascii)
    (params : list Param) (occs : list QueryToken) : ParsedSQL :=
  {| SQL := sql; parameters := params; occurrences := occs |}.

(** The zero value of [ParsedSQL], returned with every error. *)
Definition zeroParsedSQL : ParsedSQL :=
  {| SQL := []; parameters := []; occurrences := [] |}.

(** The cases of the [switch] in the loop of [ParseSQL], with the
    conditions under which each one ends in [continue]; [Advance] is
    the final [state.i++], reached from every other place. *)
Inductive branch :=
| DashDash | HashComment | BlockComment
| SingleQuoted | DoubleQuoted | Backtick | BracketIdent
| DollarQuoted | OracleQ
| Cast | Placeholder | Advance.

Definition classify (state : parseState) : branch :=
  let c := byteAt (st_src state) (st_i state) in
  if Ascii.eqb c "-" then
    if Ascii.eqb (peek state 1) "-" then DashDash else Advance
  else if Ascii.eqb c "#" then HashComment
  else if Ascii.eqb c "/" then
    if Ascii.eqb (peek state 1) "*" then BlockComment else Advance
  else if Ascii.eqb c "'" then SingleQuoted
  else if Ascii.eqb c "034" then DoubleQuoted
  else if Ascii.eqb c "`" then Backtick
  else if Ascii.eqb c "[" then BracketIdent
  else if Ascii.eqb c "$" then DollarQuoted
  else if Ascii.eqb c "q" || Ascii.eqb c "Q" then OracleQ
  else if Ascii.eqb c ":" then
    if Ascii.eqb (peek state 1) ":" then Cast
    else if (st_i state + 1 <? st_n state)
            && isValidIdentifierStart (byteAt (st_src state) (st_i state + 1))
    then Placeholder
    else Advance
  else Advance.

(** One iteration of the loop of [ParseSQL], entered with
    [state.i < state.n]. *)
Definition dispatch (formatFunc : FormatParamFunc) (state : parseState)
  : parseState * option error :=
  match classify state with
  | DashDash => (consumeDashDash (set_i state (st_i state + 2)), None)
  | HashComment => (consumeHashComment state, None)
  | BlockComment => (consumeBlockComment state, None)
  | SingleQuoted => (consumeSingleQuoted state, None)
  | DoubleQuoted => (consumeDoubleQuoted state, None)
  | Backtick => (consumeBacktick state, None)
  | BracketIdent => (consumeBracketIdent state, None)
  | DollarQuoted => (consumeDollarQuoted state, None)
  | OracleQ => (consumeOracleQ state, None)
  | Cast => (set_i state (st_i state + 2), None)
  | Placeholder => consumePlaceholder formatFunc state
  | Advance => (set_i state (st_i state + 1), None)
  end.

(** The loop [for state.i < state.n].  [None]: the iterations allowed
    by [fuel] did not reach the end of the loop. *)
Fixpoint scanLoop (formatFunc : FormatParamFunc) (fuel : nat)
    (state : parseState) : option (parseState * option error) :=
  match fuel with
  | 0 => None
  | S fuel =>
      if st_i state <? st_n state then
        match dispatch formatFunc state with
        | (state, Some err) => Some (state, Some err)
        | (state, None) => scanLoop formatFunc fuel state
        end
      else Some (state, None)
  end.

(** [ParseSQL] with a bound on the number of loop iterations.  A nil
    [formatFunc] is [None]. *)
Definition ParseSQL_fuel (fuel : nat) (sqlText : list ascii)
    (formatFunc : option FormatParamFunc)
  : option (ParsedSQL * option error) :=
  match formatFunc with
  | None => Some (zeroParsedSQL, Some ErrFormatParamFuncRequired)
  | Some formatFunc =>
      match scanLoop formatFunc fuel (newParseState sqlText) with
      | None => None
      | Some (state, Some err) => Some (zeroParsedSQL, Some err)
      | Some (state, None) =>
          if length (st_edits state) =? 0 then
            let '(params, tokens) := Parameters (st_tokens state) in
            Some (NewParsedSQLWithOccurrences (st_src state) params tokens,
                  None)
          else
            Some (NewParsedSQLWithOccurrences
                    (buildSQL state)
                    (fst (Parameters (orderedTokens state)))
                    (st_tokens state),
                  None)
      end
  end.

(** Every iteration moves the cursor forward by at least one byte
    ([dispatch_progress] below), so [len(sqlText) + 1] iterations
    always reach the end of the loop ([ParseSQL_total]). *)
Definition ParseSQL (sqlText : list ascii)
    (formatFunc : option FormatParamFunc)
  : option (ParsedSQL * option error) :=
  ParseSQL_fuel (S (length sqlText)) sqlText formatFunc.

(** [k] iterations of the loop of [ParseSQL] from [state], when the
    loop gets that far without an error and without ending. *)
Fixpoint iterFrom (formatFunc : FormatParamFunc) (k : nat)
    (state : parseState) : option parseState :=
  match k with
  | 0 => Some state
  | S k =>
      if st_i state <? st_n state then
        match dispatch formatFunc state with
        | (state, None) => iterFrom formatFunc k state
        | (_, Some _) => None
        end
      else None
  end.

(** The state in which the loop of [ParseSQL] on [sqlText] begins its
    iteration number [k] (counted from 0). *)
Definition stateAfter (formatFunc : FormatParamFunc) (sqlText : list ascii)
    (k : nat) : option parseState :=
  iterFrom formatFunc k (newParseState sqlText).

(** A state of the scan: [n] is the length of the text and the cursor
    is within it. *)
Definition wf (s : parseState) : Prop :=
  st_n s = length (st_src s) /\ st_i s <= st_n s.

(** ** Vocabulary of the properties *)

(** [advances s s']: [s'] is [s] with the cursor moved strictly
    forward, at most to the end of the text. *)
Definition advances (s s' : parseState) : Prop :=
  exists j, s' = set_i s j /\ st_i s < j <= st_n s.

(** Selector punctuation: the bytes of a name that are neither letter,
    digit nor underscore. *)
Definition punctuation (p : ascii) : Prop := p = "." \/ p = "[" \/ p = "]".

(** The raw name the recognizer reads at the cursor: the maximal run
    of identifier bytes after the [:], and the offset of its end. *)
Definition nameEnd (s : parseState) : nat :=
  identLoop (drop (st_i s + 1) (st_src s)) (st_i s + 1).

Definition rawNameAt (s : parseState) : list ascii :=
  slice (st_src s) (st_i s + 1) (nameEnd s).

(** The state [consumePlaceholder] leaves when the name is valid. *)
Definition recognized (formatFunc : FormatParamFunc) (s : parseState)
  : parseState :=
  let '(idx, s1) := getIndex (set_i s (st_i s + 1)) (rawNameAt s) in
  {| st_src := st_src s1; st_n := st_n s1; st_i := nameEnd s;
     st_edits := st_edits s1 ++
       [{| e_start := st_i s; e_end := nameEnd s;
           e_repl := formatFunc idx |}];
     st_order := st_order s1; st_indexOf := st_indexOf s1;
     st_tokens := st_tokens s1 ++
       [{| Name := rawNameAt s; Index := idx; Start := st_i s;
           End_ := nameEnd s;
           Raw := slice (st_src s1) (st_i s) (nameEnd s) |}] |}.

Definition newToken (s : parseState) (idx : nat) : QueryToken :=
  {| Name := rawNameAt s; Index := idx; Start := st_i s;
     End_ := nameEnd s; Raw := slice (st_src s) (st_i s) (nameEnd s) |}.

Definition editOf (formatFunc : FormatParamFunc) (t : QueryToken)
  : editState :=
  {| e_start := Start t; e_end := End_ t; e_repl := formatFunc (Index t) |}.

(** What holds of every token of a scan of [src] with cursor [i]. *)
Definition tokenOK (src : list ascii) (i : nat) (t : QueryToken) : Prop :=
  Start t < End_ t /\ End_ t <= i
  /\ byteAt src (Start t) = ":"
  /\ Name t = slice src (Start t + 1) (End_ t)
  /\ Raw t = slice src (Start t) (End_ t)
  /\ Forall (fun c => isValidIdentifierChar c = true) (Name t)
  /\ (End_ t < length src -> isValidIdentifierChar (byteAt src (End_ t)) = false)
  /\ isValidName (Name t) = true.

Definition tokInv (formatFunc : FormatParamFunc) (s : parseState) : Prop :=
  st_edits s = map (editOf formatFunc) (st_tokens s)
  /\ Forall (tokenOK (st_src s) (st_i s)) (st_tokens s).

(** The registry in terms of the names seen so far: [indexOpt order x]
    is the 1-based position of [x] in [order]; [addName] is what one call
    of [getIndex] does to [order]; [orderOf names] is [order] after the
    names [names] have been registered in turn, that is [names] without
    its repetitions, in the order of the first occurrences. *)
Fixpoint indexOpt (order : list (list ascii)) (x : list ascii) : option nat :=
  match order with
  | [] => None
  | y :: order' =>
      if bool_decide (x = y) then Some 1 else S <$> indexOpt order' x
  end.

Definition addName (order : list (list ascii)) (x : list ascii)
  : list (list ascii) :=
  match indexOpt order x with
  | Some _ => order
  | None => order ++ [x]
  end.

Definition orderOf (names : list (list ascii)) : list (list ascii) :=
  fold_left addName names [].

Definition regInv (s : parseState) : Prop :=
  (forall x, st_indexOf s !! x = indexOpt (st_order s) x)
  /\ st_order s = orderOf (map Name (st_tokens s))
  /\ Forall (fun t => indexOpt (st_order s) (Name t) = Some (Index t))
       (st_tokens s).

(** The parameters that belong to a registry [order]: its names with
    the indices 1, 2, ... *)
Definition paramsOf (order : list (list ascii)) : list Param :=
  imap (fun j x => NewParameter x (S j)) order.

(** [buildSQL] from an arbitrary offset [last] of the text and with an
    arbitrary list of edits; [buildSQL s] is
    [buildFrom (st_src s) 0 (st_edits s)]. *)
Definition buildFrom (src : list ascii) (last : nat) (es : list editState)
  : list ascii :=
  let '(b, last) := buildEdits src [] last es in
  if last <? length src then b ++ drop last src else b.

(** The text [buildFrom] writes, piece by piece. *)
Fixpoint pieces (src : list ascii) (last : nat) (es : list editState)
  : list ascii :=
  match es with
  | [] => drop last src
  | e :: es => slice src last (e_start e) ++ e_repl e ++ pieces src (e_end e) es
  end.

(** A list of names without its repetitions: each name stays at the
    place of its first occurrence. *)
Fixpoint dedupFirst (names : list (list ascii)) : list (list ascii) :=
  match names with
  | [] => []
  | x :: names => x :: filter (fun y => y <> x) (dedupFirst names)
  end.

(** Occurrences that follow one another in the text from offset [last]
    on: each starts at or after the end of the one before. *)
Fixpoint inOrder (last : nat) (ts : list QueryToken) : Prop :=
  match ts with
  | [] => True
  | t :: ts => last <= Start t /\ inOrder (End_ t) ts
  end.

Definition layoutInv (formatFunc : FormatParamFunc) (s : parseState) : Prop :=
  tokInv formatFunc s
  /\ inOrder 0 (st_tokens s)
  /\ Forall (fun t =>
               isValidIdentifierStart (byteAt (st_src s) (Start t + 1)) = true)
       (st_tokens s).

(** The text the rewriter is to produce from the occurrences: from
    offset [last], the text up to the next occurrence, the rendering of
    its index, and so on, then the rest of the text. *)
Fixpoint rewritten (formatFunc : FormatParamFunc) (src : list ascii)
    (last : nat) (occs : list QueryToken) : list ascii :=
  match occs with
  | [] => drop last src
  | t :: occs =>
      slice src last (Start t) ++ formatFunc (Index t)
      ++ rewritten formatFunc src (End_ t) occs
  end.

(** Two states that agree on everything but the edits. *)
Definition sameScan (s s' : parseState) : Prop :=
  st_src s = st_src s' /\ st_n s = st_n s' /\ st_i s = st_i s'
  /\ st_order s = st_order s' /\ st_indexOf s = st_indexOf s'
  /\ st_tokens s = st_tokens s'.

(** Entered at offset [i], a skipper leaves at [j] just past the first
    byte [close] after [i], or at the end of the text when there is
    none. *)
Definition skipsToClosing (src : list ascii) (close : ascii) (i j : nat)
  : Prop :=
  (forall k, i < k -> k + 1 < j -> byteAt src k <> close)
  /\ ((i + 1 < j <= length src /\ byteAt src (j - 1) = close)
      \/ (j = length src
          /\ forall k, i < k < length src -> byteAt src k <> close)).

(** From offset [a], a line comment skipper leaves at [j], the offset
    of the first newline from [a] on, or the end of the text. *)
Definition skipsToNewline (src : list ascii) (a j : nat) : Prop :=
  a <= j <= length src
  /\ (forall k, a <= k < j -> byteAt src k <> "010")
  /\ (j = length src \/ byteAt src j = "010").

(** The two bytes at offset [k] are the end of a block comment. *)
Definition closesComment (src : list ascii) (k : nat) : Prop :=
  byteAt src k = "*" /\ byteAt src (k + 1) = "/".

(** After the [q] at offset [i] comes a quote, or a space and then
    white space up to a quote; [w] is the offset of that quote. *)
Definition quoteAfterSpaces (src : list ascii) (i w : nat) : Prop :=
  (byteAt src (i + 1) = "'" \/ byteAt src (i + 1) = " ")
  /\ i + 1 <= w < length src
  /\ (forall k, i + 1 <= k < w -> unicode.IsSpace (rune (byteAt src k)) = true)
  /\ byteAt src w = "'".

(** The two bytes at offset [k] close the Oracle quote whose opening
    delimiter is at offset [d]. *)
Definition closesOracle (src : list ascii) (d k : nat) : Prop :=
  byteAt src k = closingDelimiter (byteAt src d)
  /\ byteAt src (k + 1) = "'".

(** A byte of a dollar-quote tag: underscore, letter or digit. *)
Definition isTagByte (c : ascii) : bool :=
  Ascii.eqb c "_"
  || unicode.IsLetter wideLetter (rune c)
  || unicode.IsDigit wideDigit (rune c).

(** The string [sub] occurs in [src] at offset [q]. *)
Definition occursAt (src : list ascii) (q : nat) (sub : list ascii) : Prop :=
  take (length sub) (drop q src) = sub.

(** ** The grammar of names

    A name is an identifier followed by any number of [.identifier] and
    [[digits]] segments; identifiers are made of ASCII letters, digits
    and underscores and do not begin with a digit. *)
Definition digitByte (c : ascii) : bool := ble "0" c && ble c "9".

Definition identByte (c : ascii) : bool :=
  isValidIdentifierStart c || digitByte c.

Inductive SelectorTail : list ascii -> Prop :=
| tail_end : SelectorTail []
| tail_dot (c : ascii) (l t : list ascii) :
    isValidIdentifierStart c = true ->
    Forall (fun b => identByte b = true) l ->
    SelectorTail t ->
    SelectorTail ("." :: c :: l ++ t)
| tail_index (d t : list ascii) :
    d <> [] ->
    Forall (fun b => digitByte b = true) d ->
    SelectorTail t ->
    SelectorTail ("[" :: d ++ "]" :: t).

Definition Selector (s : list ascii) : Prop :=
  exists c l t,
    s = c :: l ++ t
    /\ isValidIdentifierStart c = true
    /\ Forall (fun b => identByte b = true) l
    /\ SelectorTail t.

Definition asciiOnly (s : list ascii) : Prop :=
  Forall (fun c => (N_of_ascii c <? 128)%N = true) s.

(** The length of the longest prefix of identifier bytes, of digits. *)
Fixpoint identRun (rest : list ascii) : nat :=
  match rest with
  | c :: rest => if identByte c then S (identRun rest) else 0
  | [] => 0
  end.

Fixpoint digitRun (rest : list ascii) : nat :=
  match rest with
  | c :: rest => if digitByte c then S (digitRun rest) else 0
  | [] => 0
  end.

(** ** Parameters and their names ([identifiers.go]) *)

(** [strings.Contains(s, substr)]. *)
Definition stringsContains (s substr : list ascii) : bool :=
  match stringsIndex s substr with
  | Some _ => true
  | None => false
  end.

Definition IsIdentifier (p : Param) : bool :=
  negb (stringsContains (p_Name p) (bytes ".")).

Definition NewParameters (names : list (list ascii)) : list Param :=
  imap (fun i name => NewParameter name (i + 1)) names.

(** [Parameters.Identifiers()]: [ids] starts as [len(ps)] empty
    strings, and the loop assigns [ids[i]] for the parameters that are
    identifiers. *)
Fixpoint identifiersLoop (i : nat) (ps : list Param)
    (ids : list (list ascii)) : list (list ascii) :=
  match ps with
  | [] => ids
  | p :: ps =>
      if negb (IsIdentifier p) then identifiersLoop (S i) ps ids
      else identifiersLoop (S i) ps (<[i := p_Name p]> ids)
  end.

Definition Identifiers (ps : list Param) : list (list ascii) :=
  identifiersLoop 0 ps (replicate (length ps) []).

(** [Parameters.DottedSelectors()]: [selectors] starts with length 0
    (and capacity [len(ps)]), and the loop assigns [selectors[i]]; an
    index that is not below the length panics, which is [None]. *)
Fixpoint dottedSelectorsLoop (i : nat) (ps : list Param)
    (selectors : list (list ascii)) : option (list (list ascii)) :=
  match ps with
  | [] => Some selectors
  | p :: ps =>
      if IsIdentifier p then dottedSelectorsLoop (S i) ps selectors
      else if i <? length selectors
           then dottedSelectorsLoop (S i) ps (<[i := p_Name p]> selectors)
           else None
  end.

Definition DottedSelectors (ps : list Param) : option (list (list ascii)) :=
  dottedSelectorsLoop 0 ps [].

(** The other copy of the file builds both slices with [append]. *)
Fixpoint identifiersAppendLoop (ps : list Param) (ids : list (list ascii))
  : list (list ascii) :=
  match ps with
  | [] => ids
  | p :: ps =>
      if negb (IsIdentifier p) then identifiersAppendLoop ps ids
      else identifiersAppendLoop ps (ids ++ [p_Name p])
  end.

Definition Identifiers_append (ps : list Param) : list (list ascii) :=
  identifiersAppendLoop ps [].

Fixpoint dottedSelectorsAppendLoop (ps : list Param)
    (selectors : list (list ascii)) : list (list ascii) :=
  match ps with
  | [] => selectors
  | p :: ps =>
      if IsIdentifier p then dottedSelectorsAppendLoop ps selectors
      else dottedSelectorsAppendLoop ps (selectors ++ [p_Name p])
  end.

Definition DottedSelectors_append (ps : list Param) : list (list ascii) :=
  dottedSelectorsAppendLoop ps [].

(** ** Cardinalities, row types and data types

    The three parsers lower-case their argument with [strings.ToLower].
    On a string of ASCII bytes Go maps [A-Z] to [a-z] byte by byte; on
    any other string it maps the runes through its Unicode tables, and
    that part is the parameter [wideToLower].  [NewErr] and
    [CombineErrs] belong to another package: an error made by [NewErr]
    is the sentinel with its arguments, and [CombineErrs] is a
    parameter. *)
Definition lowerByte (c : ascii) : ascii :=
  if ble "A" c && ble c "Z" then ascii_of_N (N_of_ascii c + 32) else c.

Definition isASCII (s : list ascii) : bool :=
  forallb (fun c => (N_of_ascii c <? 128)%N) s.

Inductive typeError :=
| ErrInvalidCardinalityType (cardinality : list ascii)
| ErrInvalidRowType (row_type : list ascii)
| ErrInvalidDataType (data_type : list ascii)
| ErrInvalidResultsColumnDataType (cause : typeError).

Section TypeNames.

Variable wideToLower : list ascii -> list ascii.
Variable CombineErrs : list typeError -> option typeError.

Definition stringsToLower (s : list ascii) : list ascii :=
  if isASCII s then map lowerByte s else wideToLower s.

Definition OneRow : list ascii := bytes "one".
Definition ManyRows : list ascii := bytes "many".
Definition OneRowOrNone : list ascii := bytes "one?".
Definition ManyRowsOrNone : list ascii := bytes "many?".
Definition DefaultCardinality : list ascii := ManyRowsOrNone.

(** [c[len(c)-1] == '?']; the index panics on the empty string, which
    is [None]. *)
Definition EmptyOk (c : list ascii) : option bool :=
  if length c =? 0 then None
  else Some (Ascii.eqb (byteAt c (length c - 1)) "?").

Definition ParseCardinality (s : list ascii)
  : list ascii * option typeError :=
  if bool_decide (s = []) then (DefaultCardinality, None)
  else
    let re := stringsToLower s in
    if bool_decide (re = ManyRows) || bool_decide (re = OneRow)
       || bool_decide (re = ManyRowsOrNone) || bool_decide (re = OneRowOrNone)
    then (re, None)
    else ([], Some (ErrInvalidCardinalityType s)).

Definition AnyDBDataType : list ascii := bytes "any".
Definition IntegerDBDataType : list ascii := bytes "integer".
Definition IntDBDataType : list ascii := bytes "int".
Definition RealDBDataType : list ascii := bytes "real".
Definition StringDBDataType : list ascii := bytes "string".
Definition JSONDBDataType : list ascii := bytes "json".
Definition IntegerDBDataTypeOrNULL : list ascii := bytes "integer?".
Definition IntDBDataTypeOrNULL : list ascii := bytes "int?".
Definition RealDBDataTypeOrNULL : list ascii := bytes "real?".
Definition StringDBDataTypeOrNULL : list ascii := bytes "string?".
Definition JSONDBDataTypeOrNULL : list ascii := bytes "json?".
Definition DefaultDBDataType : list ascii := StringDBDataType.

(** [DBDataType.Normalize()]. *)
Definition DBDataType_Normalize (dt : list ascii) : list ascii :=
  if bool_decide (dt = IntDBDataType) then IntegerDBDataType
  else if bool_decide (dt = IntDBDataTypeOrNULL) then IntegerDBDataTypeOrNULL
  else dt.

Definition AnyRowType : list ascii := bytes "any".
Definition IntegerRowType : list ascii := bytes "integer".
Definition IntRowType : list ascii := bytes "int".
Definition RealRowType : list ascii := bytes "real".
Definition StringRowType : list ascii := bytes "string".
Definition ColumnsRowType : list ascii := bytes "columns".
Definition JSONRowType : list ascii := bytes "json".
Definition IntegerRowTypeOrNULL : list ascii := bytes "integer?".
Definition IntRowTypeOrNULL : list ascii := bytes "int?".
Definition RealRowTypeOrNULL : list ascii := bytes "real?".
Definition StringRowTypeOrNULL : list ascii := bytes "string?".
Definition JSONRowTypeOrNULL : list ascii := bytes "json?".
Definition DefaultRowType : list ascii := ColumnsRowType.

(** [DBRowType.Normalize()]. *)
Definition DBRowType_Normalize (rt : list ascii) : list ascii :=
  if bool_decide (rt = IntRowType) then IntegerRowType
  else if bool_decide (rt = IntRowTypeOrNULL) then IntegerRowTypeOrNULL
  else rt.

Definition ParseDBRowType (s : list ascii) : list ascii * option typeError :=
  if bool_decide (s = []) then (DefaultRowType, None)
  else
    let rt := DBRowType_Normalize (stringsToLower s) in
    if bool_decide (rt = AnyRowType) || bool_decide (rt = IntegerRowType)
       || bool_decide (rt = RealRowType) || bool_decide (rt = StringRowType)
       || bool_decide (rt = ColumnsRowType) || bool_decide (rt = JSONRowType)
       || bool_decide (rt = IntegerRowTypeOrNULL)
       || bool_decide (rt = RealRowTypeOrNULL)
       || bool_decide (rt = StringRowTypeOrNULL)
       || bool_decide (rt = JSONRowTypeOrNULL)
    then (rt, None)
    else ([], Some (ErrInvalidRowType s)).

Definition ParseDBDataType (s : list ascii) : list ascii * option typeError :=
  if bool_decide (s = []) then (DefaultDBDataType, None)
  else
    let dt := DBDataType_Normalize (stringsToLower s) in
    if bool_decide (dt = AnyDBDataType) || bool_decide (dt = IntegerDBDataType)
       || bool_decide (dt = RealDBDataType)
       || bool_decide (dt = StringDBDataType)
       || bool_decide (dt = JSONDBDataType)
       || bool_decide (dt = IntegerDBDataTypeOrNULL)
       || bool_decide (dt = RealDBDataTypeOrNULL)
       || bool_decide (dt = StringDBDataTypeOrNULL)
       || bool_decide (dt = JSONDBDataTypeOrNULL)
    then (dt, None)
    else ([], Some (ErrInvalidDataType s)).

(** The loop of [ParseColumnTypes]: [cts] starts as [len(ss)] empty
    strings and [errs] empty. *)
Fixpoint columnTypesLoop (i : nat) (ss : list (list ascii))
    (cts : list (list ascii)) (errs : list typeError)
  : list (list ascii) * list typeError :=
  match ss with
  | [] => (cts, errs)
  | s :: ss =>
      match ParseDBDataType s with
      | (_, Some err) => columnTypesLoop (S i) ss cts (errs ++ [err])
      | (value, None) => columnTypesLoop (S i) ss (<[i := value]> cts) errs
      end
  end.

(** A nil slice is the empty list. *)
Definition ParseColumnTypes (ss : list (list ascii))
  : list (list ascii) * option typeError :=
  if length ss =? 0 then ([], None)
  else
    let '(cts, errs) := columnTypesLoop 0 ss (replicate (length ss) []) [] in
    match CombineErrs errs with
    | Some err => (cts, Some (ErrInvalidResultsColumnDataType err))
    | None => (cts, None)
    end.

End TypeNames.

(** ** Spans

    Where the span that opens at offset [a] of the text ends, for each
    kind of span; [b] is the offset of the first byte after it.

    A single-quoted literal runs from its opening quote to the first
    quote after it that is not the first of a doubled quote, a doubled
    quote being an escaped quote inside the literal, and to the end of
    the text when there is no such quote. *)
Fixpoint literalLoop (rest : list ascii) (i : nat) : nat :=
  match rest with
  | [] => i
  | c :: rest' =>
      if Ascii.eqb c "'" then
        match rest' with
        | c' :: rest'' =>
            if Ascii.eqb c' "'" then literalLoop rest'' (S (S i)) else S i
        | [] => S i
        end
      else literalLoop rest' (S i)
  end.

Definition literalEnd (src : list ascii) (a : nat) : nat :=
  literalLoop (drop (S a) src) (S a).

(** A block comment runs from its [/*] through the first [*/] that
    begins at least two bytes further on, and to the end of the text
    when there is none. *)
Definition blockCommentEnds (src : list ascii) (a j : nat) : Prop :=
  (a + 4 <= j <= length src
   /\ closesComment src (j - 2)
   /\ forall k, a + 2 <= k -> k + 2 < j -> ~ closesComment src k)
  \/ (j = length src
      /\ forall k, a + 2 <= k -> k + 1 < length src ->
                   ~ closesComment src k).

(** An Oracle quote: the [q] alone when no quote follows it (directly,
    or after a space and white space); otherwise through the first
    closing delimiter followed by a quote, and to the end of the text
    when there is none. *)
Definition oracleQuoteEnds (src : list ascii) (a j : nat) : Prop :=
  ((forall w, ~ quoteAfterSpaces src a w) /\ j = a + 1)
  \/ exists w,
       quoteAfterSpaces src a w
       /\ ((exists p, w + 1 < p /\ p + 1 < length src
                      /\ closesOracle src (w + 1) p
                      /\ (forall k, w + 1 < k < p ->
                                    ~ closesOracle src (w + 1) k)
                      /\ j = p + 2)
           \/ ((forall k, w + 1 < k -> k + 1 < length src ->
                          ~ closesOracle src (w + 1) k)
               /\ j = length src)).

(** A dollar quote: tag bytes from the [$] up to an offset [e]; the
    [$] alone when another byte than a [$] ends the tag, the rest of the
    text when the text ends there, and otherwise through the first later
    occurrence of the whole tag, or to the end of the text when the tag
    does not occur again. *)
Definition dollarQuoteEnds (src : list ascii) (a j : nat) : Prop :=
  exists e,
    a + 1 <= e <= length src
    /\ (forall k, a + 1 <= k < e ->
          isTagByte (byteAt src k) = true /\ byteAt src k <> "$"%char)
    /\ ((e = length src /\ j = length src)
        \/ (e < length src /\ byteAt src e <> "$"%char
            /\ isTagByte (byteAt src e) = false /\ j = a + 1)
        \/ (e < length src /\ byteAt src e = "$"%char
            /\ let tag := slice src a (e + 1) in
               (exists q, e + 1 <= q /\ occursAt src q tag
                          /\ (forall q', e + 1 <= q' < q ->
                                         ~ occursAt src q' tag)
                          /\ j = q + length tag /\ j <= length src)
               \/ ((forall q, e + 1 <= q -> ~ occursAt src q tag)
                   /\ j = length src))).

(** The span that the dispatcher opens at offset [a] in the branch
    [kind] ends at [b].  The two colons of a cast and a byte that opens
    nothing count as spans of two bytes and of one byte. *)
Definition spanEnds (src : list ascii) (kind : branch) (a b : nat) : Prop :=
  match kind with
  | SingleQuoted => b = literalEnd src a
  | DoubleQuoted => skipsToClosing src "034" a b
  | Backtick => skipsToClosing src "`" a b
  | BracketIdent => skipsToClosing src "]" a b
  | HashComment => skipsToNewline src (a + 1) b
  | DashDash => skipsToNewline src (a + 2) b
  | BlockComment => blockCommentEnds src a b
  | DollarQuoted => dollarQuoteEnds src a b
  | OracleQ => oracleQuoteEnds src a b
  | Cast =>
      byteAt src a = ":"%char /\ byteAt src (a + 1) = ":"%char /\ b = a + 2
  | Placeholder => False
  | Advance => b = a + 1
  end.

(** * Properties *)

(** ** Bytes *)

Lemma eqb_true (a b : ascii) : Ascii.eqb a b = true -> a = b.
Proof. apply Ascii.eqb_eq. Qed.

Lemma eqb_false (a b : ascii) : Ascii.eqb a b = false -> a <> b.
Proof. apply Ascii.eqb_neq. Qed.

Lemma byteAt_drop (src : list ascii) (k : nat) (c : ascii) (rest : list ascii) :
  drop k src = c :: rest -> byteAt src k = c /\ drop (S k) src = rest.
Proof.
  intros H. split.
  - unfold byteAt. rewrite <- (Nat.add_0_r k), <- lookup_drop, H. reflexivity.
  - replace (S k) with (k + 1) by lia. rewrite <- drop_drop, H. reflexivity.
Qed.

Lemma drop_nonempty (src : list ascii) (k : nat) :
  k < length src -> exists c rest, drop k src = c :: rest.
Proof.
  intros H. destruct (drop k src) as [|c rest] eqn:E.
  - apply (f_equal length) in E. rewrite length_drop in E. simpl in E. lia.
  - eauto.
Qed.

Lemma peek_in_range (s : parseState) (k : nat) (c : ascii) :
  c <> "000" -> peek s k = c -> st_i s + k < st_n s.
Proof.
  unfold peek. intros Hc H.
  destruct (st_i s + k <? st_n s) eqn:E.
  - apply Nat.ltb_lt in E. exact E.
  - congruence.
Qed.

(** ** Progress of the loops of the skippers

    Each loop returns a cursor between the one it was entered with and
    the end of the bytes it was given. *)

Lemma singleQuotedLoop_bounds (n : nat) (rest : list ascii) (i : nat) :
  i + length rest <= n ->
  i <= singleQuotedLoop n rest i <= i + length rest.
Proof.
  revert i. induction rest as [|c rest IH]; intros i H;
    cbn [singleQuotedLoop length] in *.
  - lia.
  - destruct (Ascii.eqb c "'").
    + destruct (Nat.leb_spec (S i) n); lia.
    + specialize (IH (S i)). lia.
Qed.

Lemma closingLoop_bounds (close : ascii) (rest : list ascii) (i : nat) :
  i <= closingLoop close rest i <= i + length rest.
Proof.
  revert i. induction rest as [|c rest IH]; intros i; simpl.
  - lia.
  - destruct (Ascii.eqb c close); [lia | specialize (IH (S i)); lia].
Qed.

Lemma lineLoop_bounds (rest : list ascii) (i : nat) :
  i <= lineLoop rest i <= i + length rest.
Proof.
  revert i. induction rest as [|c rest IH]; intros i; simpl.
  - lia.
  - destruct (Ascii.eqb c "010"); simpl; [lia | specialize (IH (S i)); lia].
Qed.

Lemma blockLoop1_bounds (rest : list ascii) (i : nat) :
  i <= fst (blockLoop1 rest i) <= i + length rest.
Proof.
  revert i. induction rest as [|c rest IH]; intros i; simpl.
  - lia.
  - destruct rest as [|c' rest']; [simpl; lia|].
    specialize (IH (S i)).
    destruct (Ascii.eqb c "*"); simpl negb; cbv iota.
    + destruct (Ascii.eqb c' "/"); simpl negb; cbv iota;
        [simpl; lia | simpl length in *; lia].
    + simpl length in *; lia.
Qed.

Lemma blockLoop2_bounds (rest : list ascii) (i : nat) :
  i <= fst (blockLoop2 rest i) <= i + length rest.
Proof.
  revert i. induction rest as [|c rest IH]; intros i; simpl.
  - lia.
  - destruct rest as [|c' rest']; [simpl; lia|].
    specialize (IH (S i)).
    destruct (Ascii.eqb c "*" && Ascii.eqb c' "/");
      [simpl; lia | simpl length in *; lia].
Qed.

Lemma dollarTagLoop_bounds (rest : list ascii) (i j : nat) :
  dollarTagLoop rest i = Some j -> i <= j <= i + length rest.
Proof.
  revert i. induction rest as [|c rest IH]; intros i; simpl.
  - intros [= <-]. lia.
  - destruct (Ascii.eqb c "$"); [intros [= <-]; lia|].
    destruct (negb (Ascii.eqb c "_") && _ && _); [discriminate|].
    intros H. apply IH in H. lia.
Qed.

Lemma hasPrefix_length (s sub : list ascii) :
  hasPrefix s sub = true -> length sub <= length s.
Proof.
  revert s. induction sub as [|c sub IH]; intros s; simpl.
  - lia.
  - destruct s as [|d s]; [discriminate|].
    intros H. apply andb_prop in H as [_ H]. apply IH in H. simpl. lia.
Qed.

Lemma stringsIndex_bounds (s sub : list ascii) (idx : nat) :
  stringsIndex s sub = Some idx -> idx + length sub <= length s.
Proof.
  revert idx. induction s as [|d s IH]; intros idx; cbn [stringsIndex].
  - destruct (hasPrefix [] sub) eqn:E; [|discriminate].
    intros [= <-]. apply hasPrefix_length in E. simpl in *. lia.
  - destruct (hasPrefix (d :: s) sub) eqn:E.
    + intros [= <-]. apply hasPrefix_length in E. simpl in *. lia.
    + destruct (stringsIndex s sub) as [k|]; [|discriminate].
      simpl. intros [= <-]. specialize (IH k eq_refl). simpl. lia.
Qed.

Lemma spaceLoop_bounds (rest : list ascii) (i : nat) :
  i <= spaceLoop rest i <= i + length rest.
Proof.
  revert i. induction rest as [|c rest IH]; intros i; simpl.
  - lia.
  - destruct (unicode.IsSpace (rune c)); [specialize (IH (S i)); lia | lia].
Qed.

Lemma oracleLoop_bounds (cl : ascii) (rest : list ascii) (i j : nat) :
  oracleLoop cl rest i = Some j -> i < j <= i + length rest.
Proof.
  revert i. induction rest as [|c rest IH]; intros i; simpl.
  - discriminate.
  - destruct (Ascii.eqb c cl).
    + destruct rest as [|c' rest']; [discriminate|].
      destruct (Ascii.eqb c' "'"); simpl negb; cbv iota.
      * intros [= <-]. simpl. lia.
      * intros H. apply IH in H. simpl length in *. lia.
    + intros H. apply IH in H. lia.
Qed.

Lemma identLoop_bounds (rest : list ascii) (j : nat) :
  j <= identLoop rest j <= j + length rest.
Proof.
  revert j. induction rest as [|c rest IH]; intros j; simpl.
  - lia.
  - destruct (isValidIdentifierChar c); [specialize (IH (S j)); lia | lia].
Qed.

(** ** Progress of the skippers *)

Ltac start_skipper :=
  intros [Hn Hi] Hlt; unfold advances; eexists; split; [reflexivity|].

Lemma consumeSingleQuoted_advances (s : parseState) :
  wf s -> st_i s < st_n s -> advances s (consumeSingleQuoted s).
Proof.
  start_skipper.
  pose proof (singleQuotedLoop_bounds (st_n s)
                (drop (S (st_i s)) (st_src s)) (S (st_i s))) as H.
  rewrite length_drop in H. lia.
Qed.

Lemma closing_advances (close : ascii) (s : parseState) :
  wf s -> st_i s < st_n s ->
  advances s (set_i s (closingLoop close (drop (S (st_i s)) (st_src s))
                         (S (st_i s)))).
Proof.
  start_skipper.
  pose proof (closingLoop_bounds close
                (drop (S (st_i s)) (st_src s)) (S (st_i s))) as H.
  rewrite length_drop in H. lia.
Qed.

Lemma consumeHashComment_advances (s : parseState) :
  wf s -> st_i s < st_n s -> advances s (consumeHashComment s).
Proof.
  start_skipper.
  pose proof (lineLoop_bounds (drop (S (st_i s)) (st_src s)) (S (st_i s))) as H.
  rewrite length_drop in H. lia.
Qed.

(** [state.i += 2; state.consumeDashDash()], entered with a second [-]
    in range. *)
Lemma consumeDashDash_advances (s : parseState) :
  wf s -> st_i s + 1 < st_n s ->
  advances s (consumeDashDash (set_i s (st_i s + 2))).
Proof.
  start_skipper. simpl.
  pose proof (lineLoop_bounds (drop (st_i s + 2) (st_src s)) (st_i s + 2)) as H.
  rewrite length_drop in H. lia.
Qed.

Lemma consumeBlockComment_advances (s : parseState) :
  wf s -> st_i s + 1 < st_n s -> advances s (consumeBlockComment s).
Proof.
  intros [Hn Hi] Hlt. unfold advances, consumeBlockComment.
  pose proof (blockLoop1_bounds (drop (st_i s + 2) (st_src s)) (st_i s + 2)) as H1.
  rewrite length_drop in H1.
  destruct (blockLoop1 _ _) as [i1 [|]]; simpl in H1.
  - eexists; split; [reflexivity | lia].
  - pose proof (blockLoop2_bounds (drop i1 (st_src s)) i1) as H2.
    rewrite length_drop in H2.
    destruct (blockLoop2 _ _) as [i2 [|]]; simpl in H2;
      eexists; (split; [reflexivity | lia]).
Qed.

Lemma consumeDollarQuoted_advances (s : parseState) :
  wf s -> st_i s < st_n s -> advances s (consumeDollarQuoted s).
Proof.
  intros [Hn Hi] Hlt. unfold advances, consumeDollarQuoted.
  destruct (dollarTagLoop _ _) as [j|] eqn:E.
  - apply dollarTagLoop_bounds in E. rewrite length_drop in E.
    destruct (Nat.ltb_spec (st_n s) j).
    + eexists; split; [reflexivity | lia].
    + destruct (stringsIndex _ _) as [idx|] eqn:E2.
      * apply stringsIndex_bounds in E2. rewrite length_drop in E2.
        eexists; split; [reflexivity | lia].
      * eexists; split; [reflexivity | lia].
  - eexists; split; [reflexivity | lia].
Qed.

(** The case behind the historical hangs: a [q] that opens no quote
    still moves the cursor past the [q]. *)
Lemma consumeOracleQ_advances (s : parseState) :
  wf s -> st_i s < st_n s -> advances s (consumeOracleQ s).
Proof.
  intros [Hn Hi] Hlt. unfold advances, consumeOracleQ.
  destruct (Nat.leb_spec (st_n s) (st_i s + 1));
    [eexists; split; [reflexivity | lia]|].
  destruct (negb _ && negb _); [eexists; split; [reflexivity | lia]|].
  pose proof (spaceLoop_bounds (drop (st_i s + 1) (st_src s)) (st_i s + 1)) as H1.
  rewrite length_drop in H1.
  set (i1 := spaceLoop _ _) in *.
  destruct (Nat.leb_spec (st_n s) i1); simpl orb; cbv iota;
    [eexists; split; [reflexivity | lia]|].
  destruct (negb _); [eexists; split; [reflexivity | lia]|].
  destruct (Nat.leb_spec (st_n s) (i1 + 1));
    [eexists; split; [reflexivity | lia]|].
  destruct (oracleLoop _ _ _) as [j|] eqn:E.
  - apply oracleLoop_bounds in E. rewrite length_drop in E.
    eexists; split; [reflexivity | lia].
  - eexists; split; [reflexivity | lia].
Qed.

(** ** The dispatcher *)

Ltac classify_cases :=
  unfold classify;
  repeat match goal with
         | |- context [if ?b then _ else _] => destruct b eqn:?
         end;
  try discriminate.

Lemma classify_DashDash (s : parseState) :
  classify s = DashDash -> st_i s + 1 < st_n s.
Proof.
  classify_cases. intros _.
  eapply peek_in_range; [|apply eqb_true; eassumption]. discriminate.
Qed.

Lemma classify_BlockComment (s : parseState) :
  classify s = BlockComment -> st_i s + 1 < st_n s.
Proof.
  classify_cases. intros _.
  eapply peek_in_range; [|apply eqb_true; eassumption]. discriminate.
Qed.

Lemma classify_Cast (s : parseState) :
  classify s = Cast ->
  byteAt (st_src s) (st_i s) = ":" /\ st_i s + 1 < st_n s
  /\ byteAt (st_src s) (st_i s + 1) = ":".
Proof.
  classify_cases. intros _.
  assert (st_i s + 1 < st_n s) as Hlt
    by (eapply peek_in_range; [|apply eqb_true; eassumption]; discriminate).
  repeat split; [apply eqb_true; assumption | exact Hlt |].
  match goal with H : Ascii.eqb (peek s 1) ":" = true |- _ =>
    apply eqb_true in H; unfold peek in H end.
  apply Nat.ltb_lt in Hlt. rewrite Hlt in *. assumption.
Qed.

Lemma classify_Placeholder (s : parseState) :
  classify s = Placeholder ->
  byteAt (st_src s) (st_i s) = ":" /\ st_i s + 1 < st_n s
  /\ isValidIdentifierStart (byteAt (st_src s) (st_i s + 1)) = true.
Proof.
  classify_cases. intros _.
  match goal with H : (_ <? _) && _ = true |- _ =>
    apply andb_prop in H as [H1 H2] end.
  apply Nat.ltb_lt in H1.
  repeat split; [apply eqb_true; assumption | assumption | assumption].
Qed.

Lemma consumePlaceholder_result (formatFunc : FormatParamFunc)
    (s : parseState) :
  classify s = Placeholder ->
  consumePlaceholder formatFunc s =
    if isValidName (rawNameAt s)
    then (recognized formatFunc s, None)
    else (set_i s (st_i s + 1),
          Some (ErrInvalidPlaceholderName (rawNameAt s) (st_i s))).
Proof.
  intros H. apply classify_Placeholder in H as (_ & Hlt & Hstart).
  unfold consumePlaceholder, recognized. cbn [st_i st_n st_src set_i].
  destruct (Nat.leb_spec (st_n s) (st_i s + 1)); [lia|].
  rewrite Hstart. cbn [negb orb].
  fold (nameEnd s). fold (rawNameAt s).
  destruct (isValidName (rawNameAt s)); cbn [negb]; [|reflexivity].
  destruct (getIndex _ _) as [idx s1]. reflexivity.
Qed.

Lemma getIndex_fields (s : parseState) (name : list ascii) :
  let s1 := snd (getIndex s name) in
  st_src s1 = st_src s /\ st_n s1 = st_n s /\ st_i s1 = st_i s
  /\ st_edits s1 = st_edits s /\ st_tokens s1 = st_tokens s.
Proof.
  unfold getIndex. destruct (st_indexOf s !! name); simpl; auto.
Qed.

Lemma nameEnd_bounds (s : parseState) :
  wf s -> st_i s < st_n s -> st_i s + 1 <= nameEnd s <= st_n s.
Proof.
  intros [Hn Hi] Hlt. unfold nameEnd.
  pose proof (identLoop_bounds (drop (st_i s + 1) (st_src s)) (st_i s + 1)) as H.
  rewrite length_drop in H. lia.
Qed.

Lemma recognized_fields (formatFunc : FormatParamFunc) (s : parseState) :
  st_src (recognized formatFunc s) = st_src s
  /\ st_n (recognized formatFunc s) = st_n s
  /\ st_i (recognized formatFunc s) = nameEnd s.
Proof.
  unfold recognized.
  pose proof (getIndex_fields (set_i s (st_i s + 1)) (rawNameAt s)) as H.
  destruct (getIndex _ _) as [idx s1]. simpl in *. tauto.
Qed.

Lemma branch_eq_dec (a b : branch) : {a = b} + {a <> b}.
Proof. decide equality. Qed.

(** Every branch of the dispatcher but the recognizer only moves the
    cursor, and moves it forward. *)
Lemma dispatch_skip (formatFunc : FormatParamFunc) (s : parseState) :
  wf s -> st_i s < st_n s -> classify s <> Placeholder ->
  exists s', dispatch formatFunc s = (s', None) /\ advances s s'.
Proof.
  intros Hwf Hlt Hc. unfold dispatch.
  destruct (classify s) eqn:E; try congruence;
    eexists; (split; [reflexivity|]).
  - apply consumeDashDash_advances; auto using classify_DashDash.
  - apply consumeHashComment_advances; auto.
  - apply consumeBlockComment_advances; auto using classify_BlockComment.
  - apply consumeSingleQuoted_advances; auto.
  - apply closing_advances; auto.
  - apply closing_advances; auto.
  - apply closing_advances; auto.
  - apply consumeDollarQuoted_advances; auto.
  - apply consumeOracleQ_advances; auto.
  - apply classify_Cast in E as (_ & E & _). destruct Hwf.
    eexists; split; [reflexivity | lia].
  - destruct Hwf. eexists; split; [reflexivity | lia].
Qed.

Lemma dispatch_Placeholder (formatFunc : FormatParamFunc) (s : parseState) :
  classify s = Placeholder ->
  dispatch formatFunc s =
    if isValidName (rawNameAt s)
    then (recognized formatFunc s, None)
    else (set_i s (st_i s + 1),
          Some (ErrInvalidPlaceholderName (rawNameAt s) (st_i s))).
Proof.
  intros H. unfold dispatch. rewrite H.
  apply consumePlaceholder_result, H.
Qed.

(** The progress guarantee: whatever the branch and whatever the
    outcome, the cursor is strictly greater after the iteration, and
    the state is again a state of the scan of the same text. *)
Lemma dispatch_progress (formatFunc : FormatParamFunc) (s : parseState) :
  wf s -> st_i s < st_n s ->
  let s' := fst (dispatch formatFunc s) in
  st_i s < st_i s' <= st_n s
  /\ st_src s' = st_src s /\ st_n s' = st_n s.
Proof.
  intros Hwf Hlt. cbv zeta.
  destruct (branch_eq_dec (classify s) Placeholder) as [E|E].
  - rewrite (dispatch_Placeholder _ _ E).
    destruct (isValidName _); cbn [fst].
    + pose proof (recognized_fields formatFunc s) as (-> & -> & ->).
      pose proof (nameEnd_bounds s Hwf Hlt). repeat split; auto; lia.
    + apply classify_Placeholder in E as (_ & E & _). simpl.
      repeat split; auto; lia.
  - destruct (dispatch_skip formatFunc s Hwf Hlt E) as (s' & -> & j & -> & Hj).
    simpl. repeat split; auto; lia.
Qed.

(** ** The scan loop *)

Lemma wf_newParseState (sqlText : list ascii) : wf (newParseState sqlText).
Proof. split; simpl; lia. Qed.

Lemma dispatch_wf (formatFunc : FormatParamFunc) (s : parseState) :
  wf s -> st_i s < st_n s -> wf (fst (dispatch formatFunc s)).
Proof.
  intros Hwf Hlt.
  destruct (dispatch_progress formatFunc s Hwf Hlt) as (Hi & Hs & Hn).
  destruct Hwf as [Hn0 Hi0]. split; [congruence | lia].
Qed.

(** Enough iterations always end the loop. *)
Lemma scanLoop_total (formatFunc : FormatParamFunc) (fuel : nat)
    (s : parseState) :
  wf s -> st_n s - st_i s < fuel ->
  exists r, scanLoop formatFunc fuel s = Some r.
Proof.
  revert s. induction fuel as [|fuel IH]; intros s Hwf Hfuel; [lia|].
  cbn [scanLoop].
  destruct (Nat.ltb_spec (st_i s) (st_n s)) as [Hlt|Hge]; [|eauto].
  pose proof (dispatch_progress formatFunc s Hwf Hlt) as (Hi & _ & Hn).
  pose proof (dispatch_wf formatFunc s Hwf Hlt) as Hwf'.
  destruct (dispatch formatFunc s) as [s' [e|]]; [eauto|].
  cbn [fst] in *. apply IH; [assumption | lia].
Qed.

(** More iterations than needed change nothing. *)
Lemma scanLoop_mono (formatFunc : FormatParamFunc) (fuel fuel' : nat)
    (s : parseState) r :
  scanLoop formatFunc fuel s = Some r -> fuel <= fuel' ->
  scanLoop formatFunc fuel' s = Some r.
Proof.
  revert fuel' s. induction fuel as [|fuel IH]; intros fuel' s H Hle;
    [discriminate|].
  destruct fuel' as [|fuel']; [lia|]. cbn [scanLoop] in *.
  destruct (st_i s <? st_n s); [|assumption].
  destruct (dispatch formatFunc s) as [s' [e|]]; [assumption|].
  apply IH; [assumption | lia].
Qed.

Lemma iterFrom_scanLoop (formatFunc : FormatParamFunc) (k m : nat)
    (s s' : parseState) :
  iterFrom formatFunc k s = Some s' ->
  scanLoop formatFunc (k + m) s = scanLoop formatFunc m s'.
Proof.
  revert s. induction k as [|k IH]; intros s; cbn [iterFrom].
  - intros [= ->]. reflexivity.
  - cbn [Nat.add scanLoop].
    destruct (st_i s <? st_n s); [|discriminate].
    destruct (dispatch formatFunc s) as [s1 [e|]]; [discriminate|].
    apply IH.
Qed.

(** [k] iterations move the cursor by at least [k] bytes. *)
Lemma iterFrom_progress (formatFunc : FormatParamFunc) (k : nat)
    (s s' : parseState) :
  wf s -> iterFrom formatFunc k s = Some s' ->
  wf s' /\ st_i s + k <= st_i s' /\ st_src s' = st_src s.
Proof.
  revert s. induction k as [|k IH]; intros s Hwf; cbn [iterFrom].
  - intros [= ->]. split; [assumption | split; [lia | reflexivity]].
  - destruct (Nat.ltb_spec (st_i s) (st_n s)) as [Hlt|]; [|discriminate].
    pose proof (dispatch_progress formatFunc s Hwf Hlt) as (Hi & Hs & Hn).
    pose proof (dispatch_wf formatFunc s Hwf Hlt) as Hwf'.
    destruct (dispatch formatFunc s) as [s1 [e|]]; [discriminate|].
    cbn [fst] in *. intros H. apply IH in H as (? & ? & ?); [|assumption].
    split; [assumption | split; [lia | congruence]].
Qed.

(** A property of the states of a scan that every iteration keeps
    holds throughout the loop and in the state it ends in. *)
Section Invariant.

Variable formatFunc : FormatParamFunc.
Variable P : parseState -> Prop.
Hypothesis P_step : forall s s',
  wf s -> P s -> st_i s < st_n s ->
  dispatch formatFunc s = (s', None) -> P s'.

Lemma iterFrom_invariant (k : nat) (s s' : parseState) :
  wf s -> P s -> iterFrom formatFunc k s = Some s' -> P s'.
Proof.
  revert s. induction k as [|k IH]; intros s Hwf HP; cbn [iterFrom].
  - intros [= ->]. assumption.
  - destruct (Nat.ltb_spec (st_i s) (st_n s)) as [Hlt|]; [|discriminate].
    pose proof (dispatch_wf formatFunc s Hwf Hlt) as Hwf'.
    pose proof (P_step s) as Hstep.
    destruct (dispatch formatFunc s) as [s1 [e|]]; [discriminate|].
    apply IH; [assumption | eapply Hstep; eauto].
Qed.

Lemma scanLoop_invariant (fuel : nat) (s s' : parseState) :
  wf s -> P s -> scanLoop formatFunc fuel s = Some (s', None) -> P s'.
Proof.
  revert s. induction fuel as [|fuel IH]; intros s Hwf HP; cbn [scanLoop];
    [discriminate|].
  destruct (Nat.ltb_spec (st_i s) (st_n s)) as [Hlt|].
  - pose proof (dispatch_wf formatFunc s Hwf Hlt) as Hwf'.
    pose proof (P_step s) as Hstep.
    destruct (dispatch formatFunc s) as [s1 [e|]]; [discriminate|].
    apply IH; [assumption | eapply Hstep; eauto].
  - intros [= ->]. assumption.
Qed.

End Invariant.

(** The loop ends only at the end of the text, on the same text. *)
Lemma scanLoop_end (formatFunc : FormatParamFunc) (fuel : nat)
    (s s' : parseState) :
  wf s -> scanLoop formatFunc fuel s = Some (s', None) ->
  wf s' /\ st_i s' = st_n s' /\ st_src s' = st_src s.
Proof.
  revert s. induction fuel as [|fuel IH]; intros s Hwf; cbn [scanLoop];
    [discriminate|].
  destruct (Nat.ltb_spec (st_i s) (st_n s)) as [Hlt|Hge].
  - pose proof (dispatch_wf formatFunc s Hwf Hlt) as Hwf'.
    pose proof (dispatch_progress formatFunc s Hwf Hlt) as (_ & Hs & _).
    destruct (dispatch formatFunc s) as [s1 [e|]]; [discriminate|].
    cbn [fst] in *. intros H. apply IH in H as (? & ? & ?); [|assumption].
    split; [assumption | split; [assumption | congruence]].
  - intros [= ->]. split; [assumption|]. destruct Hwf. split; [lia | reflexivity].
Qed.

Lemma ParseSQL_total (sqlText : list ascii)
    (formatFunc : option FormatParamFunc) :
  exists r, ParseSQL sqlText formatFunc = Some r.
Proof.
  unfold ParseSQL, ParseSQL_fuel. destruct formatFunc as [f|]; [|eauto].
  destruct (scanLoop_total f (S (length sqlText)) (newParseState sqlText))
    as [[s [e|]] ->]; [apply wf_newParseState | simpl; lia | eauto |].
  destruct (length (st_edits s) =? 0); [|eauto].
  destruct (Parameters (st_tokens s)); eauto.
Qed.

Lemma ParseSQL_fuel_enough (fuel : nat) (sqlText : list ascii)
    (formatFunc : option FormatParamFunc) :
  length sqlText < fuel ->
  ParseSQL_fuel fuel sqlText formatFunc = ParseSQL sqlText formatFunc.
Proof.
  intros Hfuel. unfold ParseSQL, ParseSQL_fuel.
  destruct formatFunc as [f|]; [|reflexivity].
  destruct (scanLoop_total f (S (length sqlText)) (newParseState sqlText))
    as [r Hr]; [apply wf_newParseState | simpl; lia |].
  rewrite Hr. rewrite (scanLoop_mono f _ fuel _ _ Hr); [reflexivity | lia].
Qed.

(** C1.  The parse operation terminates on every input: each branch of
    the dispatcher (the skippers, the cast skip, the recognizer, also
    when it fails, and the default advance) leaves the cursor strictly
    greater than it found it and within the text; so the loop ends
    within [len(sqlText) + 1] iterations, at the end of the text unless
    the recognizer has returned an error before; [ParseSQL] returns on
    every input, and allowing more iterations changes nothing. *)
Theorem C1_progress_and_termination :
  (forall (formatFunc : FormatParamFunc) (b : branch) (s : parseState),
      wf s -> st_i s < st_n s -> classify s = b ->
      st_i s < st_i (fst (dispatch formatFunc s)) <= st_n s)
  /\ (forall (sqlText : list ascii) (formatFunc : FormatParamFunc),
        exists s e,
          scanLoop formatFunc (S (length sqlText)) (newParseState sqlText)
            = Some (s, e)
          /\ (e = None -> st_i s = length sqlText))
  /\ (forall sqlText formatFunc,
        exists r, ParseSQL sqlText formatFunc = Some r)
  /\ (forall fuel sqlText formatFunc,
        length sqlText < fuel ->
        ParseSQL_fuel fuel sqlText formatFunc = ParseSQL sqlText formatFunc).
Proof.
  split; [|split; [|split]].
  - intros f b s Hwf Hlt _. apply (dispatch_progress f s Hwf Hlt).
  - intros sqlText f.
    destruct (scanLoop_total f (S (length sqlText)) (newParseState sqlText))
      as [[s e] E]; [apply wf_newParseState | simpl; lia |].
    exists s, e. split; [exact E|]. intros ->.
    destruct (scanLoop_end _ _ _ _ (wf_newParseState sqlText) E)
      as ([Hn _] & Hi & Hsrc).
    simpl in Hsrc. congruence.
  - apply ParseSQL_total.
  - apply ParseSQL_fuel_enough.
Qed.

(** C9.  With a nil format function the parse operation fails with
    [ErrFormatParamFuncRequired] and the zero result, whatever the
    text; no iteration of the scan loop is needed for that answer. *)
Theorem C9_nil_format_function (sqlText : list ascii) :
  ParseSQL sqlText None = Some (zeroParsedSQL, Some ErrFormatParamFuncRequired)
  /\ ParseSQL_fuel 0 sqlText None
     = Some (zeroParsedSQL, Some ErrFormatParamFuncRequired).
Proof. split; reflexivity. Qed.

(** ** What one iteration does to the state *)

Lemma recognized_lists (formatFunc : FormatParamFunc) (s : parseState) :
  let r := getIndex (set_i s (st_i s + 1)) (rawNameAt s) in
  st_tokens (recognized formatFunc s)
  = st_tokens s ++ [newToken s (fst r)]
  /\ st_edits (recognized formatFunc s)
     = st_edits s ++ [editOf formatFunc (newToken s (fst r))]
  /\ st_order (recognized formatFunc s) = st_order (snd r)
  /\ st_indexOf (recognized formatFunc s) = st_indexOf (snd r).
Proof.
  unfold recognized, newToken, editOf.
  pose proof (getIndex_fields (set_i s (st_i s + 1)) (rawNameAt s)) as H.
  destruct (getIndex _ _) as [idx s1]. simpl in *.
  destruct H as (-> & _ & _ & -> & ->). auto.
Qed.

(** An iteration without error either only moves the cursor forward
    or is a successful run of the recognizer. *)
Lemma dispatch_cases (formatFunc : FormatParamFunc) (s s' : parseState) :
  wf s -> st_i s < st_n s -> dispatch formatFunc s = (s', None) ->
  (classify s <> Placeholder /\ advances s s')
  \/ (classify s = Placeholder /\ isValidName (rawNameAt s) = true
      /\ s' = recognized formatFunc s).
Proof.
  intros Hwf Hlt H.
  destruct (branch_eq_dec (classify s) Placeholder) as [E|E].
  - right. rewrite (dispatch_Placeholder _ _ E) in H.
    destruct (isValidName _); [|discriminate].
    injection H as <-. auto.
  - left. destruct (dispatch_skip formatFunc s Hwf Hlt E) as (s1 & H1 & Ha).
    rewrite H1 in H. injection H as <-. auto.
Qed.

(** ** Tokens and edits *)

Lemma tokenOK_mono (src : list ascii) (i j : nat) (t : QueryToken) :
  i <= j -> tokenOK src i t -> tokenOK src j t.
Proof. unfold tokenOK. intuition lia. Qed.

Lemma identLoop_run (rest : list ascii) (j : nat) :
  Forall (fun c => isValidIdentifierChar c = true)
    (take (identLoop rest j - j) rest).
Proof.
  revert j. induction rest as [|c rest IH]; intros j; simpl.
  - rewrite take_nil. constructor.
  - destruct (isValidIdentifierChar c) eqn:E.
    + pose proof (identLoop_bounds rest (S j)).
      replace (identLoop rest (S j) - j) with (S (identLoop rest (S j) - S j))
        by lia.
      simpl. constructor; [assumption | apply IH].
    + rewrite Nat.sub_diag. constructor.
Qed.

Lemma rawNameAt_chars (s : parseState) :
  Forall (fun c => isValidIdentifierChar c = true) (rawNameAt s).
Proof. apply identLoop_run. Qed.

Lemma identLoop_stop (rest : list ascii) (j : nat) (c : ascii) :
  rest !! (identLoop rest j - j) = Some c -> isValidIdentifierChar c = false.
Proof.
  revert j. induction rest as [|d rest IH]; intros j; simpl; [discriminate|].
  destruct (isValidIdentifierChar d) eqn:E.
  - pose proof (identLoop_bounds rest (S j)).
    replace (identLoop rest (S j) - j) with (S (identLoop rest (S j) - S j))
      by lia.
    simpl. apply IH.
  - rewrite Nat.sub_diag. simpl. intros [= <-]. exact E.
Qed.

(** The run the recognizer reads is maximal. *)
Lemma nameEnd_stop (s : parseState) :
  wf s -> st_i s < st_n s -> nameEnd s < length (st_src s) ->
  isValidIdentifierChar (byteAt (st_src s) (nameEnd s)) = false.
Proof.
  intros Hwf Hlt Hend. pose proof (nameEnd_bounds s Hwf Hlt) as Hb.
  destruct (lookup_lt_is_Some_2 _ _ Hend) as [c Hc].
  unfold byteAt. rewrite Hc. simpl.
  apply (identLoop_stop (drop (st_i s + 1) (st_src s)) (st_i s + 1)).
  fold (nameEnd s). rewrite lookup_drop, <- Hc. f_equal. lia.
Qed.

Lemma tokInv_step (formatFunc : FormatParamFunc) (s s' : parseState) :
  wf s -> tokInv formatFunc s -> st_i s < st_n s ->
  dispatch formatFunc s = (s', None) -> tokInv formatFunc s'.
Proof.
  intros Hwf [He Ht] Hlt H.
  destruct (dispatch_cases _ _ _ Hwf Hlt H) as [(_ & j & -> & Hj)|(E & Hv & ->)].
  - split; [exact He|]. simpl.
    eapply Forall_impl; [exact Ht|]. intros t. apply tokenOK_mono. lia.
  - pose proof (recognized_lists formatFunc s) as (Htok & Hed & _).
    pose proof (recognized_fields formatFunc s) as (Hsrc & _ & Hi).
    pose proof (nameEnd_bounds s Hwf Hlt) as Hb.
    apply classify_Placeholder in E as (Hc & _ & _).
    split.
    + rewrite Hed, Htok, map_app, He. reflexivity.
    + rewrite Htok, Hsrc, Hi. apply Forall_app. split.
      * eapply Forall_impl; [exact Ht|]. intros t. apply tokenOK_mono. lia.
      * constructor; [|constructor].
        unfold tokenOK, newToken; cbn [Start End_ Name Raw].
        repeat split; try reflexivity; try assumption; try lia.
        { apply rawNameAt_chars. }
        { apply nameEnd_stop; assumption. }
Qed.

Lemma tokInv_init (formatFunc : FormatParamFunc) (sqlText : list ascii) :
  tokInv formatFunc (newParseState sqlText).
Proof. split; [reflexivity | constructor]. Qed.

(** ** The parameter registry *)

Lemma indexOpt_snoc (order : list (list ascii)) (x y : list ascii) :
  indexOpt (order ++ [x]) y =
    match indexOpt order y with
    | Some k => Some k
    | None => if bool_decide (y = x) then Some (length order + 1) else None
    end.
Proof.
  induction order as [|z order IH]; simpl.
  - destruct (bool_decide (y = x)); reflexivity.
  - destruct (bool_decide (y = z)); [reflexivity|].
    rewrite IH. destruct (indexOpt order y); simpl; [reflexivity|].
    destruct (bool_decide (y = x)); reflexivity.
Qed.

Lemma orderOf_snoc (names : list (list ascii)) (x : list ascii) :
  orderOf (names ++ [x]) = addName (orderOf names) x.
Proof. unfold orderOf. rewrite fold_left_app. reflexivity. Qed.

Lemma regInv_init (sqlText : list ascii) : regInv (newParseState sqlText).
Proof.
  split; [|split]; simpl.
  - intros x. apply lookup_empty.
  - reflexivity.
  - constructor.
Qed.

(** What [getIndex] returns, in terms of [indexOpt] and [addName]. *)
Lemma getIndex_spec (s : parseState) (x : list ascii) :
  (forall y, st_indexOf s !! y = indexOpt (st_order s) y) ->
  let r := getIndex s x in
  st_order (snd r) = addName (st_order s) x
  /\ indexOpt (st_order (snd r)) x = Some (fst r)
  /\ (forall y, st_indexOf (snd r) !! y = indexOpt (st_order (snd r)) y)
  /\ (forall y k, indexOpt (st_order s) y = Some k ->
                  indexOpt (st_order (snd r)) y = Some k).
Proof.
  intros H1. unfold getIndex, addName. rewrite <- H1.
  destruct (st_indexOf s !! x) as [idx|] eqn:E; cbn [fst snd st_order st_indexOf].
  - rewrite <- H1. auto.
  - rewrite H1 in E.
    split; [reflexivity|]. split; [|split].
    + rewrite indexOpt_snoc, E, bool_decide_eq_true_2 by reflexivity.
      rewrite length_app. reflexivity.
    + intros y. rewrite indexOpt_snoc.
      destruct (decide (y = x)) as [->|Hne].
      * rewrite lookup_insert_eq, E, bool_decide_eq_true_2 by reflexivity.
        rewrite length_app. reflexivity.
      * rewrite lookup_insert_ne by congruence. rewrite H1.
        destruct (indexOpt (st_order s) y); [reflexivity|].
        rewrite bool_decide_eq_false_2 by assumption. reflexivity.
    + intros y k Hy. rewrite indexOpt_snoc, Hy. reflexivity.
Qed.

Lemma regInv_step (formatFunc : FormatParamFunc) (s s' : parseState) :
  wf s -> regInv s -> st_i s < st_n s ->
  dispatch formatFunc s = (s', None) -> regInv s'.
Proof.
  intros Hwf (H1 & H2 & H3) Hlt H.
  destruct (dispatch_cases _ _ _ Hwf Hlt H) as [(_ & j & -> & Hj)|(E & Hv & ->)].
  - split; [|split]; assumption.
  - pose proof (recognized_lists formatFunc s) as (Htok & _ & Hord & Hmap).
    pose proof (getIndex_spec (set_i s (st_i s + 1)) (rawNameAt s) H1)
      as (Ha & Hb & Hc & Hd).
    cbv zeta in *. cbn [st_order set_i] in *.
    split; [|split].
    + intros x. rewrite Hmap, Hord. apply Hc.
    + rewrite Hord, Htok, map_app, Ha, H2. cbn [map newToken Name].
      rewrite orderOf_snoc. reflexivity.
    + rewrite Htok, Hord. apply Forall_app. split.
      * eapply Forall_impl; [exact H3|]. intros t. apply Hd.
      * constructor; [|constructor]. exact Hb.
Qed.

(** ** The result of the parse operation *)

(** The state in which a scan ends. *)
Lemma scan_final (formatFunc : FormatParamFunc) (sqlText : list ascii)
    (fuel : nat) (s : parseState) :
  scanLoop formatFunc fuel (newParseState sqlText) = Some (s, None) ->
  wf s /\ st_src s = sqlText /\ st_i s = st_n s
  /\ tokInv formatFunc s /\ regInv s.
Proof.
  intros H.
  pose proof (wf_newParseState sqlText) as Hwf.
  destruct (scanLoop_end _ _ _ _ Hwf H) as (Hwf' & Hi & Hsrc).
  split; [assumption|]. split; [exact Hsrc|]. split; [assumption|]. split.
  - exact (scanLoop_invariant formatFunc (tokInv formatFunc)
             (tokInv_step formatFunc) fuel _ s Hwf (tokInv_init _ _) H).
  - exact (scanLoop_invariant formatFunc regInv
             (regInv_step formatFunc) fuel _ s Hwf (regInv_init _) H).
Qed.

Lemma buildSQL_no_edits (s : parseState) :
  st_edits s = [] -> buildSQL s = st_src s.
Proof.
  intros H. unfold buildSQL. rewrite H. simpl.
  destruct (st_src s); reflexivity.
Qed.

(** Both exits of [ParseSQL] return the same three components. *)
Lemma ParseSQL_ok (sqlText : list ascii) (formatFunc : FormatParamFunc)
    (ps : ParsedSQL) :
  ParseSQL sqlText (Some formatFunc) = Some (ps, None) ->
  exists s,
    scanLoop formatFunc (S (length sqlText)) (newParseState sqlText)
      = Some (s, None)
    /\ SQL ps = buildSQL s
    /\ parameters ps = fst (Parameters (orderedTokens s))
    /\ occurrences ps = st_tokens s.
Proof.
  unfold ParseSQL, ParseSQL_fuel.
  destruct (scanLoop _ _ _) as [[s [e|]]|] eqn:E; try discriminate.
  intros H. exists s. split; [reflexivity|].
  destruct (scan_final _ _ _ _ E) as (_ & _ & _ & [He _] & (_ & Ho & _)).
  destruct (st_edits s) as [|ed es] eqn:Hed; cbn [length Nat.eqb] in H.
  - symmetry in He. apply map_eq_nil in He.
    unfold orderedTokens. rewrite Ho, He in *. simpl in H.
    injection H as <-. simpl.
    rewrite buildSQL_no_edits by assumption. auto.
  - injection H as <-. simpl. auto.
Qed.

Lemma ParseSQL_of_scan (sqlText : list ascii) (formatFunc : FormatParamFunc)
    (s : parseState) :
  scanLoop formatFunc (S (length sqlText)) (newParseState sqlText)
    = Some (s, None) ->
  ParseSQL sqlText (Some formatFunc)
  = Some ({| SQL := buildSQL s;
             parameters := fst (Parameters (orderedTokens s));
             occurrences := st_tokens s |}, None).
Proof.
  intros E.
  destruct (ParseSQL_total sqlText (Some formatFunc)) as [[ps e] H].
  assert (e = None) as ->.
  { unfold ParseSQL, ParseSQL_fuel in H. rewrite E in H.
    destruct (length (st_edits s) =? 0); [destruct (Parameters _)|];
      injection H as _ <-; reflexivity. }
  destruct (ParseSQL_ok _ _ _ H) as (s' & E' & H1 & H2 & H3).
  rewrite E in E'. injection E' as <-.
  rewrite H. destruct ps; simpl in *; subst. reflexivity.
Qed.

Lemma byteAt_elem (src : list ascii) (k : nat) :
  k < length src -> byteAt src k ∈ src.
Proof.
  intros H. unfold byteAt.
  destruct (lookup_lt_is_Some_2 src k H) as [c Hc]. rewrite Hc. simpl.
  eapply list_elem_of_lookup_2, Hc.
Qed.

(** A text without a colon is scanned without an error. *)
Lemma scanLoop_no_colon (formatFunc : FormatParamFunc) (fuel : nat)
    (s s' : parseState) (e : error) :
  wf s -> ":" ∉ st_src s -> scanLoop formatFunc fuel s <> Some (s', Some e).
Proof.
  revert s. induction fuel as [|fuel IH]; intros s Hwf Hno; cbn [scanLoop];
    [discriminate|].
  destruct (Nat.ltb_spec (st_i s) (st_n s)) as [Hlt|]; [|discriminate].
  pose proof (dispatch_wf formatFunc s Hwf Hlt) as Hwf'.
  pose proof (dispatch_progress formatFunc s Hwf Hlt) as (_ & Hs & _).
  destruct (branch_eq_dec (classify s) Placeholder) as [E|E].
  - exfalso. apply Hno. apply classify_Placeholder in E as (<- & _ & _).
    apply byteAt_elem. destruct Hwf. lia.
  - destruct (dispatch_skip formatFunc s Hwf Hlt E) as (s1 & H1 & _).
    rewrite H1 in *. cbn [fst] in *. apply IH; [assumption | congruence].
Qed.

(** C3.  When the scan produces no edit span, [ParseSQL] returns the
    text itself, byte for byte, and no parameter (and no occurrence);
    this is the case in particular of every text without a colon. *)
Theorem C3_identity_without_placeholders :
  (forall (formatFunc : FormatParamFunc) (sqlText : list ascii)
          (s : parseState),
      scanLoop formatFunc (S (length sqlText)) (newParseState sqlText)
        = Some (s, None) ->
      st_edits s = [] ->
      ParseSQL sqlText (Some formatFunc)
      = Some ({| SQL := sqlText; parameters := []; occurrences := [] |}, None))
  /\ (forall (formatFunc : FormatParamFunc) (sqlText : list ascii),
        ":" ∉ sqlText ->
        ParseSQL sqlText (Some formatFunc)
        = Some ({| SQL := sqlText; parameters := []; occurrences := [] |},
                None)).
Proof.
  assert (forall (f : FormatParamFunc) sqlText s,
             scanLoop f (S (length sqlText)) (newParseState sqlText)
               = Some (s, None) ->
             st_tokens s = [] ->
             ParseSQL sqlText (Some f)
             = Some ({| SQL := sqlText; parameters := [];
                        occurrences := [] |}, None)) as Hmain.
  { intros f sqlText s E Ht.
    rewrite (ParseSQL_of_scan _ _ _ E).
    destruct (scan_final _ _ _ _ E) as (_ & Hsrc & _ & [He _] & (_ & Ho & _)).
    rewrite Ht in He. simpl in He.
    rewrite (buildSQL_no_edits _ He), Hsrc.
    unfold orderedTokens. rewrite Ho, Ht. reflexivity. }
  split.
  - intros f sqlText s E He. apply (Hmain f sqlText s E).
    destruct (scan_final _ _ _ _ E) as (_ & _ & _ & [He' _] & _).
    rewrite He in He'. symmetry in He'. apply map_eq_nil in He'. exact He'.
  - intros f sqlText Hno.
    destruct (scanLoop_total f (S (length sqlText)) (newParseState sqlText))
      as [[s [e|]] E]; [apply wf_newParseState | simpl; lia | |].
    + exfalso. eapply (scanLoop_no_colon f); [| |exact E];
        [apply wf_newParseState | exact Hno].
    + apply (Hmain f sqlText s E).
      destruct (scan_final _ _ _ _ E) as ([Hn _] & Hsrc & Hi & [_ Ht] & _).
      destruct (st_tokens s) as [|t ts]; [reflexivity|]. exfalso.
      apply Forall_cons in Ht as [(H1 & H2 & H3 & _) _].
      apply Hno. rewrite <- H3, Hsrc. apply byteAt_elem. subst sqlText. lia.
Qed.

(** ** The name validator on the names the scanner reads *)

Lemma idchar_ascii (c : ascii) :
  isValidIdentifierChar c = true -> (N_of_ascii c <? 128)%N = true.
Proof.
  destruct c as [[] [] [] [] [] [] [] []]; vm_compute; intros H;
    solve [reflexivity | discriminate H].
Qed.

Lemma byteAt_app_l (l1 l2 : list ascii) (k : nat) :
  k < length l1 -> byteAt (l1 ++ l2) k = byteAt l1 k.
Proof. intros H. unfold byteAt. rewrite lookup_app_l by assumption. reflexivity. Qed.

Lemma byteAt_app_last (l : list ascii) (p : ascii) :
  byteAt (l ++ [p]) (length l) = p.
Proof.
  unfold byteAt. rewrite lookup_app_r by lia. rewrite Nat.sub_diag. reflexivity.
Qed.

(** The fast path of [utf8At] is the only one taken on such names. *)
Lemma utf8At_ascii (s : list ascii) (i : nat) :
  Forall (fun c => isValidIdentifierChar c = true) s -> i < length s ->
  utf8At s i = (rune (byteAt s i), 1).
Proof.
  intros Hs Hi. unfold utf8At.
  pose proof (byteAt_elem s i Hi) as Hin.
  rewrite Forall_forall in Hs. rewrite (idchar_ascii _ (Hs _ Hin)).
  reflexivity.
Qed.

Section TrailingPunctuation.

Variable name : list ascii.
Variable p : ascii.
Hypothesis name_chars : Forall (fun c => isValidIdentifierChar c = true) name.
Hypothesis p_punct : punctuation p.

Let s := name ++ [p].

Lemma trailing_chars : Forall (fun c => isValidIdentifierChar c = true) s.
Proof.
  apply Forall_app. split; [exact name_chars|].
  constructor; [|constructor].
  destruct p_punct as [->|[->| ->]]; reflexivity.
Qed.

Lemma trailing_length : length s = length name + 1.
Proof. unfold s. rewrite length_app. reflexivity. Qed.

Lemma trailing_not_ident :
  isLetterDigitOrUnderscore (rune p) = false
  /\ isLetterOrUnderscore (rune p) = false
  /\ negb (ble "0" p) || negb (ble p "9") = true.
Proof. destruct p_punct as [->|[->| ->]]; repeat split; reflexivity. Qed.

Lemma readIdentLoop_trailing (fuel i : nat) :
  i <= length name -> i <= readIdentLoop fuel s i <= length name.
Proof.
  revert i. induction fuel as [|fuel IH]; intros i Hi; cbn [readIdentLoop];
    [lia|].
  destruct (Nat.ltb_spec i (length s)) as [Hlt|]; [|lia].
  rewrite (utf8At_ascii s i trailing_chars Hlt).
  destruct (isLetterDigitOrUnderscore _) eqn:E; [|lia].
  assert (i <> length name) as Hne.
  { intros ->. unfold s in E. rewrite byteAt_app_last in E.
    destruct trailing_not_ident as (E' & _). congruence. }
  specialize (IH (i + 1)). lia.
Qed.

Lemma readIdent_trailing (j j' : nat) :
  readIdent s j = (true, j') -> j < j' <= length name.
Proof.
  unfold readIdent. pose proof trailing_length as HL.
  destruct (Nat.leb_spec (length s) j) as [|Hlt]; [discriminate|].
  rewrite (utf8At_ascii s j trailing_chars Hlt).
  destruct (isLetterOrUnderscore _) eqn:E; cbn [negb]; [|discriminate].
  assert (j <> length name) as Hne.
  { intros ->. unfold s in E. rewrite byteAt_app_last in E.
    destruct trailing_not_ident as (_ & E' & _). congruence. }
  intros [= <-].
  pose proof (readIdentLoop_trailing (length s - (j + 1)) (j + 1)). lia.
Qed.

Lemma readDigitsLoop_trailing (rest : list ascii) (i : nat) :
  i <= readDigitsLoop (rest ++ [p]) i <= i + length rest.
Proof.
  revert i. induction rest as [|c rest IH]; intros i; cbn [app readDigitsLoop].
  - destruct trailing_not_ident as (_ & _ & ->). simpl. lia.
  - destruct (negb _ || negb _); [simpl; lia|].
    specialize (IH (S i)). simpl. lia.
Qed.

Lemma readDigits_trailing (j j' : nat) :
  readDigits s j = (true, j') -> j < j' <= length name.
Proof.
  unfold readDigits. pose proof trailing_length as HL.
  destruct (Nat.leb_spec (length s) j) as [|Hlt]; [discriminate|].
  unfold s in *. rewrite !drop_app_le by lia.
  pose proof (readDigitsLoop_trailing (drop j name) j) as H.
  rewrite length_drop in H.
  destruct (Nat.eqb_spec (readDigitsLoop (drop j name ++ [p]) j) j);
    [discriminate|].
  intros [= <-]. lia.
Qed.

(** A name that ends in a dot or an opening bracket, or in a closing
    bracket that no opening bracket precedes, is never valid. *)
Hypothesis stray : p = "]" -> "[" ∉ name.

Lemma nameLoop_trailing (fuel i : nat) :
  i <= length name -> length name + 1 - i <= fuel ->
  nameLoop fuel s i = false.
Proof.
  pose proof trailing_length as HL.
  revert i. induction fuel as [|fuel IH]; intros i Hi Hfuel; [lia|].
  cbn [nameLoop].
  destruct (Nat.ltb_spec i (length s)) as [Hlt|]; [|lia].
  destruct (Ascii.eqb (byteAt s i) ".") eqn:Edot.
  - destruct (readIdent s (i + 1)) as [[|] i'] eqn:R; cbn [negb];
      [|reflexivity].
    apply readIdent_trailing in R. apply IH; lia.
  - destruct (Ascii.eqb (byteAt s i) "[") eqn:Eopen; [|reflexivity].
    apply eqb_true in Eopen.
    assert (p <> "]") as Hp.
    { intros Hp. destruct (Nat.eq_dec i (length name)) as [->|Hne].
      - unfold s in Eopen. rewrite byteAt_app_last in Eopen. congruence.
      - apply (stray Hp). unfold s in Eopen.
        rewrite byteAt_app_l in Eopen by lia. rewrite <- Eopen.
        apply byteAt_elem. lia. }
    destruct (readDigits s (i + 1)) as [[|] i'] eqn:R; cbn [negb];
      [|reflexivity].
    apply readDigits_trailing in R.
    destruct (Nat.leb_spec (length s) i'); [reflexivity|]. cbn [orb].
    destruct (Ascii.eqb (byteAt s i') "]") eqn:Eclose; cbn [negb];
      [|reflexivity].
    apply eqb_true in Eclose.
    assert (i' <> length name) as Hne.
    { intros ->. unfold s in Eclose. rewrite byteAt_app_last in Eclose.
      congruence. }
    apply IH; lia.
Qed.

Lemma isValidName_trailing : isValidName s = false.
Proof.
  unfold isValidName. destruct s as [|c s'] eqn:Es; [reflexivity|].
  rewrite <- Es.
  destruct (readIdent s 0) as [[|] i] eqn:R; cbn [negb]; [|reflexivity].
  apply readIdent_trailing in R. pose proof trailing_length.
  apply nameLoop_trailing; lia.
Qed.

End TrailingPunctuation.

(** ** The iteration bounds of the validator are enough *)

Lemma decodeRune_width (l : list ascii) : 1 <= snd (decodeRune l).
Proof.
  unfold decodeRune.
  repeat match goal with
         | |- context [match ?x with _ => _ end] => destruct x
         end; simpl; lia.
Qed.

Lemma utf8At_width (s : list ascii) (i : nat) : 1 <= snd (utf8At s i).
Proof.
  unfold utf8At. destruct (_ <? _)%N; [simpl; lia | apply decodeRune_width].
Qed.

Lemma readIdentLoop_ge (fuel : nat) (s : list ascii) (i : nat) :
  i <= readIdentLoop fuel s i.
Proof.
  revert i. induction fuel as [|fuel IH]; intros i; cbn [readIdentLoop]; [lia|].
  destruct (i <? length s); [|lia].
  pose proof (utf8At_width s i). destruct (utf8At s i) as [r w].
  destruct (isLetterDigitOrUnderscore r); [|lia].
  specialize (IH (i + w)). simpl in *. lia.
Qed.

Lemma readIdentLoop_fuel (f1 f2 : nat) (s : list ascii) (i : nat) :
  length s - i <= f1 -> length s - i <= f2 ->
  readIdentLoop f1 s i = readIdentLoop f2 s i.
Proof.
  revert f2 i. induction f1 as [|f1 IH]; intros f2 i H1 H2.
  - destruct f2 as [|f2]; cbn [readIdentLoop]; [reflexivity|].
    destruct (Nat.ltb_spec i (length s)); [lia | reflexivity].
  - destruct f2 as [|f2]; cbn [readIdentLoop];
      destruct (Nat.ltb_spec i (length s)); try lia; try reflexivity.
    pose proof (utf8At_width s i). destruct (utf8At s i) as [r w].
    destruct (isLetterDigitOrUnderscore r); [|reflexivity].
    simpl in *. apply IH; lia.
Qed.

Lemma readIdent_ge (s : list ascii) (i i' : nat) :
  readIdent s i = (true, i') -> i < i'.
Proof.
  unfold readIdent. destruct (length s <=? i); [discriminate|].
  pose proof (utf8At_width s i). destruct (utf8At s i) as [r w].
  destruct (negb _); [discriminate|]. intros [= <-].
  pose proof (readIdentLoop_ge (length s - (i + w)) s (i + w)).
  simpl in *. lia.
Qed.

Lemma readDigitsLoop_ge (rest : list ascii) (i : nat) :
  i <= readDigitsLoop rest i.
Proof.
  revert i. induction rest as [|c rest IH]; intros i; cbn [readDigitsLoop];
    [lia|].
  destruct (negb _ || negb _); [lia|]. specialize (IH (S i)). lia.
Qed.

Lemma readDigits_ge (s : list ascii) (i i' : nat) :
  readDigits s i = (true, i') -> i < i'.
Proof.
  unfold readDigits. destruct (length s <=? i); [discriminate|].
  pose proof (readDigitsLoop_ge (drop i s) i).
  destruct (Nat.eqb_spec (readDigitsLoop (drop i s) i) i); [discriminate|].
  intros [= <-]. lia.
Qed.

Lemma nameLoop_fuel (f1 f2 : nat) (s : list ascii) (i : nat) :
  length s - i <= f1 -> length s - i <= f2 ->
  nameLoop f1 s i = nameLoop f2 s i.
Proof.
  revert f2 i. induction f1 as [|f1 IH]; intros f2 i H1 H2.
  - destruct f2 as [|f2]; cbn [nameLoop]; [reflexivity|].
    destruct (Nat.ltb_spec i (length s)); [lia|].
    destruct (Nat.leb_spec (length s) i); [reflexivity | lia].
  - destruct f2 as [|f2]; cbn [nameLoop];
      destruct (Nat.ltb_spec i (length s)); try lia; try reflexivity.
    { destruct (Nat.leb_spec (length s) i); [reflexivity | lia]. }
    destruct (Ascii.eqb (byteAt s i) ".").
    + destruct (readIdent s (i + 1)) as [[|] i'] eqn:R; cbn [negb];
        [|reflexivity].
      apply readIdent_ge in R. apply IH; lia.
    + destruct (Ascii.eqb (byteAt s i) "["); [|reflexivity].
      destruct (readDigits s (i + 1)) as [[|] i'] eqn:R; cbn [negb];
        [|reflexivity].
      apply readDigits_ge in R.
      destruct (_ || _); [reflexivity|]. apply IH; lia.
Qed.

(** ** Rejected names *)

(** When the recognizer, at any iteration of the scan, reads a raw name
    that is not valid, the whole operation fails with that name and the
    offset of its colon, and returns the zero result. *)
Lemma invalid_name_fails (formatFunc : FormatParamFunc)
    (sqlText : list ascii) (k : nat) (s : parseState) :
  stateAfter formatFunc sqlText k = Some s ->
  st_i s < st_n s -> classify s = Placeholder ->
  isValidName (rawNameAt s) = false ->
  ParseSQL sqlText (Some formatFunc)
  = Some (zeroParsedSQL,
          Some (ErrInvalidPlaceholderName (rawNameAt s) (st_i s))).
Proof.
  intros Hk Hlt Hc Hv. unfold stateAfter in Hk.
  destruct (iterFrom_progress _ _ _ _ (wf_newParseState sqlText) Hk)
    as ([Hn _] & Hi & Hsrc).
  simpl in Hi, Hsrc.
  assert (S (length sqlText) = k + S (length sqlText - k)) as Hfuel
    by (rewrite Hsrc in Hn; lia).
  unfold ParseSQL, ParseSQL_fuel.
  rewrite Hfuel, (iterFrom_scanLoop _ _ _ _ _ Hk). cbn [scanLoop].
  apply Nat.ltb_lt in Hlt. rewrite Hlt.
  rewrite (dispatch_Placeholder _ _ Hc), Hv. reflexivity.
Qed.

(** ** Deduplication and order *)

(** What a successful parse returns, in terms of the final state and of
    the registry as a function of the names of the occurrences. *)
Lemma ParseSQL_registry (sqlText : list ascii) (formatFunc : FormatParamFunc)
    (ps : ParsedSQL) :
  ParseSQL sqlText (Some formatFunc) = Some (ps, None) ->
  exists s,
    scanLoop formatFunc (S (length sqlText)) (newParseState sqlText)
      = Some (s, None)
    /\ SQL ps = buildSQL s
    /\ parameters ps = fst (Parameters (orderedTokens s))
    /\ occurrences ps = st_tokens s
    /\ st_order s = orderOf (map Name (st_tokens s))
    /\ Forall (fun t => indexOpt (st_order s) (Name t) = Some (Index t))
         (st_tokens s)
    /\ st_edits s = map (editOf formatFunc) (st_tokens s).
Proof.
  intros H. destruct (ParseSQL_ok _ _ _ H) as (s & E & H1 & H2 & H3).
  destruct (scan_final _ _ _ _ E) as (_ & _ & _ & [He _] & (_ & Ho & Hi)).
  exists s. auto 10.
Qed.

Ltac decide_names :=
  repeat case_bool_decide; try congruence; simpl.

(** C5.  When the occurrences are two placeholders of one name [x],
    there is one parameter, [x] with index 1; there are two occurrences,
    both with index 1; and the two edit spans both carry the replacement
    text [formatFunc 1]. *)
Theorem C5_deduplication (sqlText : list ascii) (formatFunc : FormatParamFunc)
    (ps : ParsedSQL) (x : list ascii) :
  ParseSQL sqlText (Some formatFunc) = Some (ps, None) ->
  map Name (occurrences ps) = [x; x] ->
  parameters ps = [NewParameter x 1]
  /\ length (occurrences ps) = 2
  /\ map Index (occurrences ps) = [1; 1]
  /\ exists s,
       scanLoop formatFunc (S (length sqlText)) (newParseState sqlText)
         = Some (s, None)
       /\ length (st_edits s) = 2
       /\ map e_repl (st_edits s) = [formatFunc 1; formatFunc 1].
Proof.
  intros H Hnames.
  destruct (ParseSQL_registry _ _ _ H)
    as (s & E & _ & Hpar & Hocc & Hord & Hidx & Hed).
  rewrite Hocc in *. rewrite Hnames in Hord.
  destruct (st_tokens s) as [|[n1 i1 s1 e1 r1] [|[n2 i2 s2 e2 r2] [|? ?]]] eqn:Ht;
    try discriminate.
  injection Hnames as -> ->.
  unfold orderOf, addName in Hord. simpl in Hord.
  rewrite bool_decide_eq_true_2 in Hord by reflexivity. simpl in Hord.
  rewrite Hord in Hidx.
  apply Forall_cons in Hidx as [Hi1 Hidx]. apply Forall_cons in Hidx as [Hi2 _].
  simpl in Hi1, Hi2.
  rewrite bool_decide_eq_true_2 in Hi1, Hi2 by reflexivity.
  injection Hi1 as <-. injection Hi2 as <-.
  split; [|split; [reflexivity|split; [reflexivity|]]].
  - rewrite Hpar. unfold orderedTokens. rewrite Hord, Ht. simpl.
    rewrite bool_decide_eq_true_2 by reflexivity. reflexivity.
  - exists s. split; [exact E|]. rewrite Hed. split; reflexivity.
Qed.

(** C6.  When the names of the occurrences are [a, b, a, c] in source
    order, with [a], [b] and [c] distinct, the parameters are [a, b, c]
    with the indices 1, 2, 3, and the occurrences carry the indices
    1, 2, 1, 3 in source order. *)
Theorem C6_order_preservation (sqlText : list ascii)
    (formatFunc : FormatParamFunc) (ps : ParsedSQL) (a b c : list ascii) :
  ParseSQL sqlText (Some formatFunc) = Some (ps, None) ->
  map Name (occurrences ps) = [a; b; a; c] ->
  a <> b -> a <> c -> b <> c ->
  parameters ps = [NewParameter a 1; NewParameter b 2; NewParameter c 3]
  /\ map (fun t => (Name t, Index t)) (occurrences ps)
     = [(a, 1); (b, 2); (a, 1); (c, 3)].
Proof.
  intros H Hnames Hab Hac Hbc.
  destruct (ParseSQL_registry _ _ _ H)
    as (s & E & _ & Hpar & Hocc & Hord & Hidx & Hed).
  rewrite Hocc in *. rewrite Hnames in Hord.
  destruct (st_tokens s)
    as [|[n1 i1 s1 e1 r1] [|[n2 i2 s2 e2 r2] [|[n3 i3 s3 e3 r3]
         [|[n4 i4 s4 e4 r4] [|? ?]]]]] eqn:Ht; try discriminate.
  injection Hnames as -> -> -> ->.
  assert (st_order s = [a; b; c]) as Hord'.
  { rewrite Hord. unfold orderOf, addName. simpl. decide_names.
    decide_names. decide_names. reflexivity. }
  rewrite Hord' in Hidx.
  repeat match goal with
         | H : Forall _ (_ :: _) |- _ => apply Forall_cons in H as [? H]
         end.
  simpl in *.
  repeat match goal with
         | H : context [bool_decide _] |- _ =>
             first [rewrite bool_decide_eq_true_2 in H by congruence
                   |rewrite bool_decide_eq_false_2 in H by congruence];
             simpl in H
         end.
  repeat match goal with
         | H : Some _ = Some _ |- _ => injection H as <-
         end.
  split; [|reflexivity].
  rewrite Hpar. unfold orderedTokens. rewrite Hord', Ht. simpl.
  repeat (first [rewrite bool_decide_eq_true_2 by congruence
                |rewrite bool_decide_eq_false_2 by congruence]; simpl).
  reflexivity.
Qed.

(** ** The parameters are the registry *)

Lemma indexOpt_Some (order : list (list ascii)) (x : list ascii) (k : nat) :
  indexOpt order x = Some k -> 1 <= k /\ order !! (k - 1) = Some x.
Proof.
  revert k. induction order as [|y order IH]; intros k; simpl; [discriminate|].
  case_bool_decide as E.
  - intros [= <-]. subst. split; [lia | reflexivity].
  - destruct (indexOpt order x) as [k'|]; [|discriminate].
    simpl. intros [= <-]. destruct (IH k' eq_refl) as [Hk Hl].
    split; [lia|]. destruct k' as [|k'']; [lia|].
    simpl in *. rewrite Nat.sub_0_r in Hl. exact Hl.
Qed.

Lemma indexOpt_None (order : list (list ascii)) (x : list ascii) :
  indexOpt order x = None -> x ∉ order.
Proof.
  induction order as [|y order IH]; simpl.
  - intros _. apply not_elem_of_nil.
  - case_bool_decide as E; [discriminate|].
    destruct (indexOpt order x); [discriminate|].
    intros _ H. apply elem_of_cons in H as [H|H]; [congruence|].
    exact (IH eq_refl H).
Qed.

Lemma indexOpt_lookup (order : list (list ascii)) (x : list ascii) (j : nat) :
  NoDup order -> order !! j = Some x -> indexOpt order x = Some (S j).
Proof.
  revert j. induction order as [|y order IH]; intros j Hnd; [discriminate|].
  apply NoDup_cons in Hnd as [Hy Hnd].
  destruct j as [|j]; simpl.
  - intros [= ->]. rewrite bool_decide_eq_true_2 by reflexivity. reflexivity.
  - intros Hl. rewrite bool_decide_eq_false_2.
    + rewrite (IH j Hnd Hl). reflexivity.
    + intros ->. apply Hy. eapply list_elem_of_lookup_2, Hl.
Qed.

Lemma fold_addName_NoDup (names acc : list (list ascii)) :
  NoDup acc -> NoDup (fold_left addName names acc).
Proof.
  revert acc. induction names as [|x names IH]; intros acc Hnd; simpl;
    [assumption|].
  apply IH. unfold addName.
  destruct (indexOpt acc x) eqn:E; [assumption|].
  apply indexOpt_None in E. apply NoDup_app. split; [assumption|].
  split; [|apply NoDup_singleton].
  intros y Hy Hy'. apply list_elem_of_singleton in Hy'. congruence.
Qed.

Lemma fold_addName_elem (names acc : list (list ascii)) (x : list ascii) :
  x ∈ fold_left addName names acc -> x ∈ acc \/ x ∈ names.
Proof.
  revert acc. induction names as [|y names IH]; intros acc; simpl; [auto|].
  intros H. apply IH in H as [H|H].
  - unfold addName in H. destruct (indexOpt acc y); [auto|].
    apply elem_of_app in H as [H|H]; [auto|].
    apply list_elem_of_singleton in H. subst. right. apply elem_of_cons. auto.
  - right. apply elem_of_cons. auto.
Qed.

Lemma orderOf_NoDup (names : list (list ascii)) : NoDup (orderOf names).
Proof. apply fold_addName_NoDup, NoDup_nil_2. Qed.

Lemma orderOf_elem (names : list (list ascii)) (x : list ascii) :
  x ∈ orderOf names -> x ∈ names.
Proof.
  intros H. apply fold_addName_elem in H as [H|H]; [|assumption].
  apply elem_of_nil in H. contradiction.
Qed.

Lemma map_fmap {A B : Type} (f : A -> B) (l : list A) : map f l = f <$> l.
Proof.
  induction l as [|a l IH]; [reflexivity|].
  change (f a :: map f l = f a :: (f <$> l)). rewrite IH. reflexivity.
Qed.

(** The slots of [orderedTokens]: writing tokens one after the other
    at the places [Index - 1]. *)
Lemma fold_insert_lookup (ts acc : list QueryToken) (j : nat) (t : QueryToken) :
  fold_left (fun acc p => <[Index p - 1 := p]> acc) ts acc !! j = Some t ->
  (t ∈ ts /\ Index t - 1 = j)
  \/ (acc !! j = Some t /\ forall p, p ∈ ts -> Index p - 1 <> j).
Proof.
  revert acc. induction ts as [|p ts IH]; intros acc; simpl.
  - intros H. right. split; [assumption|].
    intros p Hp. apply elem_of_nil in Hp. contradiction.
  - intros H. apply IH in H as [[H1 H2]|[H1 H2]].
    + left. split; [apply elem_of_cons; auto | assumption].
    + destruct (Nat.eq_dec (Index p - 1) j) as [E|E].
      * left. rewrite E in H1.
        apply list_lookup_insert_Some in H1 as [(_ & -> & _)|(? & _)];
          [|congruence].
        split; [apply elem_of_cons; auto | assumption].
      * right. rewrite list_lookup_insert_ne in H1 by assumption.
        split; [assumption|].
        intros q Hq. apply elem_of_cons in Hq as [->|Hq]; auto.
Qed.

Lemma fold_insert_length (ts acc : list QueryToken) :
  length (fold_left (fun acc p => <[Index p - 1 := p]> acc) ts acc)
  = length acc.
Proof.
  revert acc. induction ts as [|p ts IH]; intros acc; simpl; [reflexivity|].
  rewrite IH. apply length_insert.
Qed.

Lemma orderedTokens_fold (s : parseState) :
  Forall (fun t => indexOpt (st_order s) (Name t) = Some (Index t))
    (st_tokens s) ->
  orderedTokens s
  = fold_left (fun acc p => <[Index p - 1 := p]> acc) (st_tokens s)
      (replicate (length (st_order s)) zeroToken).
Proof.
  unfold orderedTokens. generalize (replicate (length (st_order s)) zeroToken).
  induction (st_tokens s) as [|p ts IH]; intros acc H; simpl; [reflexivity|].
  apply Forall_cons in H as [Hp H]. rewrite <- (IH _ H). f_equal.
  apply indexOpt_Some in Hp as [Hp1 Hp2].
  pose proof (lookup_lt_Some _ _ _ Hp2) as Hlt.
  destruct (Nat.ltb_spec (Index p) 1); [lia|].
  destruct (Nat.ltb_spec (length (st_order s)) (Index p)); [lia|].
  rewrite Hp2. simpl. rewrite bool_decide_eq_true_2 by reflexivity.
  reflexivity.
Qed.

(** A slice whose indices already count up is left as it is by the sort. *)
Lemma sortSlice_sorted (l : list QueryToken) (base : nat) :
  (forall j t, l !! j = Some t -> Index t = base + j) -> sortSlice l = l.
Proof.
  revert base. induction l as [|t l IH]; intros base H; [reflexivity|].
  simpl. rewrite (IH (S base)).
  - destruct l as [|u l']; [reflexivity|]. simpl.
    rewrite (H 0 t eq_refl), (H 1 u eq_refl).
    destruct (Nat.ltb_spec (base + 1) (base + 0)); [lia | reflexivity].
  - intros j u Hu. rewrite (H (S j) u Hu). lia.
Qed.

(** The slots of [orderedTokens] in a state of the scan: slot [j] holds
    an occurrence of the name number [j + 1] of the registry. *)
Lemma orderedTokens_slots (s : parseState) (j : nat) (x : list ascii) :
  regInv s -> st_order s !! j = Some x ->
  exists t, orderedTokens s !! j = Some t /\ t ∈ st_tokens s
            /\ Name t = x /\ Index t = S j.
Proof.
  intros (_ & Hord & Hidx) Hx.
  pose proof (orderOf_NoDup (map Name (st_tokens s))) as Hnd.
  rewrite <- Hord in Hnd.
  rewrite (orderedTokens_fold s Hidx).
  pose proof (lookup_lt_Some _ _ _ Hx) as Hlt.
  destruct (lookup_lt_is_Some_2
              (fold_left (fun acc p => <[Index p - 1 := p]> acc) (st_tokens s)
                 (replicate (length (st_order s)) zeroToken)) j) as [t Ht].
  { rewrite fold_insert_length, length_replicate. exact Hlt. }
  exists t. split; [exact Ht|].
  rewrite Forall_forall in Hidx.
  apply fold_insert_lookup in Ht as [[Hin Hj]|[Hz Hnone]].
  - pose proof (Hidx t Hin) as Ht. apply indexOpt_Some in Ht as [H1 H2].
    rewrite Hj, Hx in H2. injection H2 as ->.
    split; [assumption|]. split; [reflexivity | lia].
  - exfalso.
    assert (x ∈ map Name (st_tokens s)) as Hin.
    { apply orderOf_elem. rewrite <- Hord. eapply list_elem_of_lookup_2, Hx. }
    rewrite map_fmap in Hin. apply list_elem_of_fmap in Hin as (p & -> & Hp).
    apply (Hnone p Hp). pose proof (Hidx p Hp) as Hp'.
    rewrite (indexOpt_lookup _ _ _ Hnd Hx) in Hp'. injection Hp' as <-. lia.
Qed.

Lemma orderedTokens_length (s : parseState) :
  regInv s -> length (orderedTokens s) = length (st_order s).
Proof.
  intros (_ & _ & Hidx). rewrite (orderedTokens_fold s Hidx).
  rewrite fold_insert_length. apply length_replicate.
Qed.

Lemma Parameters_orderedTokens (s : parseState) :
  regInv s -> fst (Parameters (orderedTokens s)) = paramsOf (st_order s).
Proof.
  intros Hinv. unfold Parameters. cbn [fst].
  rewrite (sortSlice_sorted _ 1).
  - apply list_eq. intros j. unfold paramsOf.
    rewrite map_fmap, list_lookup_fmap, list_lookup_imap.
    destruct (st_order s !! j) as [x|] eqn:Hx.
    + destruct (orderedTokens_slots s j x Hinv Hx) as (t & -> & _ & <- & Hi).
      simpl. rewrite Hi. reflexivity.
    + apply lookup_ge_None in Hx.
      rewrite <- (orderedTokens_length s Hinv) in Hx.
      apply lookup_ge_None in Hx. rewrite Hx. reflexivity.
  - intros j t Ht.
    pose proof (lookup_lt_Some _ _ _ Ht) as Hlt.
    rewrite (orderedTokens_length s Hinv) in Hlt.
    destruct (lookup_lt_is_Some_2 _ _ Hlt) as [x Hx].
    destruct (orderedTokens_slots s j x Hinv Hx) as (t' & Ht' & _ & _ & Hi).
    rewrite Ht in Ht'. injection Ht' as <-. lia.
Qed.

(** The parameters of a successful parse are the names of the
    occurrences without repetitions, in the order of the first
    occurrences, with the indices 1, 2, ... *)
Lemma ParseSQL_parameters (sqlText : list ascii) (formatFunc : FormatParamFunc)
    (ps : ParsedSQL) :
  ParseSQL sqlText (Some formatFunc) = Some (ps, None) ->
  parameters ps = paramsOf (orderOf (map Name (occurrences ps))).
Proof.
  intros H. destruct (ParseSQL_ok _ _ _ H) as (s & E & _ & -> & ->).
  destruct (scan_final _ _ _ _ E) as (_ & _ & _ & _ & Hinv).
  rewrite (Parameters_orderedTokens s Hinv).
  destruct Hinv as (_ & -> & _). reflexivity.
Qed.

(** Every parameter of a successful parse is the name and index of one
    of its occurrences. *)
Lemma ParseSQL_parameter_occurs (sqlText : list ascii)
    (formatFunc : FormatParamFunc) (ps : ParsedSQL) (p : Param) :
  ParseSQL sqlText (Some formatFunc) = Some (ps, None) ->
  p ∈ parameters ps ->
  exists t, t ∈ occurrences ps /\ Name t = p_Name p /\ Index t = p_Index p.
Proof.
  intros H Hp. destruct (ParseSQL_ok _ _ _ H) as (s & E & _ & Hpar & Hocc).
  destruct (scan_final _ _ _ _ E) as (_ & _ & _ & _ & Hinv).
  rewrite Hpar, (Parameters_orderedTokens s Hinv) in Hp. rewrite Hocc.
  apply list_elem_of_lookup_1 in Hp as [j Hj]. unfold paramsOf in Hj.
  rewrite list_lookup_imap in Hj.
  destruct (st_order s !! j) as [x|] eqn:Hx; [|discriminate].
  injection Hj as <-.
  destruct (orderedTokens_slots s j x Hinv Hx) as (t & _ & Hin & Hn & Hi).
  exists t. auto.
Qed.

(** ** The rewriter copies what lies between the edits *)

Lemma slice_empty (src : list ascii) (a b : nat) : b <= a -> slice src a b = [].
Proof. intros H. unfold slice. replace (b - a) with 0 by lia. reflexivity. Qed.

Lemma slice_split (src : list ascii) (l a b : nat) :
  l <= a <= b -> slice src l b = slice src l a ++ slice src a b.
Proof.
  intros H. unfold slice.
  replace (drop a src) with (drop (a - l) (drop l src))
    by (rewrite drop_drop; f_equal; lia).
  rewrite take_take_drop. f_equal. lia.
Qed.

Lemma drop_slice (src : list ascii) (l a : nat) :
  l <= a -> drop l src = slice src l a ++ drop a src.
Proof.
  intros H. unfold slice.
  replace (drop a src) with (drop (a - l) (drop l src))
    by (rewrite drop_drop; f_equal; lia).
  rewrite take_drop. reflexivity.
Qed.

Lemma slice_take (src : list ascii) (a l b : nat) :
  b <= a -> slice (take a src) l b = slice src l b.
Proof.
  intros H. destruct (Nat.le_gt_cases b l) as [Hle|Hgt].
  - rewrite !slice_empty by assumption. reflexivity.
  - unfold slice. rewrite !take_drop_commute, take_take. do 2 f_equal. lia.
Qed.

Lemma drop_take_slice (src : list ascii) (a l : nat) :
  l <= a -> drop l (take a src) = slice src l a.
Proof.
  intros H. unfold slice. rewrite take_drop_commute. do 2 f_equal. lia.
Qed.

Lemma buildEdits_pieces (src : list ascii) (es : list editState)
    (acc : list ascii) (last : nat) :
  (let '(b, l) := buildEdits src acc last es in
   if l <? length src then b ++ drop l src else b)
  = acc ++ pieces src last es.
Proof.
  revert acc last. induction es as [|e es IH]; intros acc last;
    cbn [buildEdits pieces].
  - destruct (Nat.ltb_spec last (length src)); [reflexivity|].
    rewrite drop_ge by assumption. rewrite app_nil_r. reflexivity.
  - rewrite IH. destruct (Nat.ltb_spec last (e_start e)).
    + rewrite <- !app_assoc. reflexivity.
    + rewrite slice_empty by assumption. rewrite <- app_assoc. reflexivity.
Qed.

Lemma buildFrom_pieces (src : list ascii) (last : nat) (es : list editState) :
  buildFrom src last es = pieces src last es.
Proof. unfold buildFrom. apply (buildEdits_pieces src es [] last). Qed.

Lemma pieces_after (src : list ascii) (last a b : nat) (es : list editState) :
  last <= a <= b -> Forall (fun e => b <= e_start e) es ->
  pieces src last es = slice src last a ++ slice src a b ++ pieces src b es.
Proof.
  intros H Hes. destruct es as [|e es]; cbn [pieces].
  - rewrite (drop_slice src last a), (drop_slice src a b) by lia.
    reflexivity.
  - apply Forall_cons in Hes as [He _].
    rewrite (slice_split src last a (e_start e)),
      (slice_split src a b (e_start e)) by lia.
    rewrite <- !app_assoc. reflexivity.
Qed.

(** With every edit of [es1] before [a] and every edit of [es2] from [b]
    on, the output is the rewriting of the text before [a], then the
    bytes from [a] to [b] as they are, then the rewriting of the text
    from [b] on. *)
Lemma pieces_split (src : list ascii) (a b : nat) (es1 es2 : list editState)
    (last : nat) :
  last <= a -> a <= b ->
  Forall (fun e => e_start e <= a /\ e_end e <= a) es1 ->
  Forall (fun e => b <= e_start e) es2 ->
  pieces src last (es1 ++ es2)
  = pieces (take a src) last es1 ++ slice src a b ++ pieces src b es2.
Proof.
  intros Hl Hab H1 H2. revert last Hl.
  induction es1 as [|e es1 IH]; intros last Hl; cbn [app pieces].
  - rewrite drop_take_slice by assumption. apply pieces_after; auto.
  - apply Forall_cons in H1 as [[He1 He2] H1].
    rewrite (IH H1 (e_end e) He2), slice_take by assumption.
    rewrite <- !app_assoc. reflexivity.
Qed.

(** ** What is scanned later lies further on *)

Lemma scanLoop_extends (formatFunc : FormatParamFunc) (fuel : nat)
    (s s' : parseState) :
  wf s -> scanLoop formatFunc fuel s = Some (s', None) ->
  exists extra,
    st_tokens s' = st_tokens s ++ extra
    /\ Forall (fun t => st_i s <= Start t) extra.
Proof.
  revert s. induction fuel as [|fuel IH]; intros s Hwf; cbn [scanLoop];
    [discriminate|].
  destruct (Nat.ltb_spec (st_i s) (st_n s)) as [Hlt|].
  - pose proof (dispatch_wf formatFunc s Hwf Hlt) as Hwf'.
    pose proof (dispatch_cases formatFunc s) as Hc.
    destruct (dispatch formatFunc s) as [s1 [e|]]; [discriminate|].
    cbn [fst] in *. intros H. apply IH in H as (extra & Ht & Hx); [|assumption].
    destruct (Hc s1 Hwf Hlt eq_refl) as [(_ & j & -> & Hj)|(_ & _ & ->)].
    + exists extra. split; [exact Ht|].
      eapply Forall_impl; [exact Hx|]. simpl. intros; lia.
    + pose proof (recognized_lists formatFunc s) as (Htok & _).
      pose proof (recognized_fields formatFunc s) as (_ & _ & Hi).
      pose proof (nameEnd_bounds s Hwf Hlt).
      rewrite Htok, <- app_assoc in Ht.
      eexists. split; [exact Ht|]. constructor; [simpl; lia|].
      eapply Forall_impl; [exact Hx|]. simpl. intros; lia.
  - intros [= ->]. exists []. rewrite app_nil_r. split; [reflexivity|constructor].
Qed.

(** ** Names are runs of ASCII name bytes *)

(** C8, as the code has it.  The name of every occurrence is the
    maximal run of the bytes [A-Za-z0-9_.] and brackets that follows its
    colon, all of them ASCII: a non-ASCII letter ends the name.  For
    [":año"] the occurrence is [a], from offset 0 to 2, and the bytes of
    [ño] stay in the rewritten text. *)
Theorem C8_names_are_ascii_runs :
  (forall (sqlText : list ascii) (formatFunc : FormatParamFunc)
          (ps : ParsedSQL),
      ParseSQL sqlText (Some formatFunc) = Some (ps, None) ->
      Forall (fun t =>
                Name t = slice sqlText (Start t + 1) (End_ t)
                /\ Forall (fun c => isValidIdentifierChar c = true
                                    /\ (N_of_ascii c < 128)%N) (Name t)
                /\ (End_ t < length sqlText ->
                    isValidIdentifierChar (byteAt sqlText (End_ t)) = false))
        (occurrences ps))
  /\ (forall formatFunc : FormatParamFunc,
        ParseSQL (bytes ":año") (Some formatFunc)
        = Some ({| SQL := formatFunc 1 ++ bytes "ño";
                   parameters := [NewParameter (bytes "a") 1];
                   occurrences :=
                     [{| Name := bytes "a"; Index := 1; Start := 0;
                         End_ := 2; Raw := bytes ":a" |}] |}, None)).
Proof.
  split.
  - intros sqlText f ps H.
    destruct (ParseSQL_ok _ _ _ H) as (sf & E & _ & _ & ->).
    destruct (scan_final _ _ _ _ E) as (_ & Hsrc & _ & [_ Htok] & _).
    rewrite Hsrc in Htok. eapply Forall_impl; [exact Htok|].
    intros t (_ & _ & _ & Hn & _ & Hch & Hmax & _).
    split; [exact Hn|]. split; [|exact Hmax].
    eapply Forall_impl; [exact Hch|]. intros c Hc. split; [exact Hc|].
    apply N.ltb_lt, idchar_ascii, Hc.
  - intros f. vm_compute. reflexivity.
Qed.

(** ** The single-quoted skipper *)

(** The test [if s.i <= s.n] of [consumeSingleQuoted] always holds, so
    the skipper leaves at the first quote after the opening one, like
    the skippers without escape handling. *)
Lemma singleQuotedLoop_closingLoop (n : nat) (rest : list ascii) (i : nat) :
  i + length rest <= n ->
  singleQuotedLoop n rest i = closingLoop "'" rest i.
Proof.
  revert i. induction rest as [|c rest IH]; intros i H;
    cbn [singleQuotedLoop closingLoop length] in *; [reflexivity|].
  destruct (Ascii.eqb c "'").
  - destruct (Nat.leb_spec (S i) n); [reflexivity | lia].
  - apply IH. lia.
Qed.

Lemma consumeSingleQuoted_no_escape (s : parseState) :
  wf s ->
  consumeSingleQuoted s
  = set_i s (closingLoop "'" (drop (S (st_i s)) (st_src s)) (S (st_i s))).
Proof.
  intros [Hn Hi]. unfold consumeSingleQuoted. f_equal.
  destruct (Nat.eq_dec (st_i s) (st_n s)) as [E|E].
  - rewrite drop_ge by lia. reflexivity.
  - apply singleQuotedLoop_closingLoop. rewrite length_drop. lia.
Qed.

(** Left at the first quote of a doubled quote, the scan meets the
    second quote of the pair at the cursor, and the dispatcher calls the
    skipper again there. *)
Lemma classify_at_quote (s : parseState) :
  byteAt (st_src s) (st_i s) = "'" -> classify s = SingleQuoted.
Proof. intros H. unfold classify. rewrite H. reflexivity. Qed.

(** C7, what the code does.  Entered at the opening quote of
    ['a''b'], the skipper leaves with the cursor at 3, between the two
    quotes of the doubled quote, not at 6 after the closing quote.  The
    dispatcher then enters the skipper again at offset 3, which is why
    the [:x] of ['a'':x''b'] is still not recognized. *)
Theorem C7_single_quoted_stops_at_doubled_quote :
  st_i (consumeSingleQuoted (newParseState (bytes "'a''b'"))) = 3
  /\ (forall formatFunc : FormatParamFunc,
        stateAfter formatFunc (bytes "'a'':x''b'") 1
        = Some (set_i (newParseState (bytes "'a'':x''b'")) 3)
        /\ classify (set_i (newParseState (bytes "'a'':x''b'")) 3)
           = SingleQuoted
        /\ ParseSQL (bytes "'a'':x''b'") (Some formatFunc)
           = Some ({| SQL := bytes "'a'':x''b'"; parameters := [];
                      occurrences := [] |}, None)).
Proof.
  split; [reflexivity|].
  intros f. repeat split; vm_compute; reflexivity.
Qed.

(** * Further properties of the scanner *)

(** ** The registry keeps first occurrences *)

Lemma filter_all (P : list ascii -> Prop) `{forall x, Decision (P x)}
    (l : list (list ascii)) :
  (forall x, x ∈ l -> P x) -> filter P l = l.
Proof.
  induction l as [|x l IH]; intros HP; [reflexivity|].
  rewrite filter_cons_True by (apply HP, list_elem_of_here).
  rewrite IH; [reflexivity|]. intros y Hy. apply HP, list_elem_of_further, Hy.
Qed.

Lemma indexOpt_elem (order : list (list ascii)) (x : list ascii) (k : nat) :
  indexOpt order x = Some k -> x ∈ order.
Proof.
  intros H. apply indexOpt_Some in H as [_ H].
  eapply list_elem_of_lookup_2, H.
Qed.

Lemma fold_addName_dedup (names acc : list (list ascii)) :
  fold_left addName names acc
  = acc ++ filter (fun y => y ∉ acc) (dedupFirst names).
Proof.
  revert acc. induction names as [|x names IH]; intros acc; simpl.
  - rewrite filter_nil, app_nil_r. reflexivity.
  - rewrite IH. unfold addName. destruct (indexOpt acc x) as [k|] eqn:E.
    + apply indexOpt_elem in E.
      rewrite filter_cons_False by (intros Hx; exact (Hx E)).
      rewrite list_filter_filter. f_equal. apply list_filter_iff.
      intros y. split; [|tauto]. intros Hy. split; [exact Hy | congruence].
    + apply indexOpt_None in E.
      rewrite filter_cons_True by exact E.
      rewrite list_filter_filter, <- app_assoc. simpl. do 2 f_equal.
      apply list_filter_iff. intros y. rewrite elem_of_app, list_elem_of_singleton.
      tauto.
Qed.

Lemma orderOf_dedupFirst (names : list (list ascii)) :
  orderOf names = dedupFirst names.
Proof.
  unfold orderOf. rewrite fold_addName_dedup. simpl.
  apply filter_all. intros x _. apply not_elem_of_nil.
Qed.

Lemma dedupFirst_elem (names : list (list ascii)) (x : list ascii) :
  x ∈ dedupFirst names <-> x ∈ names.
Proof.
  induction names as [|y names IH]; simpl; [reflexivity|].
  rewrite !elem_of_cons, list_elem_of_filter, IH.
  destruct (decide (x = y)); tauto.
Qed.

Lemma dedupFirst_length (names : list (list ascii)) :
  length (dedupFirst names) <= length names.
Proof.
  induction names as [|y names IH]; simpl; [lia|].
  pose proof (length_filter (fun z => z <> y) (dedupFirst names)). lia.
Qed.

Lemma dedupFirst_NoDup (names : list (list ascii)) :
  NoDup names -> dedupFirst names = names.
Proof.
  induction names as [|y names IH]; intros Hnd; [reflexivity|].
  apply NoDup_cons in Hnd as [Hy Hnd]. simpl. rewrite (IH Hnd). f_equal.
  apply filter_all. intros x Hx ->. exact (Hy Hx).
Qed.

Lemma dedupFirst_length_eq (names : list (list ascii)) :
  length (dedupFirst names) = length names -> NoDup names.
Proof.
  induction names as [|y names IH]; simpl; [intros _; apply NoDup_nil_2|].
  intros H.
  pose proof (length_filter (fun z => z <> y) (dedupFirst names)) as H1.
  pose proof (dedupFirst_length names) as H2.
  apply NoDup_cons. split; [|apply IH; lia].
  intros Hy. apply dedupFirst_elem in Hy.
  pose proof (length_filter_lt (fun z => z <> y) (dedupFirst names) y Hy) as H3.
  assert (~ y <> y) as Hyy by tauto. specialize (H3 Hyy). lia.
Qed.

(** X1.  The parameters of a successful parse are the names of its
    occurrences without repetitions, each at the place of its first
    occurrence, numbered 1, 2, ... *)
Theorem parameters_are_first_occurrences (sqlText : list ascii)
    (formatFunc : FormatParamFunc) (ps : ParsedSQL) :
  ParseSQL sqlText (Some formatFunc) = Some (ps, None) ->
  parameters ps
  = imap (fun j x => NewParameter x (S j))
      (dedupFirst (map Name (occurrences ps))).
Proof.
  intros H. rewrite (ParseSQL_parameters _ _ _ H).
  rewrite orderOf_dedupFirst. reflexivity.
Qed.

(** X2.  In a successful parse every occurrence carries the index of
    its name in the parameter list: the parameter number [Index t] is
    the name of [t] with that index.  So two occurrences have the same
    index exactly when they have the same name, and no name is listed
    twice among the parameters. *)
Theorem occurrences_index_parameters (sqlText : list ascii)
    (formatFunc : FormatParamFunc) (ps : ParsedSQL) :
  ParseSQL sqlText (Some formatFunc) = Some (ps, None) ->
  (forall t, t ∈ occurrences ps ->
     1 <= Index t
     /\ parameters ps !! (Index t - 1) = Some (NewParameter (Name t) (Index t)))
  /\ (forall t1 t2, t1 ∈ occurrences ps -> t2 ∈ occurrences ps ->
        (Name t1 = Name t2 <-> Index t1 = Index t2))
  /\ NoDup (map p_Name (parameters ps)).
Proof.
  intros H.
  destruct (ParseSQL_ok _ _ _ H) as (s & E & _ & Hpar & Hocc).
  destruct (scan_final _ _ _ _ E) as (_ & _ & _ & _ & Hinv).
  rewrite Hpar, (Parameters_orderedTokens s Hinv), Hocc.
  destruct Hinv as (_ & Hord & Hidx). rewrite Forall_forall in Hidx.
  split; [|split].
  - intros t Ht. pose proof (Hidx t Ht) as Hi.
    apply indexOpt_Some in Hi as [H1 H2]. split; [exact H1|].
    unfold paramsOf. rewrite list_lookup_imap, H2. simpl.
    do 2 f_equal. lia.
  - intros t1 t2 Ht1 Ht2.
    pose proof (Hidx t1 Ht1) as H1. pose proof (Hidx t2 Ht2) as H2. split.
    + intros Hn. rewrite Hn in H1. congruence.
    + intros Hi. apply indexOpt_Some in H1 as [_ H1].
      apply indexOpt_Some in H2 as [_ H2]. rewrite Hi in H1. congruence.
  - replace (map p_Name (paramsOf (st_order s))) with (st_order s).
    + rewrite Hord. apply orderOf_NoDup.
    + unfold paramsOf. apply list_eq. intros j.
      rewrite map_fmap, list_lookup_fmap, list_lookup_imap.
      destruct (st_order s !! j); reflexivity.
Qed.

(** X3.  There are never more parameters than occurrences, and there
    are as many exactly when no name occurs twice. *)
Theorem parameters_count (sqlText : list ascii)
    (formatFunc : FormatParamFunc) (ps : ParsedSQL) :
  ParseSQL sqlText (Some formatFunc) = Some (ps, None) ->
  length (parameters ps) <= length (occurrences ps)
  /\ (length (parameters ps) = length (occurrences ps)
      <-> NoDup (map Name (occurrences ps))).
Proof.
  intros H. rewrite (ParseSQL_parameters _ _ _ H), orderOf_dedupFirst.
  unfold paramsOf. rewrite length_imap.
  pose proof (dedupFirst_length (map Name (occurrences ps))) as Hle.
  rewrite length_map in Hle. split; [exact Hle|]. split.
  - intros Heq. apply dedupFirst_length_eq. rewrite length_map. exact Heq.
  - intros Hnd. rewrite (dedupFirst_NoDup _ Hnd). apply length_map.
Qed.

(** ** Where the occurrences lie *)

Lemma inOrder_snoc (ts : list QueryToken) (t : QueryToken) (last c : nat) :
  inOrder last ts -> Forall (fun u => End_ u <= c) ts -> last <= c ->
  c <= Start t -> inOrder last (ts ++ [t]).
Proof.
  revert last. induction ts as [|u ts IH]; intros last Ho Hc Hl Ht; simpl.
  - split; [lia | exact I].
  - destruct Ho as [Hu Ho]. apply Forall_cons in Hc as [Hcu Hc].
    split; [exact Hu|]. apply IH; auto.
Qed.

Lemma inOrder_ge (ts : list QueryToken) (last i : nat) (t : QueryToken) :
  inOrder last ts -> Forall (fun u => Start u < End_ u) ts ->
  ts !! i = Some t -> last <= Start t.
Proof.
  revert last i. induction ts as [|u ts IH]; intros last i Ho Hp Hi;
    [discriminate|].
  destruct Ho as [Hu Ho]. apply Forall_cons in Hp as [Hpu Hp].
  destruct i as [|i]; simpl in Hi.
  - injection Hi as <-. exact Hu.
  - pose proof (IH (End_ u) i Ho Hp Hi). lia.
Qed.

Lemma inOrder_lookup (ts : list QueryToken) (last i j : nat)
    (t1 t2 : QueryToken) :
  inOrder last ts -> Forall (fun u => Start u < End_ u) ts ->
  i < j -> ts !! i = Some t1 -> ts !! j = Some t2 ->
  End_ t1 <= Start t2.
Proof.
  revert last i j. induction ts as [|u ts IH]; intros last i j Ho Hp Hij H1 H2;
    [discriminate|].
  destruct Ho as [Hu Ho]. apply Forall_cons in Hp as [Hpu Hp].
  destruct j as [|j]; [lia|]. simpl in H2.
  destruct i as [|i]; simpl in H1.
  - injection H1 as <-. exact (inOrder_ge ts (End_ u) j t2 Ho Hp H2).
  - apply (IH (End_ u) i j Ho Hp); [lia | exact H1 | exact H2].
Qed.

Lemma layoutInv_init (formatFunc : FormatParamFunc) (sqlText : list ascii) :
  layoutInv formatFunc (newParseState sqlText).
Proof.
  split; [apply tokInv_init|]. split; [exact I | constructor].
Qed.

Lemma layoutInv_step (formatFunc : FormatParamFunc) (s s' : parseState) :
  wf s -> layoutInv formatFunc s -> st_i s < st_n s ->
  dispatch formatFunc s = (s', None) -> layoutInv formatFunc s'.
Proof.
  intros Hwf (Htok & Hord & Hst) Hlt H.
  split; [exact (tokInv_step _ _ _ Hwf Htok Hlt H)|].
  destruct (dispatch_cases _ _ _ Hwf Hlt H) as [(_ & j & -> & Hj)|(E & Hv & ->)].
  - split; assumption.
  - pose proof (recognized_lists formatFunc s) as (Ht & _).
    pose proof (recognized_fields formatFunc s) as (Hsrc & _ & _).
    apply classify_Placeholder in E as (_ & _ & Hid).
    rewrite Ht, Hsrc. split.
    + apply (inOrder_snoc _ _ 0 (st_i s)); [exact Hord | | lia | simpl; lia].
      destruct Htok as [_ Htok]. eapply Forall_impl; [exact Htok|].
      intros t (_ & Ht' & _). exact Ht'.
    + apply Forall_app. split; [exact Hst|].
      constructor; [exact Hid | constructor].
Qed.

Lemma slice_cons (src : list ascii) (a b : nat) :
  a < b -> a < length src ->
  slice src a b = byteAt src a :: slice src (a + 1) b.
Proof.
  intros Hab Ha. destruct (drop_nonempty src a Ha) as (c & rest & Hd).
  destruct (byteAt_drop src a c rest Hd) as [Hc Hr].
  unfold slice. rewrite Hd, Hc. replace (a + 1) with (S a) by lia.
  rewrite Hr. replace (b - a) with (S (b - S a)) by lia. reflexivity.
Qed.

Lemma slice_length (src : list ascii) (a b : nat) :
  b <= length src -> length (slice src a b) = b - a.
Proof.
  intros H. unfold slice. rewrite length_take, length_drop. lia.
Qed.

(** The layout of the occurrences of a successful parse. *)
Lemma ParseSQL_layout (sqlText : list ascii) (formatFunc : FormatParamFunc)
    (ps : ParsedSQL) :
  ParseSQL sqlText (Some formatFunc) = Some (ps, None) ->
  inOrder 0 (occurrences ps)
  /\ Forall (fun t =>
               Start t < End_ t <= length sqlText
               /\ byteAt sqlText (Start t) = ":"
               /\ isValidIdentifierStart (byteAt sqlText (Start t + 1)) = true
               /\ Name t = slice sqlText (Start t + 1) (End_ t)
               /\ Raw t = slice sqlText (Start t) (End_ t))
       (occurrences ps).
Proof.
  intros H. destruct (ParseSQL_ok _ _ _ H) as (s & E & _ & _ & ->).
  destruct (scan_final _ _ _ _ E) as ([Hn _] & Hsrc & Hi & _ & _).
  pose proof (scanLoop_invariant formatFunc (layoutInv formatFunc)
                (layoutInv_step formatFunc) _ _ s
                (wf_newParseState sqlText) (layoutInv_init _ _) E)
    as ([_ Htok] & Hord & Hst).
  rewrite Hsrc in Htok, Hst. rewrite Hsrc in Hn.
  split; [exact Hord|].
  rewrite Forall_forall in Htok, Hst. apply Forall_forall. intros t Ht.
  destruct (Htok t Ht) as (H1 & H2 & H3 & H4 & H5 & _).
  pose proof (Hst t Ht) as H6.
  split; [lia|]. auto.
Qed.

(** X4.  In a successful parse the occurrences lie in the text one
    after the other without overlap.  Each one starts at a colon that is
    followed by an identifier start, ends within the text, has the bytes
    from its start to its end as raw text, and these are the colon and
    the name. *)
Theorem occurrences_layout (sqlText : list ascii)
    (formatFunc : FormatParamFunc) (ps : ParsedSQL) :
  ParseSQL sqlText (Some formatFunc) = Some (ps, None) ->
  (forall i j t1 t2, i < j ->
     occurrences ps !! i = Some t1 -> occurrences ps !! j = Some t2 ->
     End_ t1 <= Start t2)
  /\ Forall (fun t =>
               Start t < End_ t <= length sqlText
               /\ byteAt sqlText (Start t) = ":"
               /\ isValidIdentifierStart (byteAt sqlText (Start t + 1)) = true
               /\ Raw t = slice sqlText (Start t) (End_ t)
               /\ Raw t = ":" :: Name t
               /\ End_ t = Start t + 1 + length (Name t))
       (occurrences ps).
Proof.
  intros H. destruct (ParseSQL_layout _ _ _ H) as (Hord & Hall). split.
  - intros i j t1 t2 Hij H1 H2.
    refine (inOrder_lookup _ 0 i j t1 t2 Hord _ Hij H1 H2).
    eapply Forall_impl; [exact Hall|]. intros t (Ht & _). lia.
  - eapply Forall_impl; [exact Hall|].
    intros t (H1 & H2 & H3 & H4 & H5).
    split; [exact H1|]. split; [exact H2|]. split; [exact H3|].
    split; [exact H5|]. split.
    + rewrite H5, H4, <- H2. apply slice_cons; lia.
    + rewrite H4, slice_length by lia. lia.
Qed.

(** ** The rewritten text in terms of the occurrences *)

Lemma pieces_rewritten (formatFunc : FormatParamFunc) (src : list ascii)
    (occs : list QueryToken) (last : nat) :
  pieces src last (map (editOf formatFunc) occs)
  = rewritten formatFunc src last occs.
Proof.
  revert last. induction occs as [|t occs IH]; intros last; simpl;
    [reflexivity|].
  rewrite IH. reflexivity.
Qed.

Lemma ParseSQL_rewritten (sqlText : list ascii) (formatFunc : FormatParamFunc)
    (ps : ParsedSQL) :
  ParseSQL sqlText (Some formatFunc) = Some (ps, None) ->
  SQL ps = rewritten formatFunc sqlText 0 (occurrences ps).
Proof.
  intros H. destruct (ParseSQL_ok _ _ _ H) as (s & E & -> & _ & ->).
  destruct (scan_final _ _ _ _ E) as (_ & Hsrc & _ & [Hed _] & _).
  change (buildSQL s) with (buildFrom (st_src s) 0 (st_edits s)).
  rewrite buildFrom_pieces, Hsrc, Hed. apply pieces_rewritten.
Qed.

Lemma rewritten_length (formatFunc : FormatParamFunc) (src : list ascii)
    (occs : list QueryToken) (last : nat) :
  last <= length src -> inOrder last occs ->
  Forall (fun t => Start t < End_ t <= length src
                   /\ Raw t = slice src (Start t) (End_ t)) occs ->
  length (rewritten formatFunc src last occs)
    + list_sum (map (fun t => length (Raw t)) occs)
  = (length src - last)
    + list_sum (map (fun t => length (formatFunc (Index t))) occs).
Proof.
  unfold list_sum.
  revert last. induction occs as [|t occs IH]; intros last Hlast Hord Hall;
    cbn [rewritten map fold_right].
  - rewrite length_drop. lia.
  - destruct Hord as [Ht Hord]. apply Forall_cons in Hall as [[Hse Hraw] Hall].
    assert (End_ t <= length src) as Hend by lia.
    specialize (IH (End_ t) Hend Hord Hall).
    rewrite !length_app, Hraw, !slice_length by lia. lia.
Qed.

(** A rendering that gives back the raw text leaves the text as it is. *)
Lemma rewritten_raw (formatFunc : FormatParamFunc) (src : list ascii)
    (occs : list QueryToken) (last : nat) :
  inOrder last occs ->
  Forall (fun t => Start t < End_ t
                   /\ formatFunc (Index t) = slice src (Start t) (End_ t))
    occs ->
  rewritten formatFunc src last occs = drop last src.
Proof.
  revert last. induction occs as [|t occs IH]; intros last Hord Hall;
    cbn [rewritten]; [reflexivity|].
  destruct Hord as [Ht Hord]. apply Forall_cons in Hall as [[Hse Hf] Hall].
  rewrite (IH _ Hord Hall), Hf.
  rewrite (drop_slice src last (Start t)), (drop_slice src (Start t) (End_ t))
    by lia.
  reflexivity.
Qed.

(** X5.  The rewritten text of a successful parse is the text with
    each occurrence, and nothing else, replaced by the rendering of its
    index: the bytes before the first occurrence, [formatFunc] of its
    index, the bytes up to the next occurrence, and so on, and the bytes
    after the last one.  So its length is the length of the text, less
    the lengths of the raw placeholders, plus the lengths of their
    renderings. *)
Theorem rewritten_text (sqlText : list ascii) (formatFunc : FormatParamFunc)
    (ps : ParsedSQL) :
  ParseSQL sqlText (Some formatFunc) = Some (ps, None) ->
  SQL ps = rewritten formatFunc sqlText 0 (occurrences ps)
  /\ length (SQL ps)
       + list_sum (map (fun t => length (Raw t)) (occurrences ps))
     = length sqlText
       + list_sum (map (fun t => length (formatFunc (Index t)))
                     (occurrences ps)).
Proof.
  intros H. pose proof (ParseSQL_rewritten _ _ _ H) as Hsql.
  split; [exact Hsql|]. rewrite Hsql.
  destruct (ParseSQL_layout _ _ _ H) as (Hord & Hall).
  rewrite (rewritten_length formatFunc sqlText (occurrences ps) 0);
    [lia | lia | exact Hord |].
  eapply Forall_impl; [exact Hall|]. intros t (H1 & _ & _ & _ & H5). auto.
Qed.

(** X6.  When the format function renders every occurrence as its own
    raw text, the rewritten text is the text itself: the rewriting
    changes nothing outside the placeholders. *)
Theorem rewritten_with_raw_text (sqlText : list ascii)
    (formatFunc : FormatParamFunc) (ps : ParsedSQL) :
  ParseSQL sqlText (Some formatFunc) = Some (ps, None) ->
  (forall t, t ∈ occurrences ps -> formatFunc (Index t) = Raw t) ->
  SQL ps = sqlText.
Proof.
  intros H Hf. rewrite (ParseSQL_rewritten _ _ _ H).
  destruct (ParseSQL_layout _ _ _ H) as (Hord & Hall).
  rewrite (rewritten_raw formatFunc sqlText (occurrences ps) 0);
    [reflexivity | exact Hord |].
  rewrite Forall_forall in Hall. apply Forall_forall. intros t Ht.
  destruct (Hall t Ht) as (H1 & _ & _ & _ & H5).
  split; [lia|]. rewrite (Hf t Ht). exact H5.
Qed.

(** ** The errors of the parse operation *)

(** A scan that ends with an error has met, at some iteration, a colon
    followed by a run of name bytes that is not a valid name. *)
Lemma scanLoop_error (formatFunc : FormatParamFunc) (fuel : nat)
    (s0 s' : parseState) (e : error) :
  wf s0 -> scanLoop formatFunc fuel s0 = Some (s', Some e) ->
  exists k s,
    iterFrom formatFunc k s0 = Some s
    /\ st_i s < st_n s /\ classify s = Placeholder
    /\ isValidName (rawNameAt s) = false
    /\ e = ErrInvalidPlaceholderName (rawNameAt s) (st_i s).
Proof.
  revert s0. induction fuel as [|fuel IH]; intros s0 Hwf; cbn [scanLoop];
    [discriminate|].
  destruct (Nat.ltb_spec (st_i s0) (st_n s0)) as [Hlt|]; [|discriminate].
  pose proof (dispatch_wf formatFunc s0 Hwf Hlt) as Hwf'.
  destruct (branch_eq_dec (classify s0) Placeholder) as [E|E].
  - pose proof (dispatch_Placeholder formatFunc s0 E) as Hd.
    destruct (isValidName (rawNameAt s0)) eqn:Hv.
    + rewrite Hd in *. cbn [fst] in *. intros H.
      destruct (IH _ Hwf' H) as (k & s & Hk & Hrest).
      exists (S k), s. split; [|exact Hrest].
      cbn [iterFrom]. apply Nat.ltb_lt in Hlt. rewrite Hlt, Hd. exact Hk.
    + rewrite Hd. intros [= _ <-]. exists 0, s0. auto.
  - destruct (dispatch_skip formatFunc s0 Hwf Hlt E) as (s1 & Hd & _).
    rewrite Hd in *. cbn [fst] in *. intros H.
    destruct (IH _ Hwf' H) as (k & s & Hk & Hrest).
    exists (S k), s. split; [|exact Hrest].
    cbn [iterFrom]. apply Nat.ltb_lt in Hlt. rewrite Hlt, Hd. exact Hk.
Qed.

Lemma ParseSQL_error (sqlText : list ascii) (formatFunc : FormatParamFunc)
    (ps : ParsedSQL) (e : error) :
  ParseSQL sqlText (Some formatFunc) = Some (ps, Some e) ->
  ps = zeroParsedSQL
  /\ exists s,
       scanLoop formatFunc (S (length sqlText)) (newParseState sqlText)
       = Some (s, Some e).
Proof.
  unfold ParseSQL, ParseSQL_fuel.
  destruct (scanLoop _ _ _) as [[s [e'|]]|]; try discriminate.
  - intros [= <- <-]. eauto.
  - destruct (length (st_edits s) =? 0); [destruct (Parameters _)|];
      discriminate.
Qed.

(** X7.  Whatever error the parse operation returns, it returns the
    zero result with it, and the error is one of two: the format
    function is nil; or the text has, at the offset the error carries, a
    colon followed by an identifier start, and the name the error
    carries is the maximal run of name bytes after that colon, which is
    not a valid name. *)
Theorem parse_errors (sqlText : list ascii)
    (formatFunc : option FormatParamFunc) (ps : ParsedSQL) (e : error) :
  ParseSQL sqlText formatFunc = Some (ps, Some e) ->
  ps = zeroParsedSQL
  /\ ((formatFunc = None /\ e = ErrFormatParamFuncRequired)
      \/ exists raw off,
           formatFunc <> None
           /\ e = ErrInvalidPlaceholderName raw off
           /\ off + 1 + length raw <= length sqlText
           /\ byteAt sqlText off = ":"
           /\ isValidIdentifierStart (byteAt sqlText (off + 1)) = true
           /\ raw = slice sqlText (off + 1) (off + 1 + length raw)
           /\ Forall (fun c => isValidIdentifierChar c = true) raw
           /\ (off + 1 + length raw < length sqlText ->
               isValidIdentifierChar
                 (byteAt sqlText (off + 1 + length raw)) = false)
           /\ isValidName raw = false).
Proof.
  destruct formatFunc as [f|].
  - intros H. destruct (ParseSQL_error _ _ _ _ H) as (-> & sf & E).
    split; [reflexivity|]. right.
    destruct (scanLoop_error _ _ _ _ _ (wf_newParseState sqlText) E)
      as (k & s & Hk & Hlt & Hc & Hv & ->).
    destruct (iterFrom_progress _ _ _ _ (wf_newParseState sqlText) Hk)
      as (Hwf & _ & Hsrc).
    simpl in Hsrc. pose proof Hwf as [Hn _].
    pose proof (nameEnd_bounds s Hwf Hlt) as Hb.
    pose proof (nameEnd_stop s Hwf Hlt) as Hstop.
    pose proof (classify_Placeholder s Hc) as (Hcolon & _ & Hid).
    assert (length (rawNameAt s) = nameEnd s - (st_i s + 1)) as Hlen
      by (unfold rawNameAt; rewrite slice_length; [reflexivity | lia]).
    rewrite Hsrc in *.
    exists (rawNameAt s), (st_i s). rewrite Hlen.
    replace (st_i s + 1 + (nameEnd s - (st_i s + 1))) with (nameEnd s) by lia.
    split; [discriminate|]. split; [reflexivity|]. split; [lia|].
    split; [exact Hcolon|]. split; [exact Hid|].
    split; [unfold rawNameAt; rewrite Hsrc; reflexivity|].
    split; [apply rawNameAt_chars|]. split; [exact Hstop | exact Hv].
  - intros [= <- <-]. split; [reflexivity|]. left. auto.
Qed.

(** ** The format function only decides the replacement texts *)

Lemma classify_sameScan (s s' : parseState) :
  sameScan s s' -> classify s = classify s'.
Proof.
  intros (H1 & H2 & H3 & _). unfold classify, peek.
  rewrite H1, H2, H3. reflexivity.
Qed.

Ltac same_cursor :=
  repeat match goal with
         | |- context [if ?c then _ else _] => destruct c
         | |- context [match ?x with _ => _ end] => destruct x
         end;
  reflexivity.

(** The cursor a branch other than the recognizer leaves does not
    depend on the edits. *)
Lemma dispatch_cursor_sameScan (f g : FormatParamFunc) (s s' : parseState) :
  sameScan s s' -> classify s <> Placeholder ->
  st_i (fst (dispatch f s)) = st_i (fst (dispatch g s')).
Proof.
  intros Hs Hc. pose proof (classify_sameScan s s' Hs) as Hcl.
  destruct Hs as (H1 & H2 & H3 & _). unfold dispatch. rewrite <- Hcl.
  destruct (classify s); try congruence; cbn [fst].
  - unfold consumeDashDash. cbn [st_i st_src set_i]. rewrite H1, H3.
    reflexivity.
  - unfold consumeHashComment. rewrite H1, H3. reflexivity.
  - unfold consumeBlockComment. rewrite H1, H2, H3. same_cursor.
  - unfold consumeSingleQuoted. rewrite H1, H2, H3. reflexivity.
  - unfold consumeDoubleQuoted. rewrite H1, H3. reflexivity.
  - unfold consumeBacktick. rewrite H1, H3. reflexivity.
  - unfold consumeBracketIdent. rewrite H1, H3. reflexivity.
  - unfold consumeDollarQuoted. rewrite H1, H2, H3. same_cursor.
  - unfold consumeOracleQ. rewrite H1, H2, H3. same_cursor.
  - cbn [st_i set_i]. rewrite H3. reflexivity.
  - cbn [st_i set_i]. rewrite H3. reflexivity.
Qed.

Lemma getIndex_sameScan (s s' : parseState) (x : list ascii) :
  st_order s = st_order s' -> st_indexOf s = st_indexOf s' ->
  fst (getIndex s x) = fst (getIndex s' x)
  /\ st_order (snd (getIndex s x)) = st_order (snd (getIndex s' x))
  /\ st_indexOf (snd (getIndex s x)) = st_indexOf (snd (getIndex s' x)).
Proof.
  intros H1 H2. unfold getIndex. rewrite H1, H2.
  destruct (st_indexOf s' !! x); auto.
Qed.

Lemma dispatch_sameScan (f g : FormatParamFunc) (s s' : parseState) :
  wf s -> wf s' -> st_i s < st_n s -> sameScan s s' ->
  snd (dispatch f s) = snd (dispatch g s')
  /\ sameScan (fst (dispatch f s)) (fst (dispatch g s')).
Proof.
  intros Hwf Hwf' Hlt Hs.
  pose proof (classify_sameScan s s' Hs) as Hcl.
  pose proof Hs as (H1 & H2 & H3 & H4 & H5 & H6).
  assert (st_i s' < st_n s') as Hlt' by lia.
  destruct (branch_eq_dec (classify s) Placeholder) as [E|E].
  - assert (rawNameAt s = rawNameAt s') as Hraw
      by (unfold rawNameAt, nameEnd; rewrite H1, H3; reflexivity).
    assert (nameEnd s = nameEnd s') as Hend
      by (unfold nameEnd; rewrite H1, H3; reflexivity).
    rewrite (dispatch_Placeholder f s E).
    rewrite (dispatch_Placeholder g s') by congruence.
    rewrite <- Hraw. destruct (isValidName (rawNameAt s)); cbn [fst snd].
    + split; [reflexivity|].
      pose proof (recognized_lists f s) as (Ta & _ & Oa & Ma).
      pose proof (recognized_lists g s') as (Tb & _ & Ob & Mb).
      pose proof (recognized_fields f s) as (Sa & Na & Ia).
      pose proof (recognized_fields g s') as (Sb & Nb & Ib).
      destruct (getIndex_sameScan (set_i s (st_i s + 1))
                  (set_i s' (st_i s' + 1)) (rawNameAt s) H4 H5)
        as (G1 & G2 & G3).
      rewrite <- Hraw in Tb, Ob, Mb.
      unfold sameScan.
      rewrite Sa, Sb, Na, Nb, Ia, Ib, Oa, Ob, Ma, Mb, Ta, Tb.
      repeat split; try assumption.
      rewrite H6, G1. unfold newToken. rewrite Hraw, Hend, H1, H3.
      reflexivity.
    + split; [rewrite H3; reflexivity|].
      unfold sameScan. simpl. rewrite H3. auto 10.
  - assert (classify s' <> Placeholder) as E' by congruence.
    pose proof (dispatch_cursor_sameScan f g s s' Hs E) as Hcur.
    destruct (dispatch_skip f s Hwf Hlt E) as (s1 & D1 & j1 & -> & _).
    destruct (dispatch_skip g s' Hwf' Hlt' E') as (s2 & D2 & j2 & -> & _).
    rewrite D1, D2 in *. cbn [fst snd st_i set_i] in *. subst j2.
    split; [reflexivity|]. unfold sameScan. simpl. auto 10.
Qed.

Lemma scanLoop_sameScan (f g : FormatParamFunc) (fuel : nat)
    (s s' : parseState) r :
  wf s -> wf s' -> sameScan s s' ->
  scanLoop f fuel s = Some r ->
  exists r', scanLoop g fuel s' = Some r'
             /\ snd r = snd r' /\ sameScan (fst r) (fst r').
Proof.
  revert s s'. induction fuel as [|fuel IH]; intros s s' Hwf Hwf' Hs;
    cbn [scanLoop]; [discriminate|].
  pose proof Hs as (_ & H2 & H3 & _). rewrite <- H2, <- H3.
  destruct (Nat.ltb_spec (st_i s) (st_n s)) as [Hlt|].
  - assert (st_i s' < st_n s') as Hlt' by lia.
    pose proof (dispatch_sameScan f g s s' Hwf Hwf' Hlt Hs) as [He Hss].
    pose proof (dispatch_wf f s Hwf Hlt) as W1.
    pose proof (dispatch_wf g s' Hwf' Hlt') as W2.
    destruct (dispatch f s) as [s1 e1], (dispatch g s') as [s2 e2].
    cbn [fst snd] in *. subst e2. destruct e1 as [e|].
    + intros [= <-]. eexists. split; [reflexivity|]. auto.
    + apply IH; assumption.
  - intros [= <-]. eexists. split; [reflexivity|]. auto.
Qed.

(** X8.  The format function decides the replacement texts and nothing
    else: with two format functions the parse operation returns the same
    error or, if none, the same parameters and the same occurrences. *)
Theorem format_function_independence (sqlText : list ascii)
    (f g : FormatParamFunc) (ps1 ps2 : ParsedSQL) (e1 e2 : option error) :
  ParseSQL sqlText (Some f) = Some (ps1, e1) ->
  ParseSQL sqlText (Some g) = Some (ps2, e2) ->
  e1 = e2
  /\ parameters ps1 = parameters ps2
  /\ occurrences ps1 = occurrences ps2.
Proof.
  intros H1 H2.
  pose proof (wf_newParseState sqlText) as Hwf.
  assert (sameScan (newParseState sqlText) (newParseState sqlText)) as Hs
    by (unfold sameScan; auto 10).
  destruct e1 as [e1|].
  - destruct (ParseSQL_error _ _ _ _ H1) as (-> & s1 & E1).
    destruct (scanLoop_sameScan f g _ _ _ _ Hwf Hwf Hs E1)
      as ([s2 e2'] & E2 & He & _).
    cbn [snd] in He. subst e2'.
    unfold ParseSQL, ParseSQL_fuel in H2. rewrite E2 in H2.
    injection H2 as <- <-. auto.
  - destruct (ParseSQL_ok _ _ _ H1) as (s1 & E1 & _ & P1 & O1).
    destruct (scanLoop_sameScan f g _ _ _ _ Hwf Hwf Hs E1)
      as ([s2 e2'] & E2 & He & Hss).
    cbn [fst snd] in He, Hss. subst e2'.
    rewrite (ParseSQL_of_scan _ _ _ E2) in H2. injection H2 as <- <-.
    destruct Hss as (_ & _ & _ & Ho & _ & Ht).
    split; [reflexivity|]. simpl. rewrite P1, O1.
    unfold orderedTokens. rewrite Ho, Ht. auto.
Qed.

(** ** What the skippers skip *)

Lemma drop_nil_length (src : list ascii) (i : nat) :
  drop i src = [] -> length src <= i.
Proof.
  intros H. apply (f_equal length) in H. rewrite length_drop in H.
  simpl in H. lia.
Qed.

Lemma drop_cons_length (src : list ascii) (i : nat) (c : ascii)
    (rest : list ascii) :
  drop i src = c :: rest -> i < length src.
Proof.
  intros H. apply (f_equal length) in H. rewrite length_drop in H.
  simpl in H. lia.
Qed.

Lemma closingLoop_src (close : ascii) (src : list ascii) (i : nat) :
  i <= length src ->
  let j := closingLoop close (drop i src) i in
  i <= j <= length src
  /\ (forall k, i <= k -> k + 1 < j -> byteAt src k <> close)
  /\ ((i < j /\ byteAt src (j - 1) = close)
      \/ (j = length src
          /\ forall k, i <= k < length src -> byteAt src k <> close)).
Proof.
  remember (drop i src) as rest eqn:Hrest. symmetry in Hrest.
  revert i Hrest. induction rest as [|c rest IH]; intros i Hrest Hi;
    cbn [closingLoop].
  - apply drop_nil_length in Hrest.
    split; [lia|]. split; [intros; lia|]. right. split; [lia | intros; lia].
  - pose proof (drop_cons_length _ _ _ _ Hrest) as Hlt.
    destruct (byteAt_drop _ _ _ _ Hrest) as [Hc Hrest'].
    destruct (Ascii.eqb c close) eqn:E.
    + apply eqb_true in E. split; [lia|]. split; [intros; lia|]. left.
      split; [lia|]. replace (S i - 1) with i by lia. congruence.
    + apply eqb_false in E.
      destruct (IH (S i) Hrest' Hlt) as (Hb & Hno & Hend).
      split; [lia|]. split.
      * intros k Hk Hkj. destruct (Nat.eq_dec k i) as [->|Hne];
          [congruence | apply Hno; lia].
      * destruct Hend as [[Hj Hcl]|[Hj Hall]]; [left; split; [lia|exact Hcl]|].
        right. split; [exact Hj|]. intros k Hk.
        destruct (Nat.eq_dec k i) as [->|Hne]; [congruence | apply Hall; lia].
Qed.

Lemma closing_skipper (close : ascii) (s : parseState) :
  wf s -> st_i s < st_n s ->
  skipsToClosing (st_src s) close (st_i s)
    (closingLoop close (drop (S (st_i s)) (st_src s)) (S (st_i s))).
Proof.
  intros [Hn Hi] Hlt.
  destruct (closingLoop_src close (st_src s) (S (st_i s))) as (Hb & Hno & Hend);
    [lia|].
  split.
  - intros k Hk Hkj. apply Hno; lia.
  - destruct Hend as [[Hj Hcl]|[Hj Hall]].
    + left. split; [lia | exact Hcl].
    + right. split; [exact Hj|]. intros k Hk. apply Hall. lia.
Qed.

(** X9.  The skippers for double-quoted, backtick-quoted and
    bracket-quoted spans, entered at the opening byte, leave just past
    the first closing byte after it (a double quote, a backtick, a
    closing bracket), whatever comes before that byte, and at the end of
    the text when no closing byte follows. *)
Theorem quoted_skippers_stop_at_first_closing (s : parseState) :
  wf s -> st_i s < st_n s ->
  skipsToClosing (st_src s) "034" (st_i s) (st_i (consumeDoubleQuoted s))
  /\ skipsToClosing (st_src s) "`" (st_i s) (st_i (consumeBacktick s))
  /\ skipsToClosing (st_src s) "]" (st_i s) (st_i (consumeBracketIdent s)).
Proof.
  intros Hwf Hlt. repeat split; apply closing_skipper; assumption.
Qed.

Lemma lineLoop_src (src : list ascii) (a : nat) :
  a <= length src -> skipsToNewline src a (lineLoop (drop a src) a).
Proof.
  remember (drop a src) as rest eqn:Hrest. symmetry in Hrest.
  revert a Hrest. induction rest as [|c rest IH]; intros a Hrest Ha;
    cbn [lineLoop].
  - apply drop_nil_length in Hrest.
    split; [lia|]. split; [intros; lia | left; lia].
  - pose proof (drop_cons_length _ _ _ _ Hrest) as Hlt.
    destruct (byteAt_drop _ _ _ _ Hrest) as [Hc Hrest'].
    destruct (Ascii.eqb c "010") eqn:E; cbn [negb].
    + apply eqb_true in E. split; [lia|]. split; [intros; lia|].
      right. congruence.
    + apply eqb_false in E.
      destruct (IH (S a) Hrest' Hlt) as (Hb & Hno & Hend).
      split; [lia|]. split; [|exact Hend].
      intros k Hk. destruct (Nat.eq_dec k a) as [->|Hne];
        [congruence | apply Hno; lia].
Qed.

(** X10.  A line comment is skipped up to its newline, which is left
    for the next iteration: after [#] the cursor is at the first newline
    after the [#], after [--] at the first newline after the two dashes,
    and at the end of the text when there is no newline. *)
Theorem line_comments_stop_at_newline (formatFunc : FormatParamFunc)
    (s : parseState) :
  wf s -> st_i s < st_n s ->
  (classify s = HashComment ->
   skipsToNewline (st_src s) (st_i s + 1)
     (st_i (fst (dispatch formatFunc s))))
  /\ (classify s = DashDash ->
      skipsToNewline (st_src s) (st_i s + 2)
        (st_i (fst (dispatch formatFunc s)))).
Proof.
  intros [Hn Hi] Hlt. unfold dispatch. split; intros Hc; rewrite Hc;
    cbn [fst].
  - unfold consumeHashComment. cbn [st_i set_i].
    replace (S (st_i s)) with (st_i s + 1) by lia.
    apply lineLoop_src. lia.
  - apply classify_DashDash in Hc.
    unfold consumeDashDash. cbn [st_i st_src set_i].
    apply lineLoop_src. lia.
Qed.

Lemma blockLoop1_src (src : list ascii) (a : nat) :
  a <= length src ->
  let r := blockLoop1 (drop a src) a in
  a <= fst r <= length src
  /\ (snd r = true ->
      a + 2 <= fst r /\ closesComment src (fst r - 2)
      /\ forall k, a <= k -> k + 2 < fst r -> ~ closesComment src k)
  /\ (snd r = false ->
      length src <= fst r + 1
      /\ forall k, a <= k -> k + 1 < length src -> ~ closesComment src k).
Proof.
  remember (drop a src) as rest eqn:Hrest. symmetry in Hrest.
  revert a Hrest. induction rest as [|c rest IH]; intros a Hrest Ha.
  - apply drop_nil_length in Hrest. simpl.
    split; [lia|]. split; [discriminate|]. intros _. split; [lia | intros; lia].
  - pose proof (drop_cons_length _ _ _ _ Hrest) as Hlt.
    destruct (byteAt_drop _ _ _ _ Hrest) as [Hc Hrest'].
    destruct rest as [|c' rest'].
    + apply drop_nil_length in Hrest'. simpl.
      split; [lia|]. split; [discriminate|]. intros _.
      split; [lia | intros; lia].
    + destruct (byteAt_drop _ _ _ _ Hrest') as [Hc' _].
      pose proof (drop_cons_length _ _ _ _ Hrest') as Hlt'.
      assert ((c = "*" /\ c' = "/"
               /\ blockLoop1 (c :: c' :: rest') a = (a + 2, true))
              \/ (blockLoop1 (c :: c' :: rest') a
                  = blockLoop1 (c' :: rest') (S a)
                  /\ ~ closesComment src a)) as [(E1 & E2 & Hr)|[Hr Hnot]].
      { cbn [blockLoop1]. unfold closesComment.
        replace (a + 1) with (S a) by lia. rewrite Hc, Hc'.
        destruct (Ascii.eqb c "*") eqn:E1; cbn [negb].
        - destruct (Ascii.eqb c' "/") eqn:E2; cbn [negb].
          + left. apply eqb_true in E1, E2. auto.
          + right. apply eqb_false in E2. split; [reflexivity | tauto].
        - right. apply eqb_false in E1. split; [reflexivity | tauto]. }
      * cbv zeta. rewrite Hr. cbn [fst snd].
        split; [lia|]. split; [|discriminate]. intros _.
        split; [lia|]. split; [|intros; lia].
        unfold closesComment. replace (a + 2 - 2) with a by lia.
        replace (a + 1) with (S a) by lia. split; congruence.
      * cbv zeta. rewrite Hr.
        destruct (IH (S a) Hrest' Hlt) as (Hb & Htrue & Hfalse).
        split; [lia|]. split.
        -- intros Hs. destruct (Htrue Hs) as (H1 & H2 & H3).
           split; [lia|]. split; [exact H2|].
           intros k Hk Hkj. destruct (Nat.eq_dec k a) as [->|Hne];
             [exact Hnot | apply H3; lia].
        -- intros Hs. destruct (Hfalse Hs) as (H1 & H2).
           split; [exact H1|].
           intros k Hk Hkl. destruct (Nat.eq_dec k a) as [->|Hne];
             [exact Hnot | apply H2; lia].
Qed.

Lemma blockLoop2_short (rest : list ascii) (i : nat) :
  length rest <= 1 -> blockLoop2 rest i = (i, false).
Proof.
  destruct rest as [|c [|c' rest]]; simpl; [reflexivity | reflexivity | lia].
Qed.

Lemma consumeBlockComment_span (s : parseState) :
  wf s -> classify s = BlockComment ->
  let j := st_i (consumeBlockComment s) in
  (st_i s + 4 <= j <= st_n s
   /\ closesComment (st_src s) (j - 2)
   /\ forall k, st_i s + 2 <= k -> k + 2 < j -> ~ closesComment (st_src s) k)
  \/ (j = st_n s
      /\ forall k, st_i s + 2 <= k -> k + 1 < st_n s ->
                   ~ closesComment (st_src s) k).
Proof.
  intros [Hn Hi] Hc. apply classify_BlockComment in Hc.
  unfold consumeBlockComment.
  destruct (blockLoop1_src (st_src s) (st_i s + 2)) as (Hb & Htrue & Hfalse);
    [lia|].
  destruct (blockLoop1 (drop (st_i s + 2) (st_src s)) (st_i s + 2))
    as [i1 [|]]; cbn [fst snd] in *.
  - left. destruct (Htrue eq_refl) as (H1 & H2 & H3). cbn [st_i set_i].
    split; [lia|]. auto.
  - right. destruct (Hfalse eq_refl) as (H1 & H2).
    rewrite blockLoop2_short by (rewrite length_drop; lia).
    cbn [st_i set_i]. split; [reflexivity|]. rewrite Hn. exact H2.
Qed.

(** X11.  A block comment, entered at its [/*], is skipped up to and
    with the first [*/] that begins at least two bytes further on (so
    the [/] of [/*/] ends nothing), and up to the end of the text when
    there is none. *)
Theorem block_comment_skipped_to_first_end (s : parseState) :
  wf s -> classify s = BlockComment ->
  let j := st_i (consumeBlockComment s) in
  (st_i s + 4 <= j <= st_n s
   /\ closesComment (st_src s) (j - 2)
   /\ forall k, st_i s + 2 <= k -> k + 2 < j -> ~ closesComment (st_src s) k)
  \/ (j = st_n s
      /\ forall k, st_i s + 2 <= k -> k + 1 < st_n s ->
                   ~ closesComment (st_src s) k).
Proof. exact (consumeBlockComment_span s). Qed.

Lemma spaceLoop_src (src : list ascii) (a : nat) :
  a <= length src ->
  let w := spaceLoop (drop a src) a in
  a <= w <= length src
  /\ (forall k, a <= k < w -> unicode.IsSpace (rune (byteAt src k)) = true)
  /\ (w = length src \/ unicode.IsSpace (rune (byteAt src w)) = false).
Proof.
  remember (drop a src) as rest eqn:Hrest. symmetry in Hrest.
  revert a Hrest. induction rest as [|c rest IH]; intros a Hrest Ha;
    cbn [spaceLoop].
  - apply drop_nil_length in Hrest.
    split; [lia|]. split; [intros; lia | left; lia].
  - pose proof (drop_cons_length _ _ _ _ Hrest) as Hlt.
    destruct (byteAt_drop _ _ _ _ Hrest) as [Hc Hrest'].
    destruct (unicode.IsSpace (rune c)) eqn:E.
    + destruct (IH (S a) Hrest' Hlt) as (Hb & Hsp & Hend).
      split; [lia|]. split; [|exact Hend].
      intros k Hk. destruct (Nat.eq_dec k a) as [->|Hne];
        [congruence | apply Hsp; lia].
    + split; [lia|]. split; [intros; lia|]. right. congruence.
Qed.

Lemma oracleLoop_src (cl : ascii) (src : list ascii) (a : nat) :
  a <= length src ->
  match oracleLoop cl (drop a src) a with
  | Some j =>
      exists p, j = p + 2 /\ a <= p /\ p + 1 < length src
                /\ byteAt src p = cl /\ byteAt src (p + 1) = "'"
                /\ forall k, a <= k < p ->
                     ~ (byteAt src k = cl /\ byteAt src (k + 1) = "'")
  | None =>
      forall k, a <= k -> k + 1 < length src ->
                ~ (byteAt src k = cl /\ byteAt src (k + 1) = "'")
  end.
Proof.
  remember (drop a src) as rest eqn:Hrest. symmetry in Hrest.
  revert a Hrest. induction rest as [|c rest IH]; intros a Hrest Ha.
  - apply drop_nil_length in Hrest. simpl. intros; lia.
  - pose proof (drop_cons_length _ _ _ _ Hrest) as Hlt.
    destruct (byteAt_drop _ _ _ _ Hrest) as [Hc Hrest'].
    specialize (IH (S a) Hrest' Hlt).
    assert (forall r : option nat,
              match oracleLoop cl rest (S a) with
              | Some j => r = Some j
              | None => r = None
              end ->
              ~ (byteAt src a = cl /\ byteAt src (a + 1) = "'") ->
              match r with
              | Some j =>
                  exists p, j = p + 2 /\ a <= p /\ p + 1 < length src
                            /\ byteAt src p = cl /\ byteAt src (p + 1) = "'"
                            /\ forall k, a <= k < p ->
                                 ~ (byteAt src k = cl
                                    /\ byteAt src (k + 1) = "'")
              | None =>
                  forall k, a <= k -> k + 1 < length src ->
                            ~ (byteAt src k = cl /\ byteAt src (k + 1) = "'")
              end) as Hrec.
    { intros r Hr Hnot. destruct (oracleLoop cl rest (S a)) as [j|]; subst r.
      - destruct IH as (p & -> & Hp & Hp1 & Hp2 & Hp3 & Hp4).
        exists p. split; [reflexivity|]. split; [lia|].
        split; [exact Hp1|]. split; [exact Hp2|]. split; [exact Hp3|].
        intros k Hk. destruct (Nat.eq_dec k a) as [->|Hne];
          [exact Hnot | apply Hp4; lia].
      - intros k Hk Hkl. destruct (Nat.eq_dec k a) as [->|Hne];
          [exact Hnot | apply IH; lia]. }
    cbn [oracleLoop]. destruct (Ascii.eqb c cl) eqn:E.
    + apply eqb_true in E. destruct rest as [|c' rest'].
      * apply drop_nil_length in Hrest'. intros; lia.
      * destruct (byteAt_drop _ _ _ _ Hrest') as [Hc' _].
        pose proof (drop_cons_length _ _ _ _ Hrest') as Hlt'.
        replace (S a) with (a + 1) in Hc' by lia.
        destruct (Ascii.eqb c' "'") eqn:E'; cbn [negb].
        -- apply eqb_true in E'. exists a. split; [reflexivity|].
           split; [lia|]. split; [lia|]. split; [congruence|].
           split; [congruence | intros; lia].
        -- apply eqb_false in E'. apply Hrec.
           ++ destruct (oracleLoop cl (c' :: rest') (S a)); reflexivity.
           ++ intros [_ H]. congruence.
    + apply eqb_false in E. apply Hrec.
      * destruct (oracleLoop cl rest (S a)); reflexivity.
      * intros [H _]. congruence.
Qed.

Lemma consumeOracleQ_span (s : parseState) :
  wf s -> st_i s < st_n s ->
  let src := st_src s in
  let j := st_i (consumeOracleQ s) in
  ((forall w, ~ quoteAfterSpaces src (st_i s) w) /\ j = st_i s + 1)
  \/ exists w,
       quoteAfterSpaces src (st_i s) w
       /\ ((exists p, w + 1 < p /\ p + 1 < st_n s
                      /\ closesOracle src (w + 1) p
                      /\ (forall k, w + 1 < k < p ->
                                    ~ closesOracle src (w + 1) k)
                      /\ j = p + 2)
           \/ ((forall k, w + 1 < k -> k + 1 < st_n s ->
                          ~ closesOracle src (w + 1) k)
               /\ j = st_n s)).
Proof.
  intros [Hn Hi] Hlt src j. subst src j. unfold consumeOracleQ.
  destruct (Nat.leb_spec (st_n s) (st_i s + 1)) as [Hshort|Hlong].
  { left. split; [|reflexivity]. intros w (_ & Hw & _). lia. }
  destruct (negb (Ascii.eqb (byteAt (st_src s) (st_i s + 1)) "'")
            && negb (Ascii.eqb (byteAt (st_src s) (st_i s + 1)) " ")) eqn:E1.
  { left. split; [|reflexivity]. intros w ([H|H] & _);
      rewrite H in E1; discriminate E1. }
  assert (byteAt (st_src s) (st_i s + 1) = "'"
          \/ byteAt (st_src s) (st_i s + 1) = " ") as Hfirst.
  { apply andb_false_iff in E1 as [E|E]; apply negb_false_iff, eqb_true in E;
      auto. }
  destruct (spaceLoop_src (st_src s) (st_i s + 1)) as (Hb & Hsp & Hstop);
    [lia|].
  set (w0 := spaceLoop (drop (st_i s + 1) (st_src s)) (st_i s + 1)) in *.
  assert (forall w, quoteAfterSpaces (st_src s) (st_i s) w -> w = w0) as Huniq.
  { intros w (_ & Hw & Hws & Hwq).
    destruct (Nat.lt_trichotomy w w0) as [Hl|[He|Hg]]; [|exact He|].
    - specialize (Hsp w). rewrite Hwq in Hsp. discriminate Hsp. lia.
    - destruct Hstop as [Hs|Hs]; [lia|].
      rewrite Hws in Hs by lia. discriminate Hs. }
  destruct (Nat.leb_spec (st_n s) w0) as [Hend|Hin]; cbn [orb].
  { left. split; [|reflexivity]. intros w Hw.
    pose proof (Huniq w Hw). destruct Hw as (_ & Hw & _). lia. }
  destruct (Ascii.eqb (byteAt (st_src s) w0) "'") eqn:Eq; cbn [negb].
  2:{ left. split; [|reflexivity]. intros w Hw.
      pose proof (Huniq w Hw). subst w. destruct Hw as (_ & _ & _ & Hw).
      rewrite Hw in Eq. discriminate Eq. }
  apply eqb_true in Eq. right. exists w0.
  split; [split; [exact Hfirst|]; split; [lia|]; split; [exact Hsp|exact Eq]|].
  destruct (Nat.leb_spec (st_n s) (w0 + 1)) as [Hnd|Hd].
  { right. split; [intros; lia | reflexivity]. }
  pose proof (oracleLoop_src (closingDelimiter (byteAt (st_src s) (w0 + 1)))
                (st_src s) (w0 + 1 + 1)) as Ho.
  destruct (oracleLoop _ _ _) as [j|].
  - destruct Ho as (p & -> & Hp & Hp1 & Hp2 & Hp3 & Hp4); [lia|].
    left. exists p. split; [lia|]. split; [lia|].
    split; [split; assumption|]. split; [|reflexivity].
    intros k Hk. apply Hp4. lia.
  - right. split; [|reflexivity]. intros k Hk Hkl. apply Ho; lia.
Qed.

(** X12.  The Oracle-quote skipper, entered at a [q] at offset [i].
    When the [q] is not followed by a quote, or by a space and then
    white space up to a quote, the skipper moves past the [q] alone.
    Otherwise, with the quote at [w] and the delimiter after it, the
    skipper leaves just past the first closing delimiter followed by a
    quote, searched from two bytes after [w] on, and at the end of the
    text when there is none. *)
Theorem oracle_quote_skipper (s : parseState) :
  wf s -> st_i s < st_n s ->
  let src := st_src s in
  let j := st_i (consumeOracleQ s) in
  ((forall w, ~ quoteAfterSpaces src (st_i s) w) /\ j = st_i s + 1)
  \/ exists w,
       quoteAfterSpaces src (st_i s) w
       /\ ((exists p, w + 1 < p /\ p + 1 < st_n s
                      /\ closesOracle src (w + 1) p
                      /\ (forall k, w + 1 < k < p ->
                                    ~ closesOracle src (w + 1) k)
                      /\ j = p + 2)
           \/ ((forall k, w + 1 < k -> k + 1 < st_n s ->
                          ~ closesOracle src (w + 1) k)
               /\ j = st_n s)).
Proof. exact (consumeOracleQ_span s). Qed.

Lemma hasPrefix_take (s sub : list ascii) :
  hasPrefix s sub = true <-> take (length sub) s = sub.
Proof.
  revert s. induction sub as [|c sub IH]; intros s.
  - destruct s; simpl; split; reflexivity.
  - destruct s as [|d s]; simpl; [split; discriminate|].
    rewrite andb_true_iff, IH, Ascii.eqb_eq. split.
    + intros [-> ->]. reflexivity.
    + intros [= -> H]. rewrite H. auto.
Qed.

(** [strings.Index]: the first offset at which [sub] occurs. *)
Lemma stringsIndex_first (s sub : list ascii) :
  match stringsIndex s sub with
  | Some k => occursAt s k sub /\ forall k', k' < k -> ~ occursAt s k' sub
  | None => forall k', ~ occursAt s k' sub
  end.
Proof.
  unfold occursAt. induction s as [|d s IH]; cbn [stringsIndex].
  - destruct (hasPrefix [] sub) eqn:E.
    + apply hasPrefix_take in E. split; [exact E | intros; lia].
    + intros k' H. rewrite drop_nil in H. apply hasPrefix_take in H. congruence.
  - destruct (hasPrefix (d :: s) sub) eqn:E.
    + apply hasPrefix_take in E. split; [exact E | intros; lia].
    + assert (take (length sub) (d :: s) <> sub) as Hnot
        by (intros H; apply hasPrefix_take in H; congruence).
      destruct (stringsIndex s sub) as [k|]; simpl.
      * destruct IH as [Hk Hfirst]. split; [exact Hk|].
        intros [|k'] Hlt; [exact Hnot | apply Hfirst; lia].
      * intros [|k']; [exact Hnot | apply IH].
Qed.

Lemma dollarTagLoop_src (src : list ascii) (a : nat) :
  a <= length src ->
  exists e,
    a <= e <= length src
    /\ (forall k, a <= k < e ->
          isTagByte (byteAt src k) = true /\ byteAt src k <> "$")
    /\ ((e = length src /\ dollarTagLoop (drop a src) a = Some e)
        \/ (e < length src /\ byteAt src e = "$"
            /\ dollarTagLoop (drop a src) a = Some (e + 1))
        \/ (e < length src /\ byteAt src e <> "$"
            /\ isTagByte (byteAt src e) = false
            /\ dollarTagLoop (drop a src) a = None)).
Proof.
  remember (drop a src) as rest eqn:Hrest. symmetry in Hrest.
  revert a Hrest. induction rest as [|c rest IH]; intros a Hrest Ha;
    cbn [dollarTagLoop].
  - apply drop_nil_length in Hrest. exists a.
    split; [lia|]. split; [intros; lia|]. left. split; [lia | reflexivity].
  - pose proof (drop_cons_length _ _ _ _ Hrest) as Hlt.
    destruct (byteAt_drop _ _ _ _ Hrest) as [Hc Hrest'].
    destruct (Ascii.eqb c "$") eqn:E.
    + apply eqb_true in E. exists a. split; [lia|]. split; [intros; lia|].
      right. left. split; [lia|]. split; [congruence|].
      f_equal. lia.
    + apply eqb_false in E.
      replace (negb (Ascii.eqb c "_")
               && negb (unicode.IsLetter wideLetter (rune c))
               && negb (unicode.IsDigit wideDigit (rune c)))
        with (negb (isTagByte c))
        by (unfold isTagByte; rewrite !negb_orb; reflexivity).
      destruct (isTagByte c) eqn:Et; cbn [negb].
      * destruct (IH (S a) Hrest' Hlt) as (e & He & Htag & Hcase).
        exists e. split; [lia|]. split; [|exact Hcase].
        intros k Hk. destruct (Nat.eq_dec k a) as [->|Hne];
          [rewrite Hc; auto | apply Htag; lia].
      * exists a. split; [lia|]. split; [intros; lia|].
        right. right. rewrite Hc. auto.
Qed.

Lemma consumeDollarQuoted_span (s : parseState) :
  wf s -> st_i s < st_n s ->
  let src := st_src s in
  let i := st_i s in
  let j := st_i (consumeDollarQuoted s) in
  exists e,
    i + 1 <= e <= st_n s
    /\ (forall k, i + 1 <= k < e ->
          isTagByte (byteAt src k) = true /\ byteAt src k <> "$")
    /\ ((e = st_n s /\ j = st_n s)
        \/ (e < st_n s /\ byteAt src e <> "$"
            /\ isTagByte (byteAt src e) = false /\ j = i + 1)
        \/ (e < st_n s /\ byteAt src e = "$"
            /\ let tag := slice src i (e + 1) in
               (exists q, e + 1 <= q /\ occursAt src q tag
                          /\ (forall q', e + 1 <= q' < q ->
                                         ~ occursAt src q' tag)
                          /\ j = q + length tag /\ j <= st_n s)
               \/ ((forall q, e + 1 <= q -> ~ occursAt src q tag)
                   /\ j = st_n s))).
Proof.
  intros [Hn Hi] Hlt src i j. subst src i j. unfold consumeDollarQuoted.
  destruct (dollarTagLoop_src (st_src s) (S (st_i s)))
    as (e & He & Htag & Hcase); [lia|].
  exists e. split; [lia|]. split; [intros k Hk; apply Htag; lia|].
  destruct Hcase as [[He1 Hr]|[(He1 & Hd & Hr)|(He1 & Hd & Ht & Hr)]];
    rewrite Hr.
  - left. split; [lia|].
    destruct (Nat.ltb_spec (st_n s) e); [reflexivity|].
    destruct (stringsIndex _ _) as [idx|] eqn:Ex; [|reflexivity].
    apply stringsIndex_bounds in Ex.
    rewrite length_drop in Ex. unfold slice in Ex.
    rewrite length_take, length_drop in Ex. lia.
  - right. right. split; [lia|]. split; [exact Hd|]. cbv zeta.
    destruct (Nat.ltb_spec (st_n s) (e + 1)); [lia|].
    pose proof (stringsIndex_first (drop (e + 1) (st_src s))
                  (slice (st_src s) (st_i s) (e + 1))) as Hfirst.
    destruct (stringsIndex _ _) as [idx|] eqn:Ex.
    + apply stringsIndex_bounds in Ex. rewrite length_drop in Ex.
      destruct Hfirst as [Hocc Hmin]. left. exists (e + 1 + idx).
      unfold occursAt in *. rewrite drop_drop in Hocc.
      split; [lia|]. split; [exact Hocc|]. split.
      * intros q' Hq' Hocc'. apply (Hmin (q' - (e + 1))); [lia|].
        rewrite drop_drop. replace (e + 1 + (q' - (e + 1))) with q' by lia.
        exact Hocc'.
      * cbn [st_i set_i]. split; lia.
    + right. split; [|reflexivity]. intros q Hq Hocc.
      apply (Hfirst (q - (e + 1))). unfold occursAt in *.
      rewrite drop_drop. replace (e + 1 + (q - (e + 1))) with q by lia.
      exact Hocc.
  - right. left. split; [lia|]. split; [exact Hd|]. split; [exact Ht|].
    cbn [st_i set_i]. lia.
Qed.

(** X13.  The dollar-quote skipper, entered at a [$] at offset [i],
    reads tag bytes (underscore, letter, digit) up to some offset [e].
    If the text ends there, it leaves at the end of the text.  If the
    byte at [e] is neither a tag byte nor a [$], it moves past the first
    [$] alone.  If the byte at [e] is a [$], the tag is the text from [i]
    to that [$] included, and the skipper leaves just past the first
    occurrence of the tag after it, or at the end of the text when the
    tag does not occur again. *)
Theorem dollar_quote_skipper (s : parseState) :
  wf s -> st_i s < st_n s ->
  let src := st_src s in
  let i := st_i s in
  let j := st_i (consumeDollarQuoted s) in
  exists e,
    i + 1 <= e <= st_n s
    /\ (forall k, i + 1 <= k < e ->
          isTagByte (byteAt src k) = true /\ byteAt src k <> "$")
    /\ ((e = st_n s /\ j = st_n s)
        \/ (e < st_n s /\ byteAt src e <> "$"
            /\ isTagByte (byteAt src e) = false /\ j = i + 1)
        \/ (e < st_n s /\ byteAt src e = "$"
            /\ let tag := slice src i (e + 1) in
               (exists q, e + 1 <= q /\ occursAt src q tag
                          /\ (forall q', e + 1 <= q' < q ->
                                         ~ occursAt src q' tag)
                          /\ j = q + length tag /\ j <= st_n s)
               \/ ((forall q, e + 1 <= q -> ~ occursAt src q tag)
                   /\ j = st_n s))).
Proof. exact (consumeDollarQuoted_span s). Qed.

(** ** The validator accepts the grammar of names *)

Lemma ascii_letter (c : ascii) :
  (N_of_ascii c <? 128)%N = true ->
  isLetterOrUnderscore (rune c) = isValidIdentifierStart c
  /\ isLetterDigitOrUnderscore (rune c) = identByte c.
Proof.
  destruct c as [[] [] [] [] [] [] [] []]; intros H;
    solve [discriminate H | split; reflexivity].
Qed.

Lemma drop_byteAt (s : list ascii) (i : nat) :
  i < length s -> drop i s = byteAt s i :: drop (S i) s.
Proof.
  intros H. destruct (drop_nonempty s i H) as (c & rest & Hd).
  destruct (byteAt_drop s i c rest Hd) as [-> ->]. exact Hd.
Qed.

Lemma asciiOnly_byteAt (s : list ascii) (i : nat) :
  asciiOnly s -> i < length s -> (N_of_ascii (byteAt s i) <? 128)%N = true.
Proof.
  intros Hs Hi. unfold asciiOnly in Hs. rewrite Forall_forall in Hs.
  apply Hs, byteAt_elem, Hi.
Qed.

Lemma utf8At_low (s : list ascii) (i : nat) :
  (N_of_ascii (byteAt s i) <? 128)%N = true ->
  utf8At s i = (rune (byteAt s i), 1).
Proof. intros H. unfold utf8At. rewrite H. reflexivity. Qed.

Lemma identRun_take (rest : list ascii) :
  Forall (fun b => identByte b = true) (take (identRun rest) rest).
Proof.
  induction rest as [|c rest IH]; simpl; [constructor|].
  destruct (identByte c) eqn:E; simpl; constructor; assumption.
Qed.

Lemma identRun_app (l t : list ascii) :
  Forall (fun b => identByte b = true) l ->
  identRun (l ++ t) = length l + identRun t.
Proof.
  induction l as [|c l IH]; intros H; simpl; [reflexivity|].
  apply Forall_cons in H as [-> H]. rewrite (IH H). reflexivity.
Qed.

Lemma identRun_le (rest : list ascii) : identRun rest <= length rest.
Proof.
  induction rest as [|c rest IH]; simpl; [lia|].
  destruct (identByte c); simpl; lia.
Qed.

Lemma digitRun_take (rest : list ascii) :
  Forall (fun b => digitByte b = true) (take (digitRun rest) rest).
Proof.
  induction rest as [|c rest IH]; simpl; [constructor|].
  destruct (digitByte c) eqn:E; simpl; constructor; assumption.
Qed.

Lemma digitRun_app (d t : list ascii) :
  Forall (fun b => digitByte b = true) d ->
  digitRun (d ++ t) = length d + digitRun t.
Proof.
  induction d as [|c d IH]; intros H; simpl; [reflexivity|].
  apply Forall_cons in H as [-> H]. rewrite (IH H). reflexivity.
Qed.

Lemma digitRun_le (rest : list ascii) : digitRun rest <= length rest.
Proof.
  induction rest as [|c rest IH]; simpl; [lia|].
  destruct (digitByte c); simpl; lia.
Qed.

Lemma SelectorTail_head (t : list ascii) :
  SelectorTail t -> identRun t = 0.
Proof. intros [| |]; reflexivity. Qed.

Section AsciiNames.

Variable s : list ascii.
Hypothesis s_ascii : asciiOnly s.

Lemma readIdentLoop_run (fuel i : nat) :
  length s - i <= fuel ->
  readIdentLoop fuel s i = i + identRun (drop i s).
Proof.
  revert i. induction fuel as [|fuel IH]; intros i H; cbn [readIdentLoop].
  - rewrite drop_ge by lia. simpl. lia.
  - destruct (Nat.ltb_spec i (length s)) as [Hlt|Hge].
    + pose proof (asciiOnly_byteAt s i s_ascii Hlt) as Hlow.
      rewrite (utf8At_low s i Hlow), (drop_byteAt s i Hlt).
      cbn [identRun]. rewrite (proj2 (ascii_letter _ Hlow)).
      destruct (identByte (byteAt s i)); [|lia].
      rewrite IH by lia. replace (i + 1) with (S i) by lia. lia.
    + rewrite drop_ge by lia. simpl. lia.
Qed.

Lemma readIdent_run (i : nat) :
  readIdent s i =
    match drop i s with
    | c :: rest =>
        if isValidIdentifierStart c then (true, i + 1 + identRun rest)
        else (false, i)
    | [] => (false, i)
    end.
Proof.
  unfold readIdent. destruct (Nat.leb_spec (length s) i) as [Hge|Hlt].
  - rewrite drop_ge by lia. reflexivity.
  - pose proof (asciiOnly_byteAt s i s_ascii Hlt) as Hlow.
    rewrite (utf8At_low s i Hlow), (drop_byteAt s i Hlt).
    rewrite (proj1 (ascii_letter _ Hlow)).
    destruct (isValidIdentifierStart (byteAt s i)); cbn [negb]; [|reflexivity].
    rewrite readIdentLoop_run by lia.
    replace (i + 1) with (S i) by lia. reflexivity.
Qed.

Lemma readDigitsLoop_run (rest : list ascii) (i : nat) :
  readDigitsLoop rest i = i + digitRun rest.
Proof.
  revert i. induction rest as [|c rest IH]; intros i;
    cbn [readDigitsLoop digitRun]; [lia|].
  replace (negb (ble "0" c) || negb (ble c "9")) with (negb (digitByte c))
    by (unfold digitByte; rewrite negb_andb; reflexivity).
  destruct (digitByte c); cbn [negb]; [rewrite IH; lia | lia].
Qed.

Lemma readDigits_run (i : nat) :
  readDigits s i =
    if digitRun (drop i s) =? 0 then (false, i)
    else (true, i + digitRun (drop i s)).
Proof.
  unfold readDigits. destruct (Nat.leb_spec (length s) i) as [Hge|Hlt].
  - rewrite drop_ge by lia. reflexivity.
  - rewrite readDigitsLoop_run.
    destruct (Nat.eqb_spec (digitRun (drop i s)) 0) as [E|E].
    + rewrite E. replace (i + 0) with i by lia. rewrite Nat.eqb_refl.
      reflexivity.
    + destruct (Nat.eqb_spec (i + digitRun (drop i s)) i); [lia|reflexivity].
Qed.

(** What the loop of the validator accepts from offset [i] on is a
    sequence of segments. *)
Lemma nameLoop_sound (fuel i : nat) :
  i <= length s -> nameLoop fuel s i = true -> SelectorTail (drop i s).
Proof.
  revert i. induction fuel as [|fuel IH]; intros i Hi; cbn [nameLoop].
  - intros H. apply Nat.leb_le in H. rewrite drop_ge by lia. constructor.
  - destruct (Nat.ltb_spec i (length s)) as [Hlt|Hge];
      [|intros _; rewrite drop_ge by lia; constructor].
    rewrite (drop_byteAt s i Hlt).
    destruct (Ascii.eqb (byteAt s i) ".") eqn:Edot.
    + apply eqb_true in Edot. rewrite Edot, readIdent_run.
      replace (i + 1) with (S i) by lia.
      destruct (drop (S i) s) as [|c rest] eqn:Hd; [discriminate|].
      destruct (isValidIdentifierStart c) eqn:Hc; cbn [negb]; [|discriminate].
      intros H. pose proof (identRun_le rest) as Hle.
      assert (S i + 1 + identRun rest <= length s) as Hb.
      { apply (f_equal length) in Hd. rewrite length_drop in Hd.
        simpl in Hd. lia. }
      apply IH in H; [|exact Hb].
      replace (drop (S i + 1 + identRun rest) s)
        with (drop (identRun rest) rest) in H.
      * rewrite <- (take_drop (identRun rest) rest).
        apply tail_dot; [exact Hc | apply identRun_take | exact H].
      * replace (S i + 1 + identRun rest) with (S i + (1 + identRun rest))
          by lia.
        rewrite <- drop_drop, Hd. reflexivity.
    + destruct (Ascii.eqb (byteAt s i) "[") eqn:Eopen; [|discriminate].
      apply eqb_true in Eopen. rewrite Eopen, readDigits_run.
      replace (i + 1) with (S i) by lia.
      set (rest := drop (S i) s). set (r := digitRun rest).
      destruct (Nat.eqb_spec r 0) as [E0|E0]; cbn [negb]; [discriminate|].
      destruct (Nat.leb_spec (length s) (S i + r)) as [|Hin]; cbn [orb];
        [discriminate|].
      destruct (Ascii.eqb (byteAt s (S i + r)) "]") eqn:Eclose; cbn [negb];
        [|discriminate].
      apply eqb_true in Eclose. intros H.
      apply IH in H; [|lia].
      assert (drop r rest = "]" :: drop (S i + r + 1) s) as Hrest.
      { unfold rest. rewrite drop_drop, (drop_byteAt s (S i + r) Hin), Eclose.
        do 2 f_equal. lia. }
      rewrite <- (take_drop r rest), Hrest.
      apply tail_index; [| apply digitRun_take | exact H].
      intros Hnil. apply (f_equal length) in Hnil.
      rewrite length_take in Hnil. simpl in Hnil.
      pose proof (digitRun_le rest). fold r in H0. lia.
Qed.

Lemma nameLoop_complete (t : list ascii) :
  SelectorTail t ->
  forall fuel i, drop i s = t -> i <= length s -> length s - i <= fuel ->
                 nameLoop fuel s i = true.
Proof.
  induction 1 as [|c l t Hc Hl Ht IH|d t Hd Hds Ht IH];
    intros fuel i Hdrop Hi Hfuel.
  - apply drop_nil_length in Hdrop.
    destruct fuel as [|fuel]; cbn [nameLoop].
    + apply Nat.leb_le. lia.
    + destruct (Nat.ltb_spec i (length s)); [lia | reflexivity].
  - pose proof (drop_cons_length _ _ _ _ Hdrop) as Hlt.
    destruct (byteAt_drop _ _ _ _ Hdrop) as [Hb Hdrop'].
    assert (length s - i = S (S (length l + length t))) as Hlen.
    { apply (f_equal length) in Hdrop. rewrite length_drop in Hdrop.
      simpl in Hdrop. rewrite length_app in Hdrop. lia. }
    destruct fuel as [|fuel]; [lia|]. cbn [nameLoop].
    apply Nat.ltb_lt in Hlt. rewrite Hlt, Hb. cbn [Ascii.eqb Bool.eqb andb].
    rewrite readIdent_run. replace (i + 1) with (S i) by lia.
    rewrite Hdrop', Hc. cbn [negb].
    rewrite (identRun_app l t Hl), (SelectorTail_head t Ht).
    apply IH; [|lia|lia].
    replace (S i + 1 + (length l + 0)) with (S i + (1 + length l)) by lia.
    rewrite <- drop_drop, Hdrop'. simpl. rewrite drop_app_length. reflexivity.
  - pose proof (drop_cons_length _ _ _ _ Hdrop) as Hlt.
    destruct (byteAt_drop _ _ _ _ Hdrop) as [Hb Hdrop'].
    assert (length s - i = S (length d + S (length t))) as Hlen.
    { apply (f_equal length) in Hdrop. rewrite length_drop in Hdrop.
      simpl in Hdrop. rewrite length_app in Hdrop. simpl in Hdrop. lia. }
    assert (digitRun (d ++ "]" :: t) = length d) as Hrun
      by (rewrite (digitRun_app d _ Hds); simpl; lia).
    assert (0 < length d) as Hpos by (destruct d; [congruence | simpl; lia]).
    assert (drop (S i + length d) s = "]" :: t) as Hclose.
    { rewrite <- drop_drop, Hdrop', drop_app_length. reflexivity. }
    destruct (byteAt_drop _ _ _ _ Hclose) as [Hcb Hafter].
    destruct fuel as [|fuel]; [lia|]. cbn [nameLoop].
    apply Nat.ltb_lt in Hlt. rewrite Hlt, Hb. cbn [Ascii.eqb Bool.eqb andb].
    rewrite readDigits_run. replace (i + 1) with (S i) by lia.
    rewrite Hdrop', Hrun.
    destruct (Nat.eqb_spec (length d) 0); [lia|]. cbn [negb].
    destruct (Nat.leb_spec (length s) (S i + length d)); [lia|]. cbn [orb].
    rewrite Hcb. cbn [Ascii.eqb Bool.eqb andb negb].
    apply IH; [|lia|lia].
    replace (S i + length d + 1) with (S (S i + length d)) by lia.
    exact Hafter.
Qed.

End AsciiNames.

Lemma isValidName_Selector (s : list ascii) :
  asciiOnly s -> (isValidName s = true <-> Selector s).
Proof.
  intros Hs. unfold isValidName, Selector.
  rewrite (readIdent_run s Hs), drop_0.
  pose proof (nameLoop_sound s Hs) as Hsound.
  pose proof (nameLoop_complete s Hs) as Hcomplete.
  clear Hs. destruct s as [|c0 s0]; cbn [bool_decide].
  - split; [discriminate|]. intros (c & l & t & H & _). discriminate H.
  - replace (bool_decide (c0 :: s0 = [])) with false
      by (symmetry; apply bool_decide_eq_false; discriminate).
    destruct (isValidIdentifierStart c0) eqn:Hc; cbn [negb].
    + pose proof (identRun_le s0) as Hle.
      assert (drop (0 + 1 + identRun s0) (c0 :: s0) = drop (identRun s0) s0)
        as Hd by reflexivity.
      split.
      * intros H. apply Hsound in H; [|simpl; lia]. rewrite Hd in H.
        exists c0, (take (identRun s0) s0), (drop (identRun s0) s0).
        rewrite take_drop.
        split; [reflexivity|]. split; [exact Hc|].
        split; [apply identRun_take | exact H].
      * intros (c & l & t & Heq & _ & Hl & Ht).
        injection Heq as <- ->.
        rewrite (identRun_app l t Hl), (SelectorTail_head t Ht) in *.
        apply (Hcomplete t Ht); [|simpl; lia|simpl; lia].
        rewrite Hd. replace (length l + 0) with (length l) by lia.
        apply drop_app_length.
    + split; [discriminate|]. intros (c & l & t & Heq & Hc' & _).
      injection Heq as <- _. congruence.
Qed.

(** X14.  On ASCII strings the validator accepts exactly the names of
    the grammar: an identifier (ASCII letters, digits and underscores,
    not beginning with a digit) followed by any number of segments, each
    a dot and an identifier or a non-empty run of digits in brackets. *)
Theorem isValidName_is_the_grammar (s : list ascii) :
  asciiOnly s -> (isValidName s = true <-> Selector s).
Proof. exact (isValidName_Selector s). Qed.

Lemma identifier_byte_is_ascii (c : ascii) :
  isValidIdentifierChar c = true -> (N_of_ascii c <? 128)%N = true.
Proof.
  destruct c as [[] [] [] [] [] [] [] []]; intros H;
    solve [discriminate H | reflexivity].
Qed.

Lemma identByte_char (c : ascii) :
  identByte c = true -> isValidIdentifierChar c = true.
Proof.
  unfold identByte, digitByte, isValidIdentifierChar. intros ->. reflexivity.
Qed.

Lemma SelectorTail_chars (t : list ascii) :
  SelectorTail t -> Forall (fun c => isValidIdentifierChar c = true) t.
Proof.
  induction 1 as [|c l t Hc Hl Ht IH|d t Hd Hds Ht IH].
  - constructor.
  - constructor; [reflexivity|]. constructor.
    + unfold isValidIdentifierChar. rewrite Hc. reflexivity.
    + apply Forall_app. split; [|exact IH].
      eapply Forall_impl; [exact Hl|]. exact identByte_char.
  - constructor; [reflexivity|]. apply Forall_app. split.
    + eapply Forall_impl; [exact Hds|]. intros c Hc. apply identByte_char.
      unfold identByte. rewrite Hc. apply orb_true_r.
    + constructor; [reflexivity | exact IH].
Qed.

Lemma Selector_chars (n : list ascii) :
  Selector n -> Forall (fun c => isValidIdentifierChar c = true) n.
Proof.
  intros (c & l & t & -> & Hc & Hl & Ht). constructor.
  - unfold isValidIdentifierChar. rewrite Hc. reflexivity.
  - apply Forall_app. split; [|apply SelectorTail_chars, Ht].
    eapply Forall_impl; [exact Hl|]. exact identByte_char.
Qed.

Lemma identifier_bytes_ascii (n : list ascii) :
  Forall (fun c => isValidIdentifierChar c = true) n -> asciiOnly n.
Proof.
  intros H. eapply Forall_impl; [exact H|]. exact identifier_byte_is_ascii.
Qed.

(** ** Rejection of the names outside the grammar *)

Lemma not_Selector_invalid (s : parseState) :
  ~ Selector (rawNameAt s) -> isValidName (rawNameAt s) = false.
Proof.
  intros H. destruct (isValidName (rawNameAt s)) eqn:E; [|reflexivity].
  exfalso. apply H. apply isValidName_Selector; [|exact E].
  apply identifier_bytes_ascii, rawNameAt_chars.
Qed.

(** A run that ends in a dot, in an opening bracket, or in a closing
    bracket that no opening bracket precedes, is no name of the
    grammar. *)
Lemma trailing_punctuation_not_Selector (name : list ascii) (p : ascii) :
  punctuation p -> (p = "]"%char -> "["%char ∉ name) ->
  ~ Selector (name ++ [p]).
Proof.
  intros Hp Hstray Hsel.
  pose proof (Selector_chars _ Hsel) as Hch.
  assert (isValidName (name ++ [p]) = true) as Hv
    by (apply isValidName_Selector; [apply identifier_bytes_ascii|];
        assumption).
  apply Forall_app in Hch as [Hname _].
  rewrite (isValidName_trailing name p Hname Hp Hstray) in Hv.
  discriminate Hv.
Qed.

(** C4.  A recognized placeholder whose raw name violates the grammar
    of names makes the whole operation fail with
    [ErrInvalidPlaceholderName] carrying the raw name and the offset of
    its colon, and with the zero result.  [":items.0.id"], whose name is
    not of the grammar, fails so; [":items[0].id"], whose name is,
    succeeds with the single parameter [items[0].id]. *)
Theorem C4_grammar_rejection :
  (forall (formatFunc : FormatParamFunc) (sqlText : list ascii) (k : nat)
          (s : parseState),
      stateAfter formatFunc sqlText k = Some s ->
      st_i s < st_n s -> classify s = Placeholder ->
      ~ Selector (rawNameAt s) ->
      ParseSQL sqlText (Some formatFunc)
      = Some (zeroParsedSQL,
              Some (ErrInvalidPlaceholderName (rawNameAt s) (st_i s))))
  /\ ~ Selector (bytes "items.0.id")
  /\ (forall formatFunc : FormatParamFunc,
        ParseSQL (bytes ":items.0.id") (Some formatFunc)
        = Some (zeroParsedSQL,
                Some (ErrInvalidPlaceholderName (bytes "items.0.id") 0)))
  /\ Selector (bytes "items[0].id")
  /\ (forall formatFunc : FormatParamFunc,
        ParseSQL (bytes ":items[0].id") (Some formatFunc)
        = Some ({| SQL := formatFunc 1;
                   parameters := [NewParameter (bytes "items[0].id") 1];
                   occurrences :=
                     [{| Name := bytes "items[0].id"; Index := 1;
                         Start := 0; End_ := 12;
                         Raw := bytes ":items[0].id" |}] |}, None)).
Proof.
  split.
  { intros f sqlText k s Hk Hlt Hc Hsel.
    apply (invalid_name_fails f sqlText k s Hk Hlt Hc).
    apply not_Selector_invalid, Hsel. }
  split.
  { intros H. apply isValidName_Selector in H; [discriminate H|].
    repeat constructor. }
  split; [intros f; vm_compute; reflexivity|].
  split; [|intros f; vm_compute; reflexivity].
  apply isValidName_Selector; [repeat constructor | reflexivity].
Qed.

(** C10.  The recognizer validates the maximal run of name bytes: when
    that run ends in selector punctuation and is no name of the grammar,
    the whole operation fails with [ErrInvalidPlaceholderName] for the
    whole run, although a shorter prefix of it may be a name.  A run
    that ends in a dot, in an opening bracket, or in a closing bracket
    that no opening bracket precedes is never a name.  So
    ["SELECT :id."] fails with the name [id.], [":a]"] with the name
    [a]], and [":a[0]]"] with the name [a[0]]], although [id], [a] and
    [a[0]] are names. *)
Theorem C10_maximal_run_rejected :
  (forall (formatFunc : FormatParamFunc) (sqlText : list ascii) (k : nat)
          (s : parseState) (name : list ascii) (p : ascii),
      stateAfter formatFunc sqlText k = Some s ->
      st_i s < st_n s -> classify s = Placeholder ->
      rawNameAt s = name ++ [p] -> punctuation p ->
      ~ Selector (name ++ [p]) ->
      ParseSQL sqlText (Some formatFunc)
      = Some (zeroParsedSQL,
              Some (ErrInvalidPlaceholderName (name ++ [p]) (st_i s))))
  /\ (forall (name : list ascii) (p : ascii),
        punctuation p -> (p = "]"%char -> "["%char ∉ name) ->
        ~ Selector (name ++ [p]))
  /\ (forall formatFunc : FormatParamFunc,
        isValidName (bytes "id") = true
        /\ ParseSQL (bytes "SELECT :id.") (Some formatFunc)
           = Some (zeroParsedSQL,
                   Some (ErrInvalidPlaceholderName (bytes "id.") 7)))
  /\ (forall formatFunc : FormatParamFunc,
        isValidName (bytes "a") = true
        /\ ParseSQL (bytes ":a]") (Some formatFunc)
           = Some (zeroParsedSQL,
                   Some (ErrInvalidPlaceholderName (bytes "a]") 0)))
  /\ (forall formatFunc : FormatParamFunc,
        isValidName (bytes "a[0]") = true
        /\ ParseSQL (bytes ":a[0]]") (Some formatFunc)
           = Some (zeroParsedSQL,
                   Some (ErrInvalidPlaceholderName (bytes "a[0]]") 0)))
  /\ Selector (bytes "id") /\ Selector (bytes "a") /\ Selector (bytes "a[0]")
  /\ ~ Selector (bytes "a[0]]").
Proof.
  split.
  { intros f sqlText k s name p Hk Hlt Hc Hraw Hp Hsel.
    rewrite <- Hraw. apply (invalid_name_fails f sqlText k s Hk Hlt Hc).
    apply not_Selector_invalid. rewrite Hraw. exact Hsel. }
  split; [exact trailing_punctuation_not_Selector|].
  split; [intros f; split; [reflexivity | vm_compute; reflexivity]|].
  split; [intros f; split; [reflexivity | vm_compute; reflexivity]|].
  split; [intros f; split; [reflexivity | vm_compute; reflexivity]|].
  split; [apply isValidName_Selector; [repeat constructor | reflexivity]|].
  split; [apply isValidName_Selector; [repeat constructor | reflexivity]|].
  split; [apply isValidName_Selector; [repeat constructor | reflexivity]|].
  intros H. apply isValidName_Selector in H; [discriminate H|].
  repeat constructor.
Qed.

(** X20.  The names of a successful parse are names of the grammar:
    every occurrence and every parameter is named by an identifier
    followed by dot and index segments. *)
Theorem parsed_names_follow_the_grammar (sqlText : list ascii)
    (formatFunc : FormatParamFunc) (ps : ParsedSQL) :
  ParseSQL sqlText (Some formatFunc) = Some (ps, None) ->
  Forall (fun t => Selector (Name t)) (occurrences ps)
  /\ Forall (fun p => Selector (p_Name p)) (parameters ps).
Proof.
  intros H.
  assert (Forall (fun t => Selector (Name t)) (occurrences ps)) as Hocc.
  { destruct (ParseSQL_ok _ _ _ H) as (s & E & _ & _ & ->).
    destruct (scan_final _ _ _ _ E) as (_ & _ & _ & [_ Ht] & _).
    eapply Forall_impl; [exact Ht|].
    intros t (_ & _ & _ & _ & _ & Hch & _ & Hv).
    apply isValidName_Selector; [apply identifier_bytes_ascii, Hch | exact Hv]. }
  split; [exact Hocc|]. apply Forall_forall. intros p Hp.
  destruct (ParseSQL_parameter_occurs _ _ _ _ H Hp) as (t & Ht & <- & _).
  rewrite Forall_forall in Hocc. apply Hocc, Ht.
Qed.

Lemma identLoop_all (l : list ascii) (j : nat) :
  Forall (fun c => isValidIdentifierChar c = true) l ->
  identLoop l j = j + length l.
Proof.
  revert j. induction l as [|c l IH]; intros j H; cbn [identLoop length];
    [lia|].
  apply Forall_cons in H as [-> H]. rewrite (IH _ H). lia.
Qed.

Lemma identifier_start_not_colon (c : ascii) :
  isValidIdentifierStart c = true -> Ascii.eqb c ":" = false.
Proof.
  destruct c as [[] [] [] [] [] [] [] []]; intros H;
    solve [discriminate H | reflexivity].
Qed.

(** X21.  Every name of the grammar is accepted as a placeholder: the
    text made of a colon and the name parses to the replacement of
    parameter 1, with that one parameter and that one occurrence. *)
Theorem grammar_name_parses_as_placeholder (n : list ascii)
    (formatFunc : FormatParamFunc) :
  Selector n ->
  ParseSQL (":"%char :: n) (Some formatFunc)
  = Some ({| SQL := formatFunc 1;
             parameters := [NewParameter n 1];
             occurrences := [{| Name := n; Index := 1; Start := 0;
                                End_ := S (length n);
                                Raw := ":"%char :: n |}] |}, None).
Proof.
  intros Hsel. pose proof (Selector_chars n Hsel) as Hch.
  assert (isValidName n = true) as Hv
    by (apply isValidName_Selector; [apply identifier_bytes_ascii|]; assumption).
  destruct Hsel as (c & l & t & Hn & Hc & _).
  set (s0 := newParseState (":"%char :: n)).
  assert (classify s0 = Placeholder) as Hcl.
  { unfold classify, s0, peek. rewrite Hn. cbn.
    rewrite (identifier_start_not_colon c Hc), Hc. reflexivity. }
  assert (nameEnd s0 = S (length n)) as Hend.
  { unfold nameEnd, s0. cbn. rewrite drop_0, (identLoop_all n 1 Hch). lia. }
  assert (rawNameAt s0 = n) as Hraw.
  { unfold rawNameAt. rewrite Hend. unfold slice, s0. cbn. rewrite drop_0.
    apply take_ge. lia. }
  assert (dispatch formatFunc s0 = (recognized formatFunc s0, None)) as Hd
    by (rewrite (dispatch_Placeholder _ _ Hcl), Hraw, Hv; reflexivity).
  rewrite (ParseSQL_of_scan _ _ (recognized formatFunc s0)).
  - assert (getIndex (set_i s0 1) n
            = (1, {| st_src := ":"%char :: n; st_n := S (length n); st_i := 1;
                     st_edits := []; st_order := [n];
                     st_indexOf := <[n := 1]> ∅; st_tokens := [] |})) as Hg
      by (unfold getIndex; cbn [st_indexOf set_i s0 newParseState];
          rewrite lookup_empty; reflexivity).
    unfold recognized. rewrite Hraw, Hend. change (st_i s0 + 1) with 1.
    rewrite Hg.
    unfold buildSQL, orderedTokens, Parameters, slice.
    cbn [st_src st_n st_i st_edits st_order st_indexOf st_tokens app
         buildEdits e_start e_end e_repl length replicate fold_left
         Index Name sortSlice fold_right insertByIndex map fst snd].
    rewrite drop_0, take_ge by (simpl; lia).
    change (0 <? 0) with false. change (1 <? 1) with false. cbv iota.
    change (1 - 1) with 0. cbn [lookup list_lookup default].
    replace (bool_decide (n = n)) with true
      by (symmetry; apply bool_decide_eq_true; reflexivity).
    cbn [negb]. rewrite Nat.ltb_irrefl. reflexivity.
  - cbn [scanLoop length]. fold s0. change (st_i s0 <? st_n s0) with true.
    cbv iota. rewrite Hd.
    pose proof (recognized_fields formatFunc s0) as (_ & Hn' & Hi).
    rewrite Hend in Hi. rewrite Hi, Hn'.
    change (st_n s0) with (S (length n)).
    rewrite Nat.ltb_irrefl. reflexivity.
Qed.

(** ** Opacity of the spans *)

(** The literal, in terms of the first quote after its opening quote:
    when a quote comes right after that quote, the two are a doubled
    quote and the literal goes on as a literal opened at the second
    one. *)
Lemma literalLoop_closingLoop (rest : list ascii) (i : nat) :
  literalLoop rest i
  = match drop (closingLoop "'" rest i - i) rest with
    | c :: rest2 =>
        if Ascii.eqb c "'" then literalLoop rest2 (S (closingLoop "'" rest i))
        else closingLoop "'" rest i
    | [] => closingLoop "'" rest i
    end.
Proof.
  revert i. induction rest as [|c rest IH]; intros i;
    cbn [literalLoop closingLoop].
  - rewrite Nat.sub_diag. reflexivity.
  - destruct (Ascii.eqb c "'").
    + replace (S i - i) with 1 by lia. cbn [drop]. rewrite drop_0.
      reflexivity.
    + pose proof (closingLoop_bounds "'" rest (S i)) as Hb.
      replace (closingLoop "'" rest (S i) - i)
        with (S (closingLoop "'" rest (S i) - S i)) by lia.
      cbn [drop]. apply IH.
Qed.

Lemma literalEnd_step (src : list ascii) (a : nat) :
  let j := closingLoop "'" (drop (S a) src) (S a) in
  literalEnd src a
  = if (j <? length src) && Ascii.eqb (byteAt src j) "'"
    then literalEnd src j else j.
Proof.
  intros j. unfold literalEnd. rewrite literalLoop_closingLoop. fold j.
  pose proof (closingLoop_bounds "'" (drop (S a) src) (S a)) as Hb.
  fold j in Hb. rewrite drop_drop.
  replace (S a + (j - S a)) with j by lia.
  destruct (Nat.ltb_spec j (length src)) as [Hlt|Hge]; cbn [andb].
  - rewrite (drop_byteAt src j Hlt). reflexivity.
  - rewrite drop_ge by lia. reflexivity.
Qed.

Lemma iterFrom_add (formatFunc : FormatParamFunc) (k m : nat)
    (s s' : parseState) :
  iterFrom formatFunc k s = Some s' ->
  iterFrom formatFunc (k + m) s = iterFrom formatFunc m s'.
Proof.
  revert s. induction k as [|k IH]; intros s; cbn [iterFrom Nat.add].
  - intros [= ->]. reflexivity.
  - destruct (st_i s <? st_n s); [|discriminate].
    destruct (dispatch formatFunc s) as [s1 [e|]]; [discriminate|].
    apply IH.
Qed.

Lemma classify_SingleQuoted (s : parseState) :
  classify s = SingleQuoted -> byteAt (st_src s) (st_i s) = "'"%char.
Proof. classify_cases. intros _. apply eqb_true. assumption. Qed.

(** Entered at the opening quote of a literal, the scan is at the end of
    the literal after some iterations, each of them a call of the
    single-quoted skipper, and nothing but the cursor has changed. *)
Lemma single_quoted_chain (formatFunc : FormatParamFunc) (d : nat)
    (s : parseState) :
  wf s -> st_i s < st_n s -> st_n s - st_i s <= d ->
  byteAt (st_src s) (st_i s) = "'"%char ->
  exists m,
    iterFrom formatFunc (S m) s
    = Some (set_i s (literalEnd (st_src s) (st_i s)))
    /\ st_i s < literalEnd (st_src s) (st_i s) <= st_n s.
Proof.
  revert s. induction d as [|d IH]; intros s Hwf Hlt Hd Hq; [lia|].
  pose proof Hwf as [Hn Hi].
  assert (dispatch formatFunc s
          = (set_i s (closingLoop "'" (drop (S (st_i s)) (st_src s))
                        (S (st_i s))), None)) as Hstep.
  { unfold dispatch. rewrite (classify_at_quote s Hq).
    rewrite (consumeSingleQuoted_no_escape s Hwf). reflexivity. }
  pose proof (closingLoop_bounds "'" (drop (S (st_i s)) (st_src s))
                (S (st_i s))) as Hb.
  rewrite length_drop in Hb.
  pose proof (literalEnd_step (st_src s) (st_i s)) as Hend. cbv zeta in Hend.
  set (j := closingLoop "'" (drop (S (st_i s)) (st_src s)) (S (st_i s))) in *.
  assert (iterFrom formatFunc 1 s = Some (set_i s j)) as Hone.
  { cbn [iterFrom]. apply Nat.ltb_lt in Hlt. rewrite Hlt, Hstep.
    reflexivity. }
  destruct ((j <? length (st_src s)) && Ascii.eqb (byteAt (st_src s) j) "'")
    eqn:E.
  - apply andb_prop in E as [E1 E2]. apply Nat.ltb_lt in E1.
    apply eqb_true in E2.
    destruct (IH (set_i s j)) as (m & Hm & Hbm).
    + split; cbn [st_n st_i st_src set_i]; lia.
    + cbn [st_n st_i set_i]. lia.
    + cbn [st_n st_i set_i]. lia.
    + exact E2.
    + cbn [st_n st_i st_src set_i] in Hm, Hbm.
      exists (S m). rewrite Hend. split; [|lia].
      change (S (S m)) with (1 + S m).
      rewrite (iterFrom_add _ _ _ _ _ Hone). exact Hm.
  - exists 0. rewrite Hend. split; [exact Hone | lia].
Qed.

(** What one iteration skips, for the branches that are no literal and
    no placeholder. *)
Lemma dispatch_span (formatFunc : FormatParamFunc) (s : parseState) :
  wf s -> st_i s < st_n s ->
  classify s <> Placeholder -> classify s <> SingleQuoted ->
  spanEnds (st_src s) (classify s) (st_i s)
    (st_i (fst (dispatch formatFunc s))).
Proof.
  intros Hwf Hlt Hp Hq. pose proof Hwf as [Hn Hi].
  unfold dispatch. destruct (classify s) eqn:E; try congruence;
    cbn [fst spanEnds].
  - apply classify_DashDash in E.
    unfold consumeDashDash. cbn [st_i st_src set_i].
    apply lineLoop_src. lia.
  - unfold consumeHashComment. cbn [st_i set_i].
    replace (S (st_i s)) with (st_i s + 1) by lia.
    apply lineLoop_src. lia.
  - pose proof (consumeBlockComment_span s Hwf E) as H. cbv zeta in H.
    rewrite Hn in H. exact H.
  - apply closing_skipper; assumption.
  - apply closing_skipper; assumption.
  - apply closing_skipper; assumption.
  - pose proof (consumeDollarQuoted_span s Hwf Hlt) as H. cbv zeta in H.
    rewrite Hn in H. exact H.
  - pose proof (consumeOracleQ_span s Hwf Hlt) as H. cbv zeta in H.
    rewrite Hn in H. exact H.
  - apply classify_Cast in E as (H1 & _ & H2). cbn [st_i set_i]. auto.
  - reflexivity.
Qed.

(** From the opening of a span the scan gets to its end, and nothing
    but the cursor has changed by then. *)
Lemma span_reached (formatFunc : FormatParamFunc) (s : parseState) :
  wf s -> st_i s < st_n s -> classify s <> Placeholder ->
  exists b m,
    iterFrom formatFunc (S m) s = Some (set_i s b)
    /\ spanEnds (st_src s) (classify s) (st_i s) b
    /\ st_i s < b <= st_n s.
Proof.
  intros Hwf Hlt Hp.
  destruct (branch_eq_dec (classify s) SingleQuoted) as [E|E].
  - destruct (single_quoted_chain formatFunc (st_n s - st_i s) s Hwf Hlt
                (Nat.le_refl _) (classify_SingleQuoted s E)) as (m & Hm & Hb).
    exists (literalEnd (st_src s) (st_i s)), m.
    rewrite E. cbn [spanEnds]. auto.
  - pose proof (dispatch_span formatFunc s Hwf Hlt Hp E) as Hspan.
    destruct (dispatch_skip formatFunc s Hwf Hlt Hp) as (s' & Hd & j & -> & Hj).
    rewrite Hd in Hspan. cbn [fst st_i set_i] in Hspan.
    exists j, 0. split; [|split; [exact Hspan | exact Hj]].
    cbn [iterFrom]. apply Nat.ltb_lt in Hlt. rewrite Hlt, Hd. reflexivity.
Qed.

Lemma scan_from (formatFunc : FormatParamFunc) (sqlText : list ascii)
    (k : nat) (s sf : parseState) :
  stateAfter formatFunc sqlText k = Some s ->
  scanLoop formatFunc (S (length sqlText)) (newParseState sqlText)
    = Some (sf, None) ->
  wf s /\ st_src s = sqlText /\ tokInv formatFunc s
  /\ exists fuel, scanLoop formatFunc fuel s = Some (sf, None).
Proof.
  intros Hk E. unfold stateAfter in Hk.
  pose proof (wf_newParseState sqlText) as Hwf0.
  destruct (iterFrom_progress _ _ _ _ Hwf0 Hk) as (Hwf & Hi & Hsrc).
  simpl in Hi, Hsrc.
  split; [assumption|]. split; [assumption|]. split.
  { exact (iterFrom_invariant formatFunc (tokInv formatFunc)
             (tokInv_step formatFunc) k _ s Hwf0 (tokInv_init _ _) Hk). }
  assert (S (length sqlText) = k + S (length sqlText - k)) as Hfuel
    by (destruct Hwf as [Hn Hle]; rewrite Hsrc in Hn; lia).
  rewrite Hfuel, (iterFrom_scanLoop _ _ _ _ _ Hk) in E. eauto.
Qed.

(** When the scan of a successful parse is at offset [a] in a state [s]
    and later at offset [b] with nothing but the cursor changed, no
    occurrence starts between [a] and [b], and the bytes between them
    are copied. *)
Lemma opaque_between (sqlText : list ascii) (formatFunc : FormatParamFunc)
    (ps : ParsedSQL) (k k' : nat) (s : parseState) (b : nat) :
  ParseSQL sqlText (Some formatFunc) = Some (ps, None) ->
  stateAfter formatFunc sqlText k = Some s ->
  stateAfter formatFunc sqlText k' = Some (set_i s b) ->
  st_i s <= b ->
  (forall t, t ∈ occurrences ps -> End_ t <= st_i s \/ b <= Start t)
  /\ exists before after,
       occurrences ps = before ++ after
       /\ Forall (fun t => End_ t <= st_i s) before
       /\ Forall (fun t => b <= Start t) after
       /\ SQL ps
          = buildFrom (take (st_i s) sqlText) 0
              (map (editOf formatFunc) before)
            ++ slice sqlText (st_i s) b
            ++ buildFrom sqlText b (map (editOf formatFunc) after).
Proof.
  intros H Hk Hk' Hab.
  destruct (ParseSQL_ok _ _ _ H) as (sf & E & Hsql & _ & Hocc).
  destruct (scan_from _ _ _ _ _ Hk E) as (Hwf & Hsrc & [_ Htok] & _).
  destruct (scan_from _ _ _ _ _ Hk' E) as (Hwf1 & _ & _ & fuel & E1).
  destruct (scanLoop_extends _ _ _ _ Hwf1 E1) as (extra & Hext & Hx).
  cbn [st_tokens st_i set_i] in Hext, Hx.
  destruct (scan_final _ _ _ _ E) as (_ & Hsrcf & _ & [Hed _] & _).
  assert (Forall (fun t => End_ t <= st_i s) (st_tokens s)) as Hbefore.
  { eapply Forall_impl; [exact Htok|]. intros t (_ & Ht & _). exact Ht. }
  split.
  - intros t Ht. rewrite Hocc, Hext in Ht. apply elem_of_app in Ht as [Ht|Ht].
    + left. rewrite Forall_forall in Hbefore. auto.
    + right. rewrite Forall_forall in Hx. auto.
  - exists (st_tokens s), extra.
    split; [rewrite Hocc; exact Hext|]. split; [exact Hbefore|].
    split; [exact Hx|].
    rewrite Hsql.
    change (buildSQL sf) with (buildFrom (st_src sf) 0 (st_edits sf)).
    rewrite !buildFrom_pieces, Hsrcf, Hed, Hext, map_app.
    apply pieces_split; [lia | lia | |].
    + apply Forall_map. eapply Forall_impl; [exact Htok|].
      intros t (Ht1 & Ht2 & _). simpl. lia.
    + apply Forall_map. exact Hx.
Qed.


(** ** Parameters, identifiers and dotted selectors *)

Lemma hasPrefix_nil (s : list ascii) : hasPrefix s [] = true.
Proof. destruct s; reflexivity. Qed.

Lemma stringsContains_dot (s : list ascii) :
  stringsContains s (bytes ".") = true <-> "."%char ∈ s.
Proof.
  unfold stringsContains. change (bytes ".") with ["."%char].
  induction s as [|c s IH]; cbn [stringsIndex hasPrefix].
  - split; [discriminate | intros H; inversion H].
  - rewrite hasPrefix_nil. destruct (Ascii.eqb "." c) eqn:E; cbn [andb].
    + apply eqb_true in E. subst c. split; [intros _; left | reflexivity].
    + assert (c <> "."%char) as Hne
        by (intros ->; rewrite Ascii.eqb_refl in E; discriminate).
      rewrite elem_of_cons. destruct (stringsIndex s ["."%char]); simpl.
      * split; [intros _; right; apply IH; reflexivity | reflexivity].
      * split; [discriminate|]. intros [H|H]; [congruence|].
        apply IH in H. discriminate H.
Qed.

Lemma IsIdentifier_spec (p : Param) :
  IsIdentifier p = true <-> "."%char ∉ p_Name p.
Proof.
  unfold IsIdentifier. rewrite <- stringsContains_dot.
  destruct (stringsContains _ _); simpl; split;
    congruence || (intros H; exfalso; apply H; reflexivity).
Qed.

Lemma NewParameters_paramsOf (names : list (list ascii)) :
  NewParameters names = paramsOf names.
Proof.
  unfold NewParameters, paramsOf. apply imap_ext. intros i x _.
  f_equal. lia.
Qed.

Lemma paramsOf_names (order : list (list ascii)) :
  map p_Name (paramsOf order) = order.
Proof.
  unfold paramsOf. rewrite map_fmap. apply list_eq. intros i.
  rewrite list_lookup_fmap, list_lookup_imap.
  destruct (order !! i); reflexivity.
Qed.

(** X15.  [NewParameters] numbers the names it is given from 1 in their
    order, and the parameters of a successful parse are of that form:
    building the parameters again from their names gives them back. *)
Theorem NewParameters_of_parsed (sqlText : list ascii)
    (formatFunc : FormatParamFunc) (ps : ParsedSQL) :
  ParseSQL sqlText (Some formatFunc) = Some (ps, None) ->
  NewParameters (map p_Name (parameters ps)) = parameters ps
  /\ map p_Index (parameters ps) = seq 1 (length (parameters ps)).
Proof.
  intros H. rewrite (ParseSQL_parameters _ _ _ H).
  set (order := orderOf (map Name (occurrences ps))).
  rewrite paramsOf_names. split; [apply NewParameters_paramsOf|].
  unfold paramsOf. rewrite length_imap, map_fmap. apply list_eq. intros i.
  rewrite list_lookup_fmap, list_lookup_imap.
  destruct (order !! i) as [x|] eqn:E; simpl.
  - symmetry. apply lookup_seq. split; [lia|].
    apply lookup_lt_Some in E. exact E.
  - symmetry. apply lookup_seq_ge. apply lookup_ge_None in E. exact E.
Qed.

Lemma identifiersLoop_spec (ps : list Param) (pre : list (list ascii)) :
  identifiersLoop (length pre) ps (pre ++ replicate (length ps) [])
  = pre ++ map (fun p => if IsIdentifier p then p_Name p else []) ps.
Proof.
  revert pre. induction ps as [|p ps IH]; intros pre;
    cbn [identifiersLoop length replicate map]; [reflexivity|].
  destruct (IsIdentifier p); cbn [negb].
  - rewrite insert_app_r_alt by lia. rewrite Nat.sub_diag. cbn.
    replace (S (length pre)) with (length (pre ++ [p_Name p]))
      by (rewrite length_app; simpl; lia).
    replace (pre ++ p_Name p :: replicate (length ps) [])
      with ((pre ++ [p_Name p]) ++ replicate (length ps) [])
      by (rewrite <- app_assoc; reflexivity).
    rewrite IH, <- app_assoc. reflexivity.
  - replace (S (length pre)) with (length (pre ++ [[]]))
      by (rewrite length_app; simpl; lia).
    replace (pre ++ [] :: replicate (length ps) [])
      with ((pre ++ [[]]) ++ replicate (length ps) [])
      by (rewrite <- app_assoc; reflexivity).
    rewrite IH, <- app_assoc. reflexivity.
Qed.

Lemma identifiersAppendLoop_spec (ps : list Param) (ids : list (list ascii)) :
  identifiersAppendLoop ps ids
  = ids ++ map p_Name (List.filter IsIdentifier ps).
Proof.
  revert ids. induction ps as [|p ps IH]; intros ids;
    cbn [identifiersAppendLoop List.filter map]; [rewrite app_nil_r; reflexivity|].
  destruct (IsIdentifier p); cbn [negb map]; rewrite IH;
    [rewrite <- app_assoc|]; reflexivity.
Qed.

Lemma dottedSelectorsAppendLoop_spec (ps : list Param)
    (selectors : list (list ascii)) :
  dottedSelectorsAppendLoop ps selectors
  = selectors
    ++ map p_Name (List.filter (fun p => negb (IsIdentifier p)) ps).
Proof.
  revert selectors. induction ps as [|p ps IH]; intros selectors;
    cbn [dottedSelectorsAppendLoop List.filter map];
    [rewrite app_nil_r; reflexivity|].
  destruct (IsIdentifier p); cbn [negb map]; rewrite IH;
    [|rewrite <- app_assoc]; reflexivity.
Qed.

(** X16.  [Identifiers] keeps the positions: the result is as long as
    the parameters, with the name where it has no dot and the empty
    string where it has one.  Without the empty strings it is what the
    appending copy of the method returns. *)
Theorem Identifiers_keeps_positions (ps : list Param) :
  Identifiers ps
  = map (fun p => if IsIdentifier p then p_Name p else []) ps
  /\ List.filter (fun x => negb (bool_decide (x = [])))
       (Identifiers ps)
     = List.filter (fun x => negb (bool_decide (x = [])))
         (Identifiers_append ps).
Proof.
  assert (Identifiers ps
          = map (fun p => if IsIdentifier p then p_Name p else []) ps) as E
    by (exact (identifiersLoop_spec ps [])).
  split; [exact E|]. rewrite E. clear E. unfold Identifiers_append.
  rewrite identifiersAppendLoop_spec. cbn [app].
  induction ps as [|p ps IH]; [reflexivity|]. cbn [map List.filter].
  destruct (IsIdentifier p); cbn [map List.filter bool_decide negb].
  - destruct (negb (bool_decide (p_Name p = []))); rewrite IH; reflexivity.
  - replace (bool_decide (@nil ascii = [])) with true
      by (symmetry; apply bool_decide_eq_true; reflexivity).
    exact IH.
Qed.

Lemma dottedSelectorsLoop_empty (ps : list Param) (i : nat) :
  dottedSelectorsLoop i ps []
  = if forallb IsIdentifier ps then Some [] else None.
Proof.
  revert i. induction ps as [|p ps IH]; intros i;
    cbn [dottedSelectorsLoop forallb length]; [reflexivity|].
  destruct (IsIdentifier p); cbn [andb]; [apply IH|].
  destruct (Nat.ltb_spec i 0); [lia | reflexivity].
Qed.

(** X17.  [DottedSelectors] of [identifiers.go] never returns a
    selector: it assigns by index into a slice of length 0, so it panics
    as soon as a parameter has a dot in its name, and returns the empty
    slice when none has. *)
Theorem DottedSelectors_panics_on_a_dot (ps : list Param) :
  (Forall (fun p => "."%char ∉ p_Name p) ps -> DottedSelectors ps = Some [])
  /\ (Exists (fun p => "."%char ∈ p_Name p) ps -> DottedSelectors ps = None).
Proof.
  unfold DottedSelectors. rewrite dottedSelectorsLoop_empty. split.
  - intros H. replace (forallb IsIdentifier ps) with true; [reflexivity|].
    symmetry. apply forallb_forall. intros p Hp.
    apply IsIdentifier_spec. rewrite Forall_forall in H. apply H.
    apply list_elem_of_In, Hp.
  - intros H. apply Exists_exists in H as (p & Hp & Hdot).
    destruct (forallb IsIdentifier ps) eqn:E; [|reflexivity].
    rewrite forallb_forall in E.
    specialize (E p (proj1 (list_elem_of_In _ _) Hp)).
    apply IsIdentifier_spec in E. contradiction.
Qed.

Lemma filter_partition {A : Type} (f : A -> bool) (l : list A) :
  List.filter f l ++ List.filter (fun x => negb (f x)) l ≡ₚ l.
Proof.
  induction l as [|a l IH]; [reflexivity|]. cbn [List.filter].
  destruct (f a); cbn [negb app].
  - constructor. exact IH.
  - rewrite <- Permutation_middle. constructor. exact IH.
Qed.

(** X18.  In the appending copy of the file the two methods split the
    names: [Identifiers] returns the names without a dot and
    [DottedSelectors] the names with one, each in the order of the
    parameters, and together they are all the names. *)
Theorem append_methods_split_the_names (ps : list Param) :
  Identifiers_append ps = map p_Name (List.filter IsIdentifier ps)
  /\ DottedSelectors_append ps
     = map p_Name (List.filter (fun p => negb (IsIdentifier p)) ps)
  /\ Identifiers_append ps ++ DottedSelectors_append ps ≡ₚ map p_Name ps
  /\ Forall (fun x => "."%char ∉ x) (Identifiers_append ps)
  /\ Forall (fun x => "."%char ∈ x) (DottedSelectors_append ps).
Proof.
  unfold Identifiers_append, DottedSelectors_append.
  rewrite identifiersAppendLoop_spec, dottedSelectorsAppendLoop_spec.
  cbn [app]. split; [reflexivity|]. split; [reflexivity|]. split.
  - rewrite <- map_app, !map_fmap. apply fmap_Permutation, filter_partition.
  - split; apply Forall_forall; intros x Hx; rewrite map_fmap in Hx;
      apply list_elem_of_fmap in Hx as (p & -> & Hp);
      apply list_elem_of_In, filter_In in Hp as [_ Hp].
    + apply IsIdentifier_spec, Hp.
    + destruct (decide ("."%char ∈ p_Name p)) as [|Hn]; [assumption|].
      apply IsIdentifier_spec in Hn. rewrite Hn in Hp. discriminate Hp.
Qed.

(** ** Sorting the tokens by index *)

Lemma insertByIndex_perm (t : QueryToken) (l : list QueryToken) :
  insertByIndex t l ≡ₚ t :: l.
Proof.
  induction l as [|u l IH]; cbn [insertByIndex]; [reflexivity|].
  destruct (Index u <? Index t); [|reflexivity].
  rewrite IH. apply Permutation_swap.
Qed.

Lemma insertByIndex_sorted (t : QueryToken) (l : list QueryToken) :
  StronglySorted (fun a b => Index a <= Index b) l ->
  StronglySorted (fun a b => Index a <= Index b) (insertByIndex t l).
Proof.
  induction 1 as [|u l Hl IH Hu]; cbn [insertByIndex].
  - repeat constructor.
  - destruct (Nat.ltb_spec (Index u) (Index t)).
    + constructor; [exact IH|]. rewrite insertByIndex_perm.
      constructor; [lia | exact Hu].
    + constructor; [constructor; assumption|].
      constructor; [lia|]. eapply Forall_impl; [exact Hu|].
      simpl. intros; lia.
Qed.

(** X19.  [QueryTokens.Parameters] leaves its receiver sorted by index
    and with the same tokens, and returns the name and the index of
    each token of the sorted receiver, in that order. *)
Theorem Parameters_sorts_by_index (qts : list QueryToken) :
  snd (Parameters qts) ≡ₚ qts
  /\ StronglySorted (fun a b => Index a <= Index b) (snd (Parameters qts))
  /\ map p_Index (fst (Parameters qts)) = map Index (snd (Parameters qts))
  /\ map p_Name (fst (Parameters qts)) = map Name (snd (Parameters qts))
  /\ StronglySorted le (map p_Index (fst (Parameters qts))).
Proof.
  unfold Parameters. cbn [fst snd].
  assert (sortSlice qts ≡ₚ qts) as Hperm.
  { induction qts as [|t qts IH]; [reflexivity|]. cbn [sortSlice fold_right].
    rewrite insertByIndex_perm. constructor. exact IH. }
  assert (StronglySorted (fun a b => Index a <= Index b) (sortSlice qts))
    as Hsorted.
  { clear Hperm. induction qts as [|t qts IH]; [constructor|].
    cbn [sortSlice fold_right]. apply insertByIndex_sorted, IH. }
  assert (map p_Index
            (map (fun sp => NewParameter (Name sp) (Index sp)) (sortSlice qts))
          = map Index (sortSlice qts)) as Hidx
    by (rewrite map_map; reflexivity).
  split; [exact Hperm|]. split; [exact Hsorted|]. split; [exact Hidx|].
  split; [rewrite map_map; reflexivity|].
  rewrite Hidx. clear Hidx Hperm.
  induction Hsorted as [|u l Hl IH Hu]; cbn [map]; constructor;
    [exact IH|].
  rewrite map_fmap. apply Forall_fmap. exact Hu.
Qed.

(** ** Cardinalities, row types and data types *)

Section TypeNameProperties.

Variable wideToLower : list ascii -> list ascii.
Variable CombineErrs : list typeError -> option typeError.

Ltac name_cases re :=
  repeat match goal with
         | |- context [bool_decide (re = ?v)] =>
             let E := fresh "E" in
             destruct (bool_decide (re = v)) eqn:E;
             [apply bool_decide_eq_true in E; subst re;
              cbn [orb]; repeat split; vm_compute; tauto || congruence
             |clear E; cbn [orb]]
         end.

(** X22.  [ParseCardinality] returns one of the four cardinalities and
    no error, or the empty cardinality and the error that carries its
    argument.  A cardinality it returns parses to itself, and [EmptyOk]
    is defined on it; on the empty cardinality of the error case
    [EmptyOk] panics. *)
Theorem ParseCardinality_outcomes (s : list ascii) :
  match ParseCardinality wideToLower s with
  | (re, None) =>
      (re = OneRow \/ re = ManyRows \/ re = OneRowOrNone
       \/ re = ManyRowsOrNone)
      /\ ParseCardinality wideToLower re = (re, None)
      /\ EmptyOk re
         = Some (bool_decide (re = OneRowOrNone \/ re = ManyRowsOrNone))
  | (re, Some e) =>
      s <> [] /\ re = [] /\ e = ErrInvalidCardinalityType s
      /\ EmptyOk re = None
  end.
Proof.
  unfold ParseCardinality at 1. case_bool_decide as Hs.
  - repeat split; vm_compute; tauto.
  - cbv zeta. generalize (stringsToLower wideToLower s). intros re.
    name_cases re. repeat split; assumption.
Qed.

(** X23.  [ParseDBDataType] returns one of the nine normal data types
    and no error, or the empty type and the error that carries its
    argument.  It never returns the aliases [int] and [int?], and a
    type it returns is left as it is by [Normalize] and parses to
    itself. *)
Theorem ParseDBDataType_outcomes (s : list ascii) :
  match ParseDBDataType wideToLower s with
  | (dt, None) =>
      dt ∈ [AnyDBDataType; IntegerDBDataType; RealDBDataType;
            StringDBDataType; JSONDBDataType; IntegerDBDataTypeOrNULL;
            RealDBDataTypeOrNULL; StringDBDataTypeOrNULL;
            JSONDBDataTypeOrNULL]
      /\ dt <> IntDBDataType /\ dt <> IntDBDataTypeOrNULL
      /\ DBDataType_Normalize dt = dt
      /\ ParseDBDataType wideToLower dt = (dt, None)
  | (dt, Some e) => s <> [] /\ dt = [] /\ e = ErrInvalidDataType s
  end.
Proof.
  unfold ParseDBDataType at 1. case_bool_decide as Hs.
  - repeat split; try (vm_compute; congruence).
    vm_compute. set_solver.
  - cbv zeta.
    generalize (DBDataType_Normalize (stringsToLower wideToLower s)).
    intros dt.
    repeat match goal with
           | |- context [bool_decide (dt = ?v)] =>
               let E := fresh "E" in
               destruct (bool_decide (dt = v)) eqn:E;
               [apply bool_decide_eq_true in E; subst dt; cbn [orb];
                repeat split; try (vm_compute; congruence);
                unfold AnyDBDataType, IntegerDBDataType, RealDBDataType,
                  StringDBDataType, JSONDBDataType, IntegerDBDataTypeOrNULL,
                  RealDBDataTypeOrNULL, StringDBDataTypeOrNULL,
                  JSONDBDataTypeOrNULL; set_solver
               |clear E; cbn [orb]]
           end.
    repeat split; assumption.
Qed.

(** X24.  [ParseDBRowType] returns one of the ten normal row types and
    no error, or the empty type and the error that carries its
    argument; a type it returns is left as it is by [Normalize] and
    parses to itself. *)
Theorem ParseDBRowType_outcomes (s : list ascii) :
  match ParseDBRowType wideToLower s with
  | (rt, None) =>
      rt ∈ [AnyRowType; IntegerRowType; RealRowType; StringRowType;
            ColumnsRowType; JSONRowType; IntegerRowTypeOrNULL;
            RealRowTypeOrNULL; StringRowTypeOrNULL; JSONRowTypeOrNULL]
      /\ rt <> IntRowType /\ rt <> IntRowTypeOrNULL
      /\ DBRowType_Normalize rt = rt
      /\ ParseDBRowType wideToLower rt = (rt, None)
  | (rt, Some e) => s <> [] /\ rt = [] /\ e = ErrInvalidRowType s
  end.
Proof.
  unfold ParseDBRowType at 1. case_bool_decide as Hs.
  - repeat split; try (vm_compute; congruence).
    vm_compute. set_solver.
  - cbv zeta.
    generalize (DBRowType_Normalize (stringsToLower wideToLower s)).
    intros rt.
    repeat match goal with
           | |- context [bool_decide (rt = ?v)] =>
               let E := fresh "E" in
               destruct (bool_decide (rt = v)) eqn:E;
               [apply bool_decide_eq_true in E; subst rt; cbn [orb];
                repeat split; try (vm_compute; congruence);
                unfold AnyRowType, IntegerRowType, RealRowType,
                  StringRowType, ColumnsRowType, JSONRowType,
                  IntegerRowTypeOrNULL, RealRowTypeOrNULL,
                  StringRowTypeOrNULL, JSONRowTypeOrNULL; set_solver
               |clear E; cbn [orb]]
           end.
    repeat split; assumption.
Qed.

Lemma ParseDBDataType_error_value (s dt : list ascii) (e : typeError) :
  ParseDBDataType wideToLower s = (dt, Some e) -> dt = [].
Proof.
  unfold ParseDBDataType. case_bool_decide; [discriminate|]. cbv zeta.
  destruct (_ || _); [discriminate|]. intros [= <- _]. reflexivity.
Qed.

Lemma columnTypesLoop_spec (ss : list (list ascii))
    (pre : list (list ascii)) (errs : list typeError) :
  columnTypesLoop wideToLower (length pre) ss
    (pre ++ replicate (length ss) []) errs
  = (pre ++ map (fun s => fst (ParseDBDataType wideToLower s)) ss,
     errs ++ omap (fun s => snd (ParseDBDataType wideToLower s)) ss).
Proof.
  revert pre errs. induction ss as [|s ss IH]; intros pre errs;
    cbn [columnTypesLoop length replicate map omap list_omap].
  - rewrite !app_nil_r. reflexivity.
  - destruct (ParseDBDataType wideToLower s) as [v [e|]] eqn:E; cbn [fst snd].
    + apply ParseDBDataType_error_value in E. subst v.
      replace (S (length pre)) with (length (pre ++ [[]]))
        by (rewrite length_app; simpl; lia).
      replace (pre ++ [] :: replicate (length ss) [])
        with ((pre ++ [[]]) ++ replicate (length ss) [])
        by (rewrite <- app_assoc; reflexivity).
      rewrite IH, <- !app_assoc. reflexivity.
    + rewrite insert_app_r_alt by lia. rewrite Nat.sub_diag. cbn.
      replace (S (length pre)) with (length (pre ++ [v]))
        by (rewrite length_app; simpl; lia).
      replace (pre ++ v :: replicate (length ss) [])
        with ((pre ++ [v]) ++ replicate (length ss) [])
        by (rewrite <- app_assoc; reflexivity).
      rewrite IH, <- app_assoc. reflexivity.
Qed.

(** X25.  [ParseColumnTypes] parses the column types one by one: the
    result has a type for every argument, at the same position, empty
    where the argument is no data type, and the error is made from the
    errors of the arguments in their order, whatever the other entries
    are. *)
Theorem ParseColumnTypes_pointwise (ss : list (list ascii)) :
  ParseColumnTypes wideToLower CombineErrs ss
  = (map (fun s => fst (ParseDBDataType wideToLower s)) ss,
     if length ss =? 0 then None
     else ErrInvalidResultsColumnDataType
            <$> CombineErrs
                  (omap (fun s => snd (ParseDBDataType wideToLower s)) ss)).
Proof.
  unfold ParseColumnTypes. destruct ss as [|s ss]; [reflexivity|].
  change (length (s :: ss) =? 0) with false. cbv iota.
  pose proof (columnTypesLoop_spec (s :: ss) [] []) as E.
  change (length (@nil (list ascii))) with 0 in E. cbn [app] in E.
  rewrite E.
  destruct (CombineErrs _); reflexivity.
Qed.

Lemma lowerByte_idem (c : ascii) : lowerByte (lowerByte c) = lowerByte c.
Proof. destruct c as [[] [] [] [] [] [] [] []]; reflexivity. Qed.

Lemma lowerByte_ascii (c : ascii) :
  (N_of_ascii c <? 128)%N = true -> (N_of_ascii (lowerByte c) <? 128)%N = true.
Proof.
  destruct c as [[] [] [] [] [] [] [] []]; intros H;
    solve [discriminate H | reflexivity].
Qed.

Lemma stringsToLower_idem (s : list ascii) :
  isASCII s = true ->
  stringsToLower wideToLower (stringsToLower wideToLower s)
  = stringsToLower wideToLower s.
Proof.
  intros H. unfold stringsToLower. rewrite H.
  assert (isASCII (map lowerByte s) = true) as H'.
  { unfold isASCII in *. rewrite forallb_forall in *. intros c Hc.
    apply in_map_iff in Hc as (d & <- & Hd). apply lowerByte_ascii, H, Hd. }
  rewrite H', map_map. apply map_ext. intros c. apply lowerByte_idem.
Qed.

(** X26.  On ASCII strings the three parsers do not look at the case of
    the letters: a string and its lower-case form give the same
    cardinality, the same row type and the same data type. *)
Theorem type_names_ignore_ascii_case (s : list ascii) :
  isASCII s = true ->
  fst (ParseCardinality wideToLower (stringsToLower wideToLower s))
  = fst (ParseCardinality wideToLower s)
  /\ fst (ParseDBRowType wideToLower (stringsToLower wideToLower s))
     = fst (ParseDBRowType wideToLower s)
  /\ fst (ParseDBDataType wideToLower (stringsToLower wideToLower s))
     = fst (ParseDBDataType wideToLower s).
Proof.
  intros H. pose proof (stringsToLower_idem s H) as Hidem.
  assert (stringsToLower wideToLower s = [] <-> s = []) as Hnil.
  { unfold stringsToLower. rewrite H. destruct s; simpl; split; congruence. }
  unfold ParseCardinality, ParseDBRowType, ParseDBDataType. cbv zeta.
  rewrite Hidem.
  destruct (decide (s = [])) as [->|Hne]; [repeat split; reflexivity|].
  assert (stringsToLower wideToLower s <> []) as Hne' by tauto.
  rewrite !(bool_decide_eq_false_2 _ Hne), !(bool_decide_eq_false_2 _ Hne').
  repeat split; destruct (_ || _); reflexivity.
Qed.

End TypeNameProperties.

End Sqlparams.

(** * Runs on concrete texts *)

(** An excerpt of Go's range tables, enough to run the scanner: the
    letters of Latin Extended-A and -B (U+0100 to U+024F) and the
    Arabic-Indic digits (U+0660 to U+0669). *)
Definition sampleWideLetter (r : N) : bool := unicode.inRange 256 591 r.
Definition sampleWideDigit (r : N) : bool := unicode.inRange 1632 1641 r.

(** [func(i int) string { return fmt.Sprintf("$%d", i) }] *)
Definition postgres (i : nat) : list ascii := bytes "$" ++ bytes (pretty i).

(** [func(int) string { return "?" }] *)
Definition mysql (_ : nat) : list ascii := bytes "?".

Definition parse (sql : string) (formatFunc : FormatParamFunc) :=
  ParseSQL sampleWideLetter sampleWideDigit (bytes sql) (Some formatFunc).

(** What the tests of the repository compare: the rewritten text and
    the parameters. *)
Definition outcome (r : option (ParsedSQL * option error))
  : option (list ascii * list Param) :=
  match r with
  | Some (ps, None) => Some (SQL ps, parameters ps)
  | _ => None
  end.

Definition expect (sql : string) (names : list string)
  : option (list ascii * list Param) :=
  Some (bytes sql, imap (fun j x => NewParameter (bytes x) (S j)) names).

(** ** Cases of [TestParseSQL] and [TestParseSQL_EdgeCases] *)

Example test_single_placeholder :
  outcome (parse "SELECT * FROM users WHERE id = :id" postgres)
  = expect "SELECT * FROM users WHERE id = $1" ["id"%string].
Proof. vm_compute. reflexivity. Qed.

Example test_duplicate_placeholders :
  outcome (parse "SELECT * FROM orders WHERE created_at >= :since AND updated_at >= :since" postgres)
  = expect "SELECT * FROM orders WHERE created_at >= $1 AND updated_at >= $1"
      ["since"%string].
Proof. vm_compute. reflexivity. Qed.

Example test_array_index_placeholders :
  outcome (parse "SELECT * FROM products WHERE id = :items[0].id AND sku = :items[1].sku" postgres)
  = expect "SELECT * FROM products WHERE id = $1 AND sku = $2"
      ["items[0].id"%string; "items[1].sku"%string].
Proof. vm_compute. reflexivity. Qed.

Example test_mysql_format :
  outcome (parse "SELECT * FROM users WHERE id = :id" mysql)
  = expect "SELECT * FROM users WHERE id = ?" ["id"%string].
Proof. vm_compute. reflexivity. Qed.

Example test_digit_after_colon :
  outcome (parse "SELECT * FROM users WHERE id = :123invalid" postgres)
  = expect "SELECT * FROM users WHERE id = :123invalid" [].
Proof. vm_compute. reflexivity. Qed.

Example test_escaped_single_quotes :
  outcome (parse "SELECT * FROM users WHERE name = 'O''Brien :id' AND id = :id" postgres)
  = expect "SELECT * FROM users WHERE name = 'O''Brien :id' AND id = $1"
      ["id"%string].
Proof. vm_compute. reflexivity. Qed.

Example test_dollar_quoting :
  outcome (parse "SELECT * FROM users WHERE desc = $tag$:id not a placeholder$tag$ AND id = :id" postgres)
  = expect "SELECT * FROM users WHERE desc = $tag$:id not a placeholder$tag$ AND id = $1"
      ["id"%string].
Proof. vm_compute. reflexivity. Qed.

Example test_cast_not_a_placeholder :
  outcome (parse "SELECT name::text, id::varchar FROM users WHERE id = :id" postgres)
  = expect "SELECT name::text, id::varchar FROM users WHERE id = $1"
      ["id"%string].
Proof. vm_compute. reflexivity. Qed.

Example test_block_comment :
  outcome (parse "SELECT * FROM users /* WHERE id = :id */ WHERE active = true AND id = :id" postgres)
  = expect "SELECT * FROM users /* WHERE id = :id */ WHERE active = true AND id = $1"
      ["id"%string].
Proof. vm_compute. reflexivity. Qed.

Example test_oracle_quote :
  outcome (parse "SELECT 1 WHERE name = q'<Don't use :fake>' AND id = :id" postgres)
  = expect "SELECT 1 WHERE name = q'<Don't use :fake>' AND id = $1"
      ["id"%string].
Proof. vm_compute. reflexivity. Qed.

Example test_malformed_oracle_quote :
  outcome (parse "SELECT * FROM users WHERE name = q'<text" mysql)
  = expect "SELECT * FROM users WHERE name = q'<text" [].
Proof. vm_compute. reflexivity. Qed.

(** The validator alone accepts a Unicode letter. *)
Example isValidName_unicode :
  isValidName sampleWideLetter sampleWideDigit (bytes "año") = true.
Proof. vm_compute. reflexivity. Qed.

(** * The properties at concrete inputs *)

(** C1 at the text ["q"], the case of the historical hang: the Oracle
    skipper rejects the [q] and still moves past it. *)
Lemma C1_witness :
  let s := newParseState (bytes "q") in
  wf s /\ st_i s < st_n s
  /\ classify s = OracleQ
  /\ st_i s
     < st_i (fst (dispatch sampleWideLetter sampleWideDigit postgres s))
     <= st_n s.
Proof.
  assert (wf (newParseState (bytes "q"))) as Hwf by (split; simpl; lia).
  assert (st_i (newParseState (bytes "q")) < st_n (newParseState (bytes "q")))
    as Hlt by (simpl; lia).
  assert (classify (newParseState (bytes "q"))
          = OracleQ) as Hc by reflexivity.
  split; [exact Hwf|]. split; [exact Hlt|]. split; [exact Hc|].
  exact (proj1 (C1_progress_and_termination sampleWideLetter sampleWideDigit)
           postgres OracleQ (newParseState (bytes "q")) Hwf Hlt Hc).
Defined.



(** C3 at the text of the test "no placeholders". *)
Lemma C3_witness :
  let sqlText := bytes "SELECT * FROM users WHERE active = true" in
  (":" ∉ sqlText)
  /\ ParseSQL sampleWideLetter sampleWideDigit sqlText (Some postgres)
     = Some ({| SQL := sqlText; parameters := []; occurrences := [] |}, None).
Proof.
  intros sqlText.
  assert (":" ∉ sqlText) as Hno.
  { intros H. unfold sqlText in H. simpl in H.
    repeat (apply elem_of_cons in H as [H|H]; [discriminate H|]).
    apply elem_of_nil in H. exact H. }
  split; [exact Hno|].
  exact (proj2 (C3_identity_without_placeholders
                  sampleWideLetter sampleWideDigit) postgres sqlText Hno).
Defined.

(** C4 at [":items.0.id"]. *)
Lemma C4_witness :
  let sqlText := bytes ":items.0.id" in
  let s := newParseState sqlText in
  stateAfter sampleWideLetter sampleWideDigit postgres sqlText 0 = Some s
  /\ classify s = Placeholder
  /\ ~ Selector (rawNameAt s)
  /\ ParseSQL sampleWideLetter sampleWideDigit sqlText (Some postgres)
     = Some (zeroParsedSQL,
             Some (ErrInvalidPlaceholderName (rawNameAt s) (st_i s))).
Proof.
  intros sqlText s.
  assert (stateAfter sampleWideLetter sampleWideDigit postgres sqlText 0
          = Some s) as Hk by reflexivity.
  assert (st_i s < st_n s) as Hlt by (simpl; lia).
  assert (classify s = Placeholder) as Hc
    by reflexivity.
  assert (~ Selector (rawNameAt s)) as Hsel
    by exact (proj1 (proj2 (C4_grammar_rejection sampleWideLetter
                              sampleWideDigit))).
  split; [exact Hk|]. split; [exact Hc|]. split; [exact Hsel|].
  exact (proj1 (C4_grammar_rejection sampleWideLetter sampleWideDigit)
           postgres sqlText 0 s Hk Hlt Hc Hsel).
Defined.

(** C5 at a text with [:x] twice. *)
Lemma C5_witness :
  exists ps,
    parse "a = :x OR b = :x" postgres = Some (ps, None)
    /\ map Name (occurrences ps) = [bytes "x"; bytes "x"]
    /\ parameters ps = [NewParameter (bytes "x") 1]
    /\ map Index (occurrences ps) = [1; 1].
Proof.
  eexists. split; [vm_compute; reflexivity|]. split; [reflexivity|].
  refine ((fun H => conj (proj1 H) (proj1 (proj2 (proj2 H))))
            (C5_deduplication sampleWideLetter sampleWideDigit
               (bytes "a = :x OR b = :x") postgres _ (bytes "x") _ _)).
  - vm_compute. reflexivity.
  - reflexivity.
Defined.

(** C6 at [":a :b :a :c"]. *)
Lemma C6_witness :
  exists ps,
    parse ":a :b :a :c" postgres = Some (ps, None)
    /\ map Name (occurrences ps) = [bytes "a"; bytes "b"; bytes "a"; bytes "c"]
    /\ parameters ps
       = [NewParameter (bytes "a") 1; NewParameter (bytes "b") 2;
          NewParameter (bytes "c") 3].
Proof.
  eexists. split; [vm_compute; reflexivity|]. split; [reflexivity|].
  refine (proj1 (C6_order_preservation sampleWideLetter sampleWideDigit
                   (bytes ":a :b :a :c") postgres _
                   (bytes "a") (bytes "b") (bytes "c") _ _ _ _ _)).
  - vm_compute. reflexivity.
  - reflexivity.
  - discriminate.
  - discriminate.
  - discriminate.
Defined.

(** The claim of C8 fails on [":año"]: [año] is a valid name for the
    validator, and no occurrence has that name. *)
Lemma C8_counterexample :
  isValidName sampleWideLetter sampleWideDigit (bytes "año") = true
  /\ ~ (exists ps t,
          parse ":año" postgres = Some (ps, None)
          /\ t ∈ occurrences ps /\ Name t = bytes "año").
Proof.
  split; [vm_compute; reflexivity|].
  intros (ps & t & H & Ht & Hn).
  vm_compute in H. injection H as <-.
  apply list_elem_of_singleton in Ht. subst t. discriminate Hn.
Qed.

(** C8 at [":año"]. *)
Lemma C8_witness :
  exists ps,
    parse ":año" postgres = Some (ps, None)
    /\ Forall (fun t =>
                 Name t = slice (bytes ":año") (Start t + 1) (End_ t)
                 /\ Forall (fun c => isValidIdentifierChar c = true
                                     /\ (N_of_ascii c < 128)%N) (Name t)
                 /\ (End_ t < length (bytes ":año") ->
                     isValidIdentifierChar (byteAt (bytes ":año") (End_ t))
                     = false))
         (occurrences ps).
Proof.
  eexists. split; [vm_compute; reflexivity|].
  refine (proj1 (C8_names_are_ascii_runs sampleWideLetter sampleWideDigit)
            (bytes ":año") postgres _ _).
  vm_compute. reflexivity.
Defined.

(** C10 at ["SELECT :id."]: iteration 7 is entered at the colon. *)
Lemma C10_witness :
  let sqlText := bytes "SELECT :id." in
  let s := set_i (newParseState sqlText) 7 in
  stateAfter sampleWideLetter sampleWideDigit postgres sqlText 7 = Some s
  /\ classify s = Placeholder
  /\ rawNameAt s = bytes "id" ++ ["."]
  /\ punctuation "."
  /\ ~ Selector (bytes "id" ++ ["."])
  /\ ParseSQL sampleWideLetter sampleWideDigit sqlText (Some postgres)
     = Some (zeroParsedSQL,
             Some (ErrInvalidPlaceholderName (bytes "id" ++ ["."]) (st_i s))).
Proof.
  intros sqlText s.
  assert (stateAfter sampleWideLetter sampleWideDigit postgres sqlText 7
          = Some s) as Hk by (vm_compute; reflexivity).
  assert (st_i s < st_n s) as Hlt by (simpl; lia).
  assert (classify s = Placeholder) as Hc
    by reflexivity.
  assert (rawNameAt s = bytes "id" ++ ["."]) as Hraw by reflexivity.
  assert (punctuation ".") as Hp by (left; reflexivity).
  assert ("."%char = "]"%char -> "["%char ∉ bytes "id") as Hstray
    by discriminate.
  assert (~ Selector (bytes "id" ++ ["."])) as Hsel
    by exact (proj1 (proj2 (C10_maximal_run_rejected sampleWideLetter
                              sampleWideDigit))
                (bytes "id") "." Hp Hstray).
  split; [exact Hk|]. split; [exact Hc|]. split; [exact Hraw|].
  split; [exact Hp|]. split; [exact Hsel|].
  exact (proj1 (C10_maximal_run_rejected sampleWideLetter sampleWideDigit)
           postgres sqlText 7 s (bytes "id") "." Hk Hlt Hc Hraw Hp Hsel).
Defined.

(** ** The further properties at concrete inputs *)

Lemma parameters_are_first_occurrences_witness :
  exists ps,
    parse "a = :x OR b = :y OR c = :x" postgres = Some (ps, None)
    /\ parameters ps
       = imap (fun j x => NewParameter x (S j))
           (dedupFirst (map Name (occurrences ps))).
Proof.
  eexists. split; [vm_compute; reflexivity|].
  refine (parameters_are_first_occurrences sampleWideLetter sampleWideDigit
            (bytes "a = :x OR b = :y OR c = :x") postgres _ _).
  vm_compute. reflexivity.
Defined.

Lemma occurrences_index_parameters_witness :
  exists ps,
    parse "a = :x OR b = :y OR c = :x" postgres = Some (ps, None)
    /\ NoDup (map p_Name (parameters ps)).
Proof.
  eexists. split; [vm_compute; reflexivity|].
  refine (proj2 (proj2 (occurrences_index_parameters
                          sampleWideLetter sampleWideDigit
                          (bytes "a = :x OR b = :y OR c = :x") postgres _ _))).
  vm_compute. reflexivity.
Defined.

Lemma parameters_count_witness :
  exists ps,
    parse "a = :x OR b = :y OR c = :x" postgres = Some (ps, None)
    /\ length (parameters ps) <= length (occurrences ps).
Proof.
  eexists. split; [vm_compute; reflexivity|].
  refine (proj1 (parameters_count sampleWideLetter sampleWideDigit
                   (bytes "a = :x OR b = :y OR c = :x") postgres _ _)).
  vm_compute. reflexivity.
Defined.

Lemma occurrences_layout_witness :
  exists ps,
    parse "a = :x OR b = :y OR c = :x" postgres = Some (ps, None)
    /\ Forall (fun t => Raw t = ":"%char :: Name t
                        /\ End_ t = Start t + 1 + length (Name t))
         (occurrences ps).
Proof.
  eexists. split; [vm_compute; reflexivity|].
  refine (Forall_impl _ _ _
            (proj2 (occurrences_layout sampleWideLetter sampleWideDigit
                      (bytes "a = :x OR b = :y OR c = :x") postgres _ _)) _).
  - vm_compute. reflexivity.
  - intros t H. exact (proj2 (proj2 (proj2 (proj2 H)))).
Defined.

Lemma rewritten_text_witness :
  exists ps,
    parse "a = :x OR b = :y OR c = :x" postgres = Some (ps, None)
    /\ SQL ps
       = rewritten postgres (bytes "a = :x OR b = :y OR c = :x") 0
           (occurrences ps).
Proof.
  eexists. split; [vm_compute; reflexivity|].
  refine (proj1 (rewritten_text sampleWideLetter sampleWideDigit
                   (bytes "a = :x OR b = :y OR c = :x") postgres _ _)).
  vm_compute. reflexivity.
Defined.

(** [func(i int) string] that renders the two parameters of the text
    below as they are written. *)
Definition asWritten (i : nat) : list ascii :=
  if i =? 1 then bytes ":x" else bytes ":y".

Lemma rewritten_with_raw_text_witness :
  exists ps,
    parse "a = :x OR b = :y OR c = :x" asWritten = Some (ps, None)
    /\ (forall t, t ∈ occurrences ps -> asWritten (Index t) = Raw t)
    /\ SQL ps = bytes "a = :x OR b = :y OR c = :x".
Proof.
  eexists. split; [vm_compute; reflexivity|].
  assert (forall t : QueryToken,
            t ∈ [ {| Name := bytes "x"; Index := 1; Start := 4; End_ := 6;
                     Raw := bytes ":x" |};
                  {| Name := bytes "y"; Index := 2; Start := 14; End_ := 16;
                     Raw := bytes ":y" |};
                  {| Name := bytes "x"; Index := 1; Start := 24; End_ := 26;
                     Raw := bytes ":x" |} ] ->
            asWritten (Index t) = Raw t) as Hraw.
  { intros t Ht.
    repeat (apply elem_of_cons in Ht as [->|Ht]; [reflexivity|]).
    apply elem_of_nil in Ht. destruct Ht. }
  split; [exact Hraw|].
  apply (rewritten_with_raw_text sampleWideLetter sampleWideDigit
           (bytes "a = :x OR b = :y OR c = :x") asWritten);
    [vm_compute; reflexivity | exact Hraw].
Defined.

Lemma parse_errors_witness :
  exists ps e,
    parse "a = :x..y" postgres = Some (ps, Some e)
    /\ ps = zeroParsedSQL.
Proof.
  eexists. eexists. split; [vm_compute; reflexivity|].
  refine (proj1 (parse_errors sampleWideLetter sampleWideDigit
                   (bytes "a = :x..y") (Some postgres) _ _ _)).
  vm_compute. reflexivity.
Defined.

Lemma format_function_independence_witness :
  exists ps1 ps2 e1 e2,
    parse "a = :x OR b = :y OR c = :x" postgres = Some (ps1, e1)
    /\ parse "a = :x OR b = :y OR c = :x" mysql = Some (ps2, e2)
    /\ e1 = e2
    /\ parameters ps1 = parameters ps2
    /\ occurrences ps1 = occurrences ps2.
Proof.
  eexists. eexists. eexists. eexists.
  split; [vm_compute; reflexivity|]. split; [vm_compute; reflexivity|].
  refine (format_function_independence sampleWideLetter sampleWideDigit
            (bytes "a = :x OR b = :y OR c = :x") postgres mysql _ _ _ _ _ _).
  - vm_compute. reflexivity.
  - vm_compute. reflexivity.
Defined.

Lemma quoted_skippers_stop_at_first_closing_witness :
  let s := newParseState (bytes "`a]` = 1") in
  wf s /\ st_i s < st_n s
  /\ skipsToClosing (st_src s) "`" (st_i s) (st_i (consumeBacktick s))
  /\ skipsToClosing (st_src s) "]" (st_i s) (st_i (consumeBracketIdent s)).
Proof.
  intros s.
  assert (wf s) as Hwf by (split; simpl; lia).
  assert (st_i s < st_n s) as Hlt by (simpl; lia).
  split; [exact Hwf|]. split; [exact Hlt|].
  exact (proj2 (quoted_skippers_stop_at_first_closing s Hwf Hlt)).
Defined.

Lemma line_comments_stop_at_newline_witness :
  let s := newParseState (bytes "# :x") in
  wf s /\ st_i s < st_n s /\ classify s = HashComment
  /\ skipsToNewline (st_src s) (st_i s + 1)
       (st_i (fst (dispatch sampleWideLetter sampleWideDigit postgres s))).
Proof.
  intros s.
  assert (wf s) as Hwf by (split; simpl; lia).
  assert (st_i s < st_n s) as Hlt by (simpl; lia).
  assert (classify s = HashComment) as Hc by reflexivity.
  split; [exact Hwf|]. split; [exact Hlt|]. split; [exact Hc|].
  exact (proj1 (line_comments_stop_at_newline sampleWideLetter
                  sampleWideDigit postgres s Hwf Hlt) Hc).
Defined.

Lemma block_comment_skipped_to_first_end_witness :
  let s := newParseState (bytes "/* :x */ :y") in
  wf s /\ classify s = BlockComment
  /\ (st_i (consumeBlockComment s) = 8
      \/ st_i (consumeBlockComment s) = st_n s).
Proof.
  intros s.
  assert (wf s) as Hwf by (split; simpl; lia).
  assert (classify s = BlockComment) as Hc by reflexivity.
  split; [exact Hwf|]. split; [exact Hc|].
  destruct (block_comment_skipped_to_first_end s Hwf Hc) as [_|[H _]].
  - left. reflexivity.
  - right. exact H.
Defined.

Lemma oracle_quote_skipper_witness :
  let s := newParseState (bytes "q'[:x]' = :y") in
  wf s /\ st_i s < st_n s
  /\ (st_i (consumeOracleQ s) = st_i s + 1
      \/ exists w, quoteAfterSpaces (st_src s) (st_i s) w).
Proof.
  intros s.
  assert (wf s) as Hwf by (split; simpl; lia).
  assert (st_i s < st_n s) as Hlt by (simpl; lia).
  split; [exact Hwf|]. split; [exact Hlt|].
  destruct (oracle_quote_skipper s Hwf Hlt) as [[_ H]|(w & H & _)].
  - left. exact H.
  - right. exists w. exact H.
Defined.

Lemma dollar_quote_skipper_witness :
  let s := newParseState (bytes "$t$ :x $t$ :y") in
  wf s /\ st_i s < st_n s
  /\ exists e, st_i s + 1 <= e <= st_n s.
Proof.
  intros s.
  assert (wf s) as Hwf by (split; simpl; lia).
  assert (st_i s < st_n s) as Hlt by (simpl; lia).
  split; [exact Hwf|]. split; [exact Hlt|].
  destruct (dollar_quote_skipper sampleWideLetter sampleWideDigit s Hwf Hlt)
    as (e & He & _).
  exists e. exact He.
Defined.

Lemma isValidName_is_the_grammar_witness :
  let s := bytes "items[0].id" in
  asciiOnly s
  /\ (isValidName sampleWideLetter sampleWideDigit s = true <-> Selector s).
Proof.
  intros s.
  assert (asciiOnly s) as Hs by (repeat constructor).
  split; [exact Hs|].
  exact (isValidName_is_the_grammar sampleWideLetter sampleWideDigit s Hs).
Defined.

Lemma NewParameters_of_parsed_witness :
  exists ps,
    parse "a = :x OR b = :y OR c = :x" postgres = Some (ps, None)
    /\ NewParameters (map p_Name (parameters ps)) = parameters ps
    /\ map p_Index (parameters ps) = seq 1 (length (parameters ps)).
Proof.
  eexists. split; [vm_compute; reflexivity|].
  refine (NewParameters_of_parsed sampleWideLetter sampleWideDigit
            (bytes "a = :x OR b = :y OR c = :x") postgres _ _).
  vm_compute. reflexivity.
Defined.

Lemma DottedSelectors_panics_on_a_dot_witness :
  let ps := NewParameters [bytes "id"; bytes "user.name"] in
  Exists (fun p => "."%char ∈ p_Name p) ps /\ DottedSelectors ps = None.
Proof.
  intros ps.
  assert (Exists (fun p => "."%char ∈ p_Name p) ps) as H.
  { apply Exists_cons_tl, Exists_cons_hd. simpl.
    rewrite !elem_of_cons. do 4 right. left. reflexivity. }
  split; [exact H|].
  exact (proj2 (DottedSelectors_panics_on_a_dot ps) H).
Defined.

Lemma parsed_names_follow_the_grammar_witness :
  exists ps,
    parse "a = :user.id OR b = :items[0]" postgres = Some (ps, None)
    /\ Forall (fun t => Selector (Name t)) (occurrences ps)
    /\ Forall (fun p => Selector (p_Name p)) (parameters ps).
Proof.
  eexists. split; [vm_compute; reflexivity|].
  refine (parsed_names_follow_the_grammar sampleWideLetter sampleWideDigit
            (bytes "a = :user.id OR b = :items[0]") postgres _ _).
  vm_compute. reflexivity.
Defined.

Lemma grammar_name_parses_as_placeholder_witness :
  let n := bytes "items[0].id" in
  Selector n
  /\ ParseSQL sampleWideLetter sampleWideDigit (":"%char :: n) (Some postgres)
     = Some ({| SQL := postgres 1;
                parameters := [NewParameter n 1];
                occurrences := [{| Name := n; Index := 1; Start := 0;
                                   End_ := S (length n);
                                   Raw := ":"%char :: n |}] |}, None).
Proof.
  intros n.
  assert (Selector n) as Hsel.
  { exists "i"%char, (bytes "tems"), (bytes "[0].id").
    split; [reflexivity|]. split; [reflexivity|].
    split; [repeat constructor|].
    apply (tail_index (bytes "0") (bytes ".id"));
      [discriminate | repeat constructor |].
    apply (tail_dot "i" (bytes "d") []);
      [reflexivity | repeat constructor | constructor]. }
  split; [exact Hsel|].
  exact (grammar_name_parses_as_placeholder sampleWideLetter sampleWideDigit
           n postgres Hsel).
Defined.

Lemma type_names_ignore_ascii_case_witness :
  let s := bytes "Integer?" in
  let lower := stringsToLower (fun s => s) in
  isASCII s = true
  /\ fst (ParseCardinality (fun s => s) (lower s))
     = fst (ParseCardinality (fun s => s) s)
  /\ fst (ParseDBRowType (fun s => s) (lower s))
     = fst (ParseDBRowType (fun s => s) s)
  /\ fst (ParseDBDataType (fun s => s) (lower s))
     = fst (ParseDBDataType (fun s => s) s).
Proof.
  intros s lower.
  assert (isASCII s = true) as Hs by reflexivity.
  split; [exact Hs|].
  exact (type_names_ignore_ascii_case (fun s => s) s Hs).
Defined.
